(** * Connect 4: board engine, move adjudicator, search agent and room registry

    A shallow embedding of the game logic of the repository
    ([server/src/index.ts], the client's game module and
    [shared/src/index.ts]) together with the properties its specification
    states about it, and further properties of the session handlers, the
    local game and the search that the code itself shows.

    Conventions of the embedding.
    - A JavaScript [number] that the code uses as an index, a cell, a score
      or a time stamp is a [Z]; [-Infinity] and [Infinity] are the two extra
      points of [Score].
    - A board is [number[][]], here [list (list Z)], row 0 on top.  Reading
      [board[r][c]] gives [undefined] when the cell does not exist; that is
      [None] of [cell].
    - Objects that the code mutates in place are threaded explicitly: an
      operation returns the new state next to its result. *)

From Stdlib Require Import ZArith Lia List Bool Orders OrdersTac Sorted.
From stdpp Require Import gmap strings list fin_maps.

Local Open Scope Z_scope.

(** ** Boards *)

Abbreviation Board := (list (list Z)).

(** [board[r][c]]: [None] stands for [undefined] (a negative or too large
    index).  A row that does not exist makes the source raise a [TypeError];
    the server code never reads one (every row index it uses is checked
    against [board.length] first), and the client code reads rows [0..5] only,
    so on the 6x7 boards of the game no read falls outside. *)
Definition cell (b : Board) (r c : Z) : option Z :=
  if (r <? 0) || (c <? 0) then None
  else match b !! Z.to_nat r with
       | Some rw => rw !! Z.to_nat c
       | None => None
       end.

(** [board[r][c] = v] for a cell that exists. *)
Definition setCell (b : Board) (r c : Z) (v : Z) : Board :=
  match b !! Z.to_nat r with
  | Some rw => <[Z.to_nat r := <[Z.to_nat c := v]> rw]> b
  | None => b
  end.

(** [board.length] and [board[0].length]. *)
Definition height (b : Board) : Z := Z.of_nat (length b).

Definition width (b : Board) : Z :=
  match b with
  | [] => 0
  | rw :: _ => Z.of_nat (length rw)
  end.

Definition ROWS : Z := 6.
Definition COLS : Z := 7.

(** [Array.from({ length: 6 }, () => Array.from({ length: 7 }, () => 0))] *)
Definition emptyBoard : Board := replicate 6 (replicate 7 0).

(** [for (const x of xs) { ...; if (...) return y; }]: the first iteration
    that returns decides. *)
Fixpoint firstSome {A B : Type} (f : A -> option B) (l : list A) : option B :=
  match l with
  | [] => None
  | x :: l' => match f x with
               | Some y => Some y
               | None => firstSome f l'
               end
  end.

(** [0, 1, ..., n-1] as numbers. *)
Definition range (n : Z) : list Z := map Z.of_nat (seq 0 (Z.to_nat n)).

(** The four axes, as both win checks list them. *)
Definition directions : list (Z * Z) := [(0, 1); (1, 0); (1, 1); (1, -1)].

(** ** Shared protocol types ([shared/src/index.ts]) *)

Inductive PlayerId := P1 | P2.

Inductive GameStatus := waiting | playing | won | draw.

Record LastMove := mkLastMove { lm_col : Z; lm_row : Z; lm_by : PlayerId }.

Record Presence := mkPresence { connected : bool }.

Record Players := mkPlayers { pl_P1 : option Presence; pl_P2 : option Presence }.

Record GameState := mkGameState {
  roomCode : string;
  status : GameStatus;
  board : Board;
  nextTurn : PlayerId;
  winner : option PlayerId;
  lastMove : option LastMove;
  players : Players
}.

Global Instance PlayerId_eq_dec : EqDecision PlayerId.
Proof. solve_decision. Defined.

Global Instance GameStatus_eq_dec : EqDecision GameStatus.
Proof. solve_decision. Defined.

(** ** The server's move adjudicator ([server/src/index.ts]) *)

Module Server.

Definition otherPlayer (p : PlayerId) : PlayerId :=
  match p with P1 => P2 | P2 => P1 end.

Definition cellValue (playerId : PlayerId) : Z :=
  match playerId with P1 => 1 | P2 => 2 end.

(** [board[0].every((cell) => cell !== 0)] *)
Definition checkDraw (b : Board) : bool :=
  match b with
  | [] => true (* no row 0: a [TypeError] in the source; [applyMove] calls
                  [checkDraw] after a placement only, so a row exists *)
  | top :: _ => forallb (fun x => negb (x =? 0)) top
  end.

(** The [while] loop of [countDir], entered at [(r, c)] with [count] cells
    counted so far.  The loop has no bound of its own (a zero direction would
    spin on a matching cell), so it runs on fuel; [None] is "fuel exhausted". *)
Fixpoint countLoop (fuel : nat) (b : Board) (r c dr dc : Z) (val : option Z)
    (count : Z) : option Z :=
  match fuel with
  | O => None
  | S fuel' =>
      if (0 <=? r) && (r <? height b) && (0 <=? c) && (c <? width b)
         && bool_decide (cell b r c = val)
      then countLoop fuel' b (r + dr) (c + dc) dr dc val (count + 1)
      else Some count
  end.

Definition countDir (fuel : nat) (b : Board) (row col dr dc : Z)
    (val : option Z) : option Z :=
  countLoop fuel b (row + dr) (col + dc) dr dc val 0.

(** The body of [checkWin]'s loop over the directions. *)
Fixpoint checkWinDirs (fuel : nat) (b : Board) (row col : Z) (val : option Z)
    (dirs : list (Z * Z)) : option bool :=
  match dirs with
  | [] => Some false
  | (dr, dc) :: dirs' =>
      match countDir fuel b row col dr dc val with
      | None => None
      | Some n1 =>
          match countDir fuel b row col (- dr) (- dc) val with
          | None => None
          | Some n2 =>
              if 1 + n1 + n2 >=? 4 then Some true
              else checkWinDirs fuel b row col val dirs'
          end
      end
  end.

(** Fuel that lets every walk of [checkWin] leave the board. *)
Definition walkFuel (b : Board) : nat := S (length b + Z.to_nat (width b)).

Definition checkWin (b : Board) (row col : Z) : option bool :=
  let val := cell b row col in
  if bool_decide (val = Some 0) then Some false
  else checkWinDirs (walkFuel b) b row col val directions.

Inductive MoveResult :=
  | Row (row : Z)
  | Error (error : string).

(** The body of the [if (board[row][col] === 0)] of [applyMove]: place the
    mark, record the move, then win, draw or pass the turn. *)
Definition place (state : GameState) (by_ : PlayerId) (col row : Z)
    : option (GameState * MoveResult) :=
  let board' := setCell (board state) row col (cellValue by_) in
  let lm := Some (mkLastMove col row by_) in
  match checkWin board' row col with
  | None => None
  | Some true =>
      Some (mkGameState (roomCode state) won board' (nextTurn state)
              (Some by_) lm (players state), Row row)
  | Some false =>
      if checkDraw board'
      then Some (mkGameState (roomCode state) draw board' (nextTurn state)
                   (winner state) lm (players state), Row row)
      else Some (mkGameState (roomCode state) (status state) board'
                   (otherPlayer by_) (winner state) lm (players state), Row row)
  end.

(** [for (let row = n - 1; row >= 0; row--)] of [applyMove]. *)
Fixpoint dropLoop (state : GameState) (by_ : PlayerId) (col : Z) (n : nat)
    : option (GameState * MoveResult) :=
  match n with
  | O => Some (state, Error "Column is full")
  | S row =>
      if bool_decide (cell (board state) (Z.of_nat row) col = Some 0)
      then place state by_ col (Z.of_nat row)
      else dropLoop state by_ col row
  end.

(** [applyMove(state, by, col)]: the state after the call and what it
    returned; [None] only if a walk of [checkWin] ran out of fuel (it never
    does, see [applyMove_returns]). *)
Definition applyMove (state : GameState) (by_ : PlayerId) (col : Z)
    : option (GameState * MoveResult) :=
  if negb (bool_decide (status state = playing))
  then Some (state, Error "Game is not in playing state")
  else if negb (bool_decide (nextTurn state = by_))
  then Some (state, Error "Not your turn")
  else if (col <? 0) || (col >? 6)
  then Some (state, Error "Invalid column")
  else dropLoop state by_ col (length (board state)).

(** *** Room registry and session protocol handler *)

(** A connection.  The source keeps one [Client] object per socket and puts
    references to it in [room.clients]; here the objects live in a store keyed
    by their [id], and a room holds the ids, so a change of a client's fields
    is seen through every room that lists it. *)
Record Client := mkClient {
  c_roomCode : option string;
  c_playerId : option PlayerId
}.

Record Room := mkRoom {
  code : string;
  clients : list string;      (* [Set<Client>], in insertion order *)
  state : GameState;
  createdAt : Z;
  lastActiveAt : Z
}.

Record Registry := mkRegistry {
  rooms : gmap string Room;
  conns : gmap string Client
}.

Inductive ErrorCode :=
  | ROOM_NOT_FOUND | ALREADY_IN_ROOM | ROOM_FULL
  | NOT_IN_ROOM | INVALID_MOVE | INVALID_MESSAGE.

Inductive ServerToClient :=
  | room_created (roomCode : string) (you : PlayerId)
  | room_joined (roomCode : string) (you : PlayerId) (st : GameState)
  | state_msg (roomCode : string) (st : GameState)
  | error_msg (roomCode : option string) (code : ErrorCode) (message : string).

(** What leaves the server: the receiving connection and the message, in the
    order of the [socket.send] calls. *)
Definition Sent := list (string * ServerToClient).

Definition sendProtocol (to : string) (msg : ServerToClient) : Sent := [(to, msg)].

Definition broadcast (room : Room) (msg : ServerToClient) : Sent :=
  map (fun cid => (cid, msg)) (clients room).

(** [room.clients.add(client)] *)
Definition setAdd (cid : string) (l : list string) : list string :=
  if bool_decide (cid ∈ l) then l else l ++ [cid].

(** The connection object behind an id; a fresh connection has no room and
    no seat. *)
Definition clientOf (cs : gmap string Client) (cid : string) : Client :=
  default (mkClient None None) (cs !! cid).

(** The seats taken in a room: [c.playerId] of each attached client. *)
Definition takenSeats (cs : gmap string Client) (room : Room) : list PlayerId :=
  omap (fun cid => c_playerId (clientOf cs cid)) (clients room).

Definition pickPlayerId (cs : gmap string Client) (room : Room) : option PlayerId :=
  let taken := takenSeats cs room in
  if negb (bool_decide (P1 ∈ taken)) then Some P1
  else if negb (bool_decide (P2 ∈ taken)) then Some P2
  else None.

Definition updatePresence (cs : gmap string Client) (room : Room) : Room :=
  let taken := takenSeats cs room in
  let cP1 := bool_decide (P1 ∈ taken) in
  let cP2 := bool_decide (P2 ∈ taken) in
  let st := state room in
  let pls := mkPlayers (Some (mkPresence cP1)) (Some (mkPresence cP2)) in
  let st' :=
    if cP1 && cP2 && bool_decide (status st = waiting)
    then mkGameState (roomCode st) playing (board st) P1
           (winner st) (lastMove st) pls
    else mkGameState (roomCode st) (status st) (board st) (nextTurn st)
           (winner st) (lastMove st) pls in
  mkRoom (code room) (clients room) st' (createdAt room) (lastActiveAt room).

(** The [join_room] branch of the message handler, for the connection [cid]
    at time [now] ([Date.now()]). *)
Definition joinRoom (reg : Registry) (cid : string) (roomCode : string)
    (now : Z) : Registry * Sent :=
  match rooms reg !! roomCode with
  | None =>
      (reg, sendProtocol cid
              (error_msg (Some roomCode) ROOM_NOT_FOUND "Room not found"))
  | Some room =>
      if bool_decide (is_Some (c_roomCode (clientOf (conns reg) cid)))
      then (reg, sendProtocol cid
                   (error_msg (Some roomCode) ALREADY_IN_ROOM "Already in a room"))
      else
        match pickPlayerId (conns reg) room with
        | None =>
            (reg, sendProtocol cid
                    (error_msg (Some roomCode) ROOM_FULL "Room is full"))
        | Some slot =>
            let cs' := <[cid := mkClient (Some roomCode) (Some slot)]> (conns reg) in
            let room1 := mkRoom (code room) (setAdd cid (clients room))
                           (state room) (createdAt room) now in
            let room2 := updatePresence cs' room1 in
            (mkRegistry (<[roomCode := room2]> (rooms reg)) cs',
             sendProtocol cid (room_joined roomCode slot (state room2))
             ++ broadcast room2 (state_msg roomCode (state room2)))
        end
  end.

(** The garbage collection of idle rooms. *)
Definition ROOM_TTL_MS : Z := 10 * 60 * 1000.

(** One iteration of [for (const [code, room] of rooms)]. *)
Definition sweepStep (now : Z) (acc : gmap string Room) (entry : string * Room)
    : gmap string Room :=
  let '(code, room) := entry in
  if (0 <? Z.of_nat (length (clients room)))%Z then acc
  else if (now - lastActiveAt room >? ROOM_TTL_MS)%Z then delete code acc
  else acc.

(** One tick of the [setInterval] callback, at time [now]. *)
Definition sweep (now : Z) (rs : gmap string Room) : gmap string Room :=
  foldl (sweepStep now) rs (map_to_list rs).

End Server.

(** ** The client's game module: rules for local play and the search agent *)

(** Scores of the search: a number, [-Infinity] or [Infinity]. *)
Inductive Score := NegInf | Fin (z : Z) | PosInf.

Definition score_lt (x y : Score) : bool :=
  match x, y with
  | NegInf, NegInf => false
  | NegInf, _ => true
  | Fin _, NegInf => false
  | Fin a, Fin b => a <? b
  | Fin _, PosInf => true
  | PosInf, _ => false
  end.

(** [x >= y] *)
Definition score_ge (x y : Score) : bool := negb (score_lt x y).

(** [Math.max(x, y)] and [Math.min(x, y)] *)
Definition score_max (x y : Score) : Score := if score_lt x y then y else x.
Definition score_min (x y : Score) : Score := if score_lt y x then y else x.

Inductive Difficulty := easy | medium | hard.

Module Client.

(** [type Winner = { player; cells }].  [player] is the value read from the
    board, a number on every board of the game. *)
Record Winner := mkWinner { player : option Z; cells : list (Z * Z) }.

(** [for (let row = n - 1; row >= 0; row -= 1)] of [getAvailableRow]. *)
Fixpoint availLoop (b : Board) (col : Z) (n : nat) : Z :=
  match n with
  | O => -1
  | S row =>
      if bool_decide (cell b (Z.of_nat row) col = Some 0) then Z.of_nat row
      else availLoop b col row
  end.

Definition getAvailableRow (b : Board) (col : Z) : Z :=
  availLoop b col (Z.to_nat ROWS).

(** [for (let k = 1; k < 4; k += 1)] of [checkWinner], over the remaining
    values [ks] of [k], with the cells collected so far. *)
Fixpoint extend (b : Board) (row col dr dc : Z) (pl : option Z) (ks : list Z)
    (cs : list (Z * Z)) : list (Z * Z) :=
  match ks with
  | [] => cs
  | k :: ks' =>
      let r := row + dr * k in
      let c := col + dc * k in
      if (r <? 0) || (r >=? ROWS) || (c <? 0) || (c >=? COLS) then cs
      else if negb (bool_decide (cell b r c = pl)) then cs
      else extend b row col dr dc pl ks' (cs ++ [(r, c)])
  end.

(** What one cell contributes to the scan of [checkWinner]. *)
Definition winnerAt (b : Board) (row col : Z) : option Winner :=
  let pl := cell b row col in
  if bool_decide (pl = Some 0) then None
  else firstSome
         (fun '(dr, dc) =>
            let cs := extend b row col dr dc pl [1; 2; 3] [(row, col)] in
            if bool_decide (length cs = 4%nat) then Some (mkWinner pl cs)
            else None)
         directions.

Definition checkWinner (b : Board) : option Winner :=
  firstSome
    (fun row => firstSome (fun col => winnerAt b row col) (range COLS))
    (range ROWS).

Definition isBoardFull (b : Board) : bool :=
  forallb (fun rw => forallb (fun x => negb (x =? 0)) rw) b.

Definition getValidColumns (b : Board) : list Z :=
  List.filter (fun col => negb (getAvailableRow b col =? -1)) (range COLS).

(** [board.map((r) => [...r])] copies the board; a value needs no copy. *)
Definition applyMove (b : Board) (col : Z) (pl : Z) : option Board :=
  let row := getAvailableRow b col in
  if row <? 0 then None
  else Some (setCell b row col pl).

(** [choices[Math.floor(Math.random() * choices.length)]]: the random number
    enters as the index [draw] it selects, reduced into the list. *)
Definition pickRandom (draw : nat) (choices : list Z) : option Z :=
  choices !! (draw `mod` length choices)%nat.

(** [winner?.player === p] *)
Definition wonBy (w : option Winner) (p : Z) : bool :=
  match w with
  | Some w => bool_decide (player w = Some p)
  | None => false
  end.

Definition findWinningMove (b : Board) (pl : Z) : option Z :=
  firstSome
    (fun col =>
       match applyMove b col pl with
       | None => None
       | Some nextBoard =>
           if wonBy (checkWinner nextBoard) pl then Some col else None
       end)
    (getValidColumns b).

(** [window.filter((cell) => cell === v).length] *)
Definition countEq (v : Z) (window : list (option Z)) : Z :=
  Z.of_nat (length (List.filter (fun x => bool_decide (x = Some v)) window)).

(** [evaluateWindow] updates the [score] of the enclosing [scorePosition];
    here it takes the score and returns the new one. *)
Definition evaluateWindow (pl opponent : Z) (window : list (option Z))
    (score : Z) : Z :=
  let playerCount := countEq pl window in
  let oppCount := countEq opponent window in
  let emptyCount := countEq 0 window in
  let score1 :=
    if playerCount =? 4 then score + 100
    else if (playerCount =? 3) && (emptyCount =? 1) then score + 5
    else if (playerCount =? 2) && (emptyCount =? 2) then score + 2
    else score in
  if (oppCount =? 3) && (emptyCount =? 1) then score1 - 4 else score1.

(** The values [lo, lo+1, ..., hi-1] of a counting loop. *)
Definition interval (lo hi : Z) : list Z := map (fun i => lo + i) (range (hi - lo)).

(** [for (let i = lo; i < hi; i += 1) body], threading the loop's state. *)
Definition forRange {S : Type} (lo hi : Z) (body : Z -> S -> S) (s : S) : S :=
  fold_left (fun acc i => body i acc) (interval lo hi) s.

Definition opponentOf (pl : Z) : Z := if pl =? 1 then 2 else 1.

Definition scorePosition (b : Board) (pl : Z) : Z :=
  let opponent := opponentOf pl in
  let score := 0 in
  let centerCol := COLS / 2 in
  let centerCount :=
    forRange 0 ROWS
      (fun row n => if bool_decide (cell b row centerCol = Some pl) then n + 1 else n)
      0 in
  let score := score + centerCount * 3 in
  let ev := evaluateWindow pl opponent in
  (* Horizontal *)
  let score :=
    forRange 0 ROWS (fun row =>
      forRange 0 (COLS - 3) (fun col =>
        ev [cell b row col; cell b row (col + 1);
            cell b row (col + 2); cell b row (col + 3)])) score in
  (* Vertical *)
  let score :=
    forRange 0 COLS (fun col =>
      forRange 0 (ROWS - 3) (fun row =>
        ev [cell b row col; cell b (row + 1) col;
            cell b (row + 2) col; cell b (row + 3) col])) score in
  (* Diagonal down-right *)
  let score :=
    forRange 0 (ROWS - 3) (fun row =>
      forRange 0 (COLS - 3) (fun col =>
        ev [cell b row col; cell b (row + 1) (col + 1);
            cell b (row + 2) (col + 2); cell b (row + 3) (col + 3)])) score in
  (* Diagonal up-right *)
  let score :=
    forRange 3 ROWS (fun row =>
      forRange 0 (COLS - 3) (fun col =>
        ev [cell b row col; cell b (row - 1) (col + 1);
            cell b (row - 2) (col + 2); cell b (row - 3) (col + 3)])) score in
  score.

(** The loop of a maximizing node over the columns still to scan.  [child]
    is the recursive call on a successor board with the current window. *)
Fixpoint maxLoop (child : Board -> Score -> Score -> Score * option Z)
    (b : Board) (pl : Z) (cols : list Z) (alpha beta : Score)
    (bestScore : Score) (bestCol : option Z) : Score * option Z :=
  match cols with
  | [] => (bestScore, bestCol)
  | col :: rest =>
      match applyMove b col pl with
      | None => maxLoop child b pl rest alpha beta bestScore bestCol
      | Some nextBoard =>
          let result := child nextBoard alpha beta in
          let better := score_lt bestScore (fst result) in
          let bestScore' := if better then fst result else bestScore in
          let bestCol' := if better then Some col else bestCol in
          let alpha' := score_max alpha bestScore' in
          if score_ge alpha' beta then (bestScore', bestCol')
          else maxLoop child b pl rest alpha' beta bestScore' bestCol'
      end
  end.

(** The loop of a minimizing node; the opponent moves. *)
Fixpoint minLoop (child : Board -> Score -> Score -> Score * option Z)
    (b : Board) (opponent : Z) (cols : list Z) (alpha beta : Score)
    (bestScore : Score) (bestCol : option Z) : Score * option Z :=
  match cols with
  | [] => (bestScore, bestCol)
  | col :: rest =>
      match applyMove b col opponent with
      | None => minLoop child b opponent rest alpha beta bestScore bestCol
      | Some nextBoard =>
          let result := child nextBoard alpha beta in
          let better := score_lt (fst result) bestScore in
          let bestScore' := if better then fst result else bestScore in
          let bestCol' := if better then Some col else bestCol in
          let beta' := score_min beta bestScore' in
          if score_ge alpha beta' then (bestScore', bestCol')
          else minLoop child b opponent rest alpha beta' bestScore' bestCol'
      end
  end.

(** [minimax(board, depth, alpha, beta, maximizing, player)].  The depth is a
    count of plies: the search starts it at 4 and each level passes
    [depth - 1] after testing [depth === 0], so it is a natural number. *)
Fixpoint minimax (depth : nat) (b : Board) (alpha beta : Score)
    (maximizing : bool) (pl : Z) {struct depth} : Score * option Z :=
  let opponent := opponentOf pl in
  let winner := checkWinner b in
  let valid := getValidColumns b in
  if wonBy winner pl then (Fin (100000 + Z.of_nat depth), None)
  else if wonBy winner opponent then (Fin (-100000 - Z.of_nat depth), None)
  else
    match depth with
    | O => (Fin (scorePosition b pl), None)
    | S depth' =>
        if bool_decide (length valid = 0%nat)
        then (Fin (scorePosition b pl), None)
        else if maximizing
        then maxLoop (fun nb a be => minimax depth' nb a be false pl)
               b pl valid alpha beta NegInf None
        else minLoop (fun nb a be => minimax depth' nb a be true pl)
               b opponent valid alpha beta PosInf None
    end.

(** [col ?? pickRandom(valid)] *)
Definition orElse (x y : option Z) : option Z :=
  match x with Some _ => x | None => y end.

(** [chooseComputerMove(board, difficulty, computerPlayer)]; [draw] is the
    random number a call to [pickRandom] would consume. *)
Definition chooseComputerMove (draw : nat) (b : Board) (difficulty : Difficulty)
    (computerPlayer : Z) : option Z :=
  let valid := getValidColumns b in
  if bool_decide (length valid = 0%nat) then None
  else
    match difficulty with
    | easy => pickRandom draw valid
    | _ =>
        match findWinningMove b computerPlayer with
        | Some winningMove => Some winningMove
        | None =>
            let blockMove := findWinningMove b (opponentOf computerPlayer) in
            match difficulty with
            | medium => orElse blockMove (pickRandom draw valid)
            | _ =>
                match blockMove with
                | Some c => Some c
                | None =>
                    orElse (snd (minimax 4 b NegInf PosInf true computerPlayer))
                           (pickRandom draw valid)
                end
            end
        end
    end.

End Client.

(** ** Vocabulary of the specification *)

(** The shape of every board of the game: 6 rows of 7 cells. *)
Definition wfBoard (b : Board) : Prop :=
  length b = 6%nat /\ Forall (fun rw => length rw = 7%nat) b.

(** Four cells holding the mark [v], from [(r, c)] along the direction [d]. *)
Definition lineAt (b : Board) (v : Z) (r c : Z) (d : Z * Z) : Prop :=
  forall k, 0 <= k < 4 -> cell b (r + k * d.1) (c + k * d.2) = Some v.

(** A 4-in-a-row of the mark [v] somewhere on the board. *)
Definition fourOf (b : Board) (v : Z) : Prop :=
  exists r c d, d ∈ directions /\ lineAt b v r c d.

(** A 4-in-a-row of some player's mark. *)
Definition fourInARow (b : Board) : Prop :=
  exists v, v <> 0 /\ fourOf b v.

(** A 4-in-a-row that contains the cell [(row, col)]. *)
Definition fourThrough (b : Board) (row col : Z) : Prop :=
  exists v r c d j,
    v <> 0 /\ d ∈ directions /\ lineAt b v r c d /\
    0 <= j < 4 /\ row = r + j * d.1 /\ col = c + j * d.2.

(** The column has an empty cell. *)
Definition hasEmpty (b : Board) (col : Z) : Prop :=
  exists r, cell b r col = Some 0.

(** [row] is the lowest empty cell of the column: empty, and no empty cell
    at a larger row index. *)
Definition lowestEmpty (b : Board) (col row : Z) : Prop :=
  cell b row col = Some 0 /\ forall r, row < r -> cell b r col <> Some 0.

(** The top row has no empty cell. *)
Definition topRowFull (b : Board) : Prop :=
  forall c, cell b 0 c <> Some 0.

(** Gravity: below an occupied cell no cell of the column is empty. *)
Definition gravity (b : Board) : Prop :=
  forall r r' c v, cell b r c = Some v -> v <> 0 -> r < r' -> cell b r' c <> Some 0.

(** Marks on the board, and in one column. *)
Definition marksOfRow (rw : list Z) : nat :=
  length (List.filter (fun x => negb (x =? 0)) rw).

Definition marks (b : Board) : nat :=
  foldr (fun rw n => (marksOfRow rw + n)%nat) 0%nat b.

Definition columnMarks (b : Board) (col : Z) : nat :=
  length (List.filter
            (fun rw => match rw !! Z.to_nat col with
                       | Some x => negb (x =? 0)
                       | None => false
                       end)
            b).

(** Game states the server reaches from an empty board in [n] successful
    moves. *)
Inductive serverReach : nat -> GameState -> Prop :=
  | sreach_start st :
      board st = emptyBoard -> serverReach 0 st
  | sreach_move n st by_ col st' row :
      serverReach n st ->
      Server.applyMove st by_ col = Some (st', Server.Row row) ->
      serverReach (S n) st'.

(** Boards the client's [applyMove] reaches from an empty board in [n]
    successful moves of the players 1 and 2. *)
Inductive clientReach : nat -> Board -> Prop :=
  | creach_start : clientReach 0 emptyBoard
  | creach_move n b col pl b' :
      clientReach n b ->
      pl = 1 \/ pl = 2 ->
      Client.applyMove b col pl = Some b' ->
      clientReach (S n) b'.

(** A cell that the walk of [countDir] counts: on the board and equal to
    [val]. *)
Definition onWalk (b : Board) (val : option Z) (r c : Z) : Prop :=
  (0 <= r < height b /\ 0 <= c < width b) /\ cell b r c = val.

(** A column is full iff its topmost cell is not empty. *)
Definition fullIffTop (b : Board) : Prop :=
  forall col, 0 <= col < 7 -> (~ hasEmpty b col <-> cell b 0 col <> Some 0).

(** What the specification asks of a board after [n] moves. *)
Definition boardInvariant (n : nat) (b : Board) : Prop :=
  wfBoard b /\ gravity b /\ fullIffTop b /\ marks b = n /\
  forall col, (columnMarks b col <= 6)%nat.

(** *** The search, as the specification words it *)

Global Instance Score_eq_dec : EqDecision Score.
Proof. solve_decision. Defined.

(** The children of a maximizing node in scanning order, none pruned: each
    column with the score of its child, the child searched with the window
    the scan has reached by then. *)
Fixpoint maxScan (child : Board -> Score -> Score -> Score * option Z)
    (b : Board) (pl : Z) (cols : list Z) (alpha beta best : Score)
    : list (Z * Score) :=
  match cols with
  | [] => []
  | col :: rest =>
      match Client.applyMove b col pl with
      | None => maxScan child b pl rest alpha beta best
      | Some nb =>
          let s := fst (child nb alpha beta) in
          let best' := score_max best s in
          (col, s) :: maxScan child b pl rest (score_max alpha best') beta best'
      end
  end.

(** The same for a minimizing node. *)
Fixpoint minScan (child : Board -> Score -> Score -> Score * option Z)
    (b : Board) (pl : Z) (cols : list Z) (alpha beta best : Score)
    : list (Z * Score) :=
  match cols with
  | [] => []
  | col :: rest =>
      match Client.applyMove b col pl with
      | None => minScan child b pl rest alpha beta best
      | Some nb =>
          let s := fst (child nb alpha beta) in
          let best' := score_min best s in
          (col, s) :: minScan child b pl rest alpha (score_min beta best') best'
      end
  end.

(** The best score of a list of scanned children, from a starting value. *)
Definition bestMax (best : Score) (l : list (Z * Score)) : Score :=
  foldl (fun acc x => score_max acc x.2) best l.

Definition bestMin (best : Score) (l : list (Z * Score)) : Score :=
  foldl (fun acc x => score_min acc x.2) best l.

(** The first scanned column whose child has the score [s]. *)
Definition firstWith (s : Score) (l : list (Z * Score)) : option Z :=
  fst <$> List.find (fun x => bool_decide (x.2 = s)) l.

(** What a maximizing node answers, given its children [all] in scanning
    order: it scans a non-empty prefix, returns the best score of the prefix
    with the first column that reaches it, stops before the end only once
    [alpha >= beta], and never scans past such a point. *)
Definition prunedMax (alpha beta : Score) (all : list (Z * Score))
    (res : Score * option Z) : Prop :=
  exists n : nat,
    (0 < n <= length all)%nat /\
    res = (bestMax NegInf (take n all),
           firstWith (bestMax NegInf (take n all)) (take n all)) /\
    ((n < length all)%nat ->
     score_ge (score_max alpha (bestMax NegInf (take n all))) beta = true) /\
    (forall m : nat, (0 < m < n)%nat ->
     score_ge (score_max alpha (bestMax NegInf (take m all))) beta = false).

(** The same for a minimizing node, which lowers [beta]. *)
Definition prunedMin (alpha beta : Score) (all : list (Z * Score))
    (res : Score * option Z) : Prop :=
  exists n : nat,
    (0 < n <= length all)%nat /\
    res = (bestMin PosInf (take n all),
           firstWith (bestMin PosInf (take n all)) (take n all)) /\
    ((n < length all)%nat ->
     score_ge alpha (score_min beta (bestMin PosInf (take n all))) = true) /\
    (forall m : nat, (0 < m < n)%nat ->
     score_ge alpha (score_min beta (bestMin PosInf (take m all))) = false).

(** A score that is a number. *)
Definition finite (s : Score) : Prop := exists z, s = Fin z.

(** A decision procedure for [fourOf], used on concrete boards. *)
Definition lineAtb (b : Board) (v : Z) (r c : Z) (d : Z * Z) : bool :=
  forallb (fun k => bool_decide (cell b (r + k * d.1) (c + k * d.2) = Some v))
    [0; 1; 2; 3].

Definition fourOfb (b : Board) (v : Z) : bool :=
  existsb (fun r =>
    existsb (fun c => existsb (fun d => lineAtb b v r c d) directions)
      (range COLS))
    (range ROWS).

(** *** The heuristic evaluation, as the specification words it *)

(** How many cells of a window hold [x]. *)
Definition count (x : option Z) (w : list (option Z)) : nat :=
  length (List.filter (fun y => bool_decide (y = x)) w).

(** The value of one window for the evaluating player [pl]. *)
Definition windowValue (pl opp : Z) (w : list (option Z)) : Z :=
  let mine := count (Some pl) w in
  let theirs := count (Some opp) w in
  let empty := count (Some 0) w in
  (if bool_decide (mine = 4%nat) then 100
   else if bool_decide (mine = 3%nat /\ empty = 1%nat) then 5
   else if bool_decide (mine = 2%nat /\ empty = 2%nat) then 2
   else 0)
  + (if bool_decide (theirs = 3%nat /\ empty = 1%nat) then -4 else 0).

Definition inBoard (p : Z * Z) : bool :=
  (0 <=? p.1) && (p.1 <? ROWS) && (0 <=? p.2) && (p.2 <? COLS).

(** The four cells from [(r, c)] along [d]. *)
Definition windowFrom (r c : Z) (d : Z * Z) : list (Z * Z) :=
  map (fun k => (r + k * d.1, c + k * d.2)) [0; 1; 2; 3].

(** Every window of 4 consecutive cells of the board, along each axis. *)
Definition allWindows : list (list (Z * Z)) :=
  flat_map (fun d =>
    flat_map (fun r =>
      flat_map (fun c =>
        let w := windowFrom r c d in
        if forallb inBoard w then [w] else [])
        (range COLS))
      (range ROWS))
    directions.

Definition cellsOf (b : Board) (w : list (Z * Z)) : list (option Z) :=
  map (fun p => cell b p.1 p.2) w.

Definition sumZ (l : list Z) : Z := foldr Z.add 0 l.

(** Marks of [pl] in the center column. *)
Definition centerMarks (b : Board) (pl : Z) : Z :=
  Z.of_nat (length (List.filter
                      (fun r => bool_decide (cell b r (COLS / 2) = Some pl))
                      (range ROWS))).

(** The players' marks are 1 and 2; the opponent of one is the other. *)
Definition opponent (pl : Z) : Z := 3 - pl.

Definition heuristic (b : Board) (pl : Z) : Z :=
  sumZ (map (fun w => windowValue pl (opponent pl) (cellsOf b w)) allWindows)
  + 3 * centerMarks b pl.


(** The windows that the four loop nests of [scorePosition] build, each
    listed from the cell the loop starts at. *)
Definition winH (row col : Z) : list (Z * Z) :=
  [(row, col); (row, col + 1); (row, col + 2); (row, col + 3)].
Definition winV (col row : Z) : list (Z * Z) :=
  [(row, col); (row + 1, col); (row + 2, col); (row + 3, col)].
Definition winD (row col : Z) : list (Z * Z) :=
  [(row, col); (row + 1, col + 1); (row + 2, col + 2); (row + 3, col + 3)].
Definition winU (row col : Z) : list (Z * Z) :=
  [(row, col); (row - 1, col + 1); (row - 2, col + 2); (row - 3, col + 3)].

(** The windows visited by a loop nest. *)
Definition nest (lo1 hi1 lo2 hi2 : Z) (win : Z -> Z -> list (Z * Z))
    : list (list (Z * Z)) :=
  flat_map (fun i => map (win i) (Client.interval lo2 hi2)) (Client.interval lo1 hi1).

(** All windows in the order in which [scorePosition] visits them. *)
Definition loopWindows : list (list (Z * Z)) :=
  nest 0 ROWS 0 (COLS - 3) winH
  ++ nest 0 COLS 0 (ROWS - 3) winV
  ++ nest 0 (ROWS - 3) 0 (COLS - 3) winD
  ++ nest 3 ROWS 0 (COLS - 3) winU.

(** A window listed from its other end. *)
Definition upward (w : list (Z * Z)) : bool :=
  match w with
  | (r0, _) :: (r1, _) :: _ => r1 <? r0
  | _ => false
  end.

Definition oriented (w : list (Z * Z)) : list (Z * Z) :=
  if upward w then rev w else w.

(** Two lists with the same elements, each as often: a check by removal. *)
Fixpoint removeOne (x : list (Z * Z)) (l : list (list (Z * Z)))
    : option (list (list (Z * Z))) :=
  match l with
  | [] => None
  | y :: l' =>
      if bool_decide (x = y) then Some l'
      else match removeOne x l' with
           | Some l'' => Some (y :: l'')
           | None => None
           end
  end.

Fixpoint samePieces (l l' : list (list (Z * Z))) : bool :=
  match l with
  | [] => match l' with [] => true | _ => false end
  | x :: l0 =>
      match removeOne x l' with
      | Some l'' => samePieces l0 l''
      | None => false
      end
  end.

(** Sample positions used to exercise the statements below. *)
Definition threeInRow : Board :=
  [[0;0;0;0;0;0;0]; [0;0;0;0;0;0;0]; [0;0;0;0;0;0;0];
   [0;0;0;0;0;0;0]; [2;2;0;0;0;0;0]; [1;1;1;0;0;0;0]].

(** Three moves each, player 1 to move: column 3 completes the bottom row. *)
Definition oneToWin : Board :=
  [[0;0;0;0;0;0;0]; [0;0;0;0;0;0;0]; [0;0;0;0;0;0;0];
   [0;0;0;0;0;0;0]; [2;2;0;0;0;0;0]; [1;1;1;0;0;0;2]].

(** A finished position: player 2 owns column 0, player 1 has three in the
    bottom row. *)
Definition finishedBoard : Board :=
  [[0;0;0;0;0;0;0]; [0;0;0;0;0;0;0]; [2;0;0;0;0;0;0];
   [2;0;0;0;0;0;0]; [2;0;0;0;0;0;0]; [2;1;1;1;0;0;0]].

Definition sampleGame : GameState :=
  mkGameState "ABCDEF" playing threeInRow P1 None None
    (mkPlayers (Some (mkPresence true)) (Some (mkPresence true))).

(** A registry with one room, created by the connection [c1]. *)
Definition waitingGame : GameState :=
  mkGameState "ABCDEF" waiting emptyBoard P1 None None
    (mkPlayers (Some (mkPresence true)) (Some (mkPresence false))).

Definition sampleRoom : Server.Room :=
  Server.mkRoom "ABCDEF" ["c1"] waitingGame 1000 1000.

Definition sampleRegistry : Server.Registry :=
  Server.mkRegistry {["ABCDEF" := sampleRoom]}
    {["c1" := Server.mkClient (Some "ABCDEF") (Some P1)]}.

(** A room that the sweep drops: nobody attached, idle for longer than the
    time to live. *)
Definition expired (now : Z) (room : Server.Room) : bool :=
  negb (0 <? Z.of_nat (length (Server.clients room)))
  && (now - Server.lastActiveAt room >? Server.ROOM_TTL_MS).

(** ** The other branches of the server's message handler *)

Module Session.

Import Server.

(** [ClientToServer] of [shared/src/index.ts], after [parseClientMessage]. *)
Inductive ClientToServer :=
  | create_room
  | join_room (roomCode : string)
  | make_move (roomCode : string) (col : Z)
  | leave (roomCode : string).

(** [createRoom(code)]; [now] is its [Date.now()]. *)
Definition createRoom (code : string) (now : Z) : Room :=
  mkRoom code []
    (mkGameState code waiting emptyBoard P1 None None
       (mkPlayers (Some (mkPresence false)) (Some (mkPresence false))))
    now now.

(** [ensureRoom(code)]: the room map after the call, and the room. *)
Definition ensureRoom (rs : gmap string Room) (code : string) (now : Z)
    : gmap string Room * Room :=
  match rs !! code with
  | Some existing => (rs, existing)
  | None => let room := createRoom code now in (<[code := room]> rs, room)
  end.

(** [room.clients.delete(client)] *)
Definition setDelete (cid : string) (l : list string) : list string :=
  List.filter (fun c => negb (bool_decide (c = cid))) l.

(** The [create_room] branch.  [roomCode] is what [makeRoomCode()] drew,
    [created] the clock read inside [createRoom], [now] the one after it. *)
Definition createRoomMsg (reg : Registry) (cid : string) (roomCode : string)
    (created now : Z) : Registry * Sent :=
  let '(rs1, room) := ensureRoom (rooms reg) roomCode created in
  let cs' := <[cid := mkClient (Some roomCode) (Some P1)]> (conns reg) in
  let room1 := mkRoom (code room) (setAdd cid (clients room))
                 (state room) (createdAt room) now in
  let room2 := updatePresence cs' room1 in
  (mkRegistry (<[roomCode := room2]> rs1) cs',
   sendProtocol cid (room_created roomCode P1)
   ++ broadcast room2 (state_msg roomCode (state room2))).

(** The [make_move] branch; [None] only if [applyMove] ran out of fuel. *)
Definition makeMoveMsg (reg : Registry) (cid : string) (roomCode : string)
    (col : Z) (now : Z) : option (Registry * Sent) :=
  match rooms reg !! roomCode with
  | None =>
      Some (reg, sendProtocol cid
                   (error_msg (Some roomCode) ROOM_NOT_FOUND "Room not found"))
  | Some room =>
      let client := clientOf (conns reg) cid in
      match c_playerId client with
      | Some playerId =>
          if negb (bool_decide (c_roomCode client = Some roomCode))
          then Some (reg, sendProtocol cid
                            (error_msg (Some roomCode) NOT_IN_ROOM "Not in this room"))
          else
            let room1 := updatePresence (conns reg) room in
            match applyMove (state room1) playerId col with
            | None => None
            | Some (st', result) =>
                let room2 := mkRoom (code room1) (clients room1) st'
                               (createdAt room1) now in
                let reg' := mkRegistry (<[roomCode := room2]> (rooms reg))
                              (conns reg) in
                match result with
                | Error e =>
                    Some (reg', sendProtocol cid
                                  (error_msg (Some roomCode) INVALID_MOVE e))
                | Row _ =>
                    Some (reg', broadcast room2 (state_msg roomCode st'))
                end
            end
      | None => (* [!client.playerId] *)
          Some (reg, sendProtocol cid
                       (error_msg (Some roomCode) NOT_IN_ROOM "Not in this room"))
      end
  end.

(** The [leave] branch. *)
Definition leaveMsg (reg : Registry) (cid : string) (roomCode : string)
    : Registry * Sent :=
  match rooms reg !! roomCode with
  | None => (reg, [])
  | Some room =>
      if bool_decide (c_roomCode (clientOf (conns reg) cid) = Some roomCode)
      then
        let cs' := <[cid := mkClient None None]> (conns reg) in
        let room1 := mkRoom (code room) (setDelete cid (clients room))
                       (state room) (createdAt room) (lastActiveAt room) in
        let room2 := updatePresence cs' room1 in
        (mkRegistry (<[roomCode := room2]> (rooms reg)) cs',
         broadcast room2 (state_msg roomCode (state room2)))
      else (reg, [])
  end.

(** The [close] handler of a socket. *)
Definition closeConn (reg : Registry) (cid : string) (now : Z)
    : Registry * Sent :=
  match c_roomCode (clientOf (conns reg) cid) with
  | None => (reg, [])
  | Some rc =>
      match rooms reg !! rc with
      | None => (reg, [])
      | Some room =>
          let room1 := mkRoom (code room) (setDelete cid (clients room))
                         (state room) (createdAt room) (lastActiveAt room) in
          let room2 := updatePresence (conns reg) room1 in
          let room3 := mkRoom (code room2) (clients room2) (state room2)
                         (createdAt room2) now in
          (mkRegistry (<[rc := room3]> (rooms reg))
             (<[cid := mkClient None None]> (conns reg)),
           broadcast room3 (state_msg (code room3) (state room3)))
      end
  end.

(** [app.post("/api/rooms")]: the room map after the request. *)
Definition postRooms (rs : gmap string Room) (roomCode : string) (now : Z)
    : gmap string Room :=
  <[roomCode := createRoom roomCode now]> rs.

(** [makeRoomCode = customAlphabet("ABCDEFGHJKLMNPQRSTUVWXYZ23456789", 6)]:
    six characters of the alphabet; the random source enters as the six
    positions it selects. *)
Definition alphabet : list Ascii.ascii :=
  String.list_ascii_of_string "ABCDEFGHJKLMNPQRSTUVWXYZ23456789".

Definition pick (i : nat) : Ascii.ascii :=
  nth (i `mod` length alphabet) alphabet (Ascii.ascii_of_nat 65).

Definition makeRoomCode (i1 i2 i3 i4 i5 i6 : nat) : string :=
  String.string_of_list_ascii [pick i1; pick i2; pick i3; pick i4; pick i5; pick i6].

End Session.

(** [RoomCodeSchema]: a string of 4 to 12 characters, all of them in
    [A-Z] or [2-9]. *)
Definition roomCodeChar (c : Ascii.ascii) : bool :=
  let n := Ascii.nat_of_ascii c in
  ((65 <=? n) && (n <=? 90) || (50 <=? n) && (n <=? 57))%nat.

Definition RoomCodeSchema (s : string) : bool :=
  ((4 <=? String.length s) && (String.length s <=? 12))%nat
  && forallb roomCodeChar (String.list_ascii_of_string s).

(** ** The client's local game ([App]: local and computer play) *)

Module App.

Import Client.

Inductive GameMode := local | computer | online.

Inductive ColorChoice := red | yellow.

Global Instance GameMode_eq_dec : EqDecision GameMode.
Proof. solve_decision. Defined.

(** [type Move = { player; row; col }] *)
Record Move := mkMove { m_player : Z; m_row : Z; m_col : Z }.

(** The state of [App] that local play uses. *)
Record LocalGame := mkLocalGame {
  g_board : Board;
  currentPlayer : Z;
  g_winner : option Winner;
  isDraw : bool;
  history : list Move
}.

Definition humanPlayer (colorChoice : ColorChoice) : Z :=
  match colorChoice with red => 1 | yellow => 2 end.

Definition computerPlayer (colorChoice : ColorChoice) : Z :=
  if humanPlayer colorChoice =? 1 then 2 else 1.

(** The state after [resetLocalGame()]; [createBoard()] is the empty board. *)
Definition resetLocalGame : LocalGame := mkLocalGame emptyBoard 1 None false [].

(** [!!x] of a value that is an object or [null]. *)
Definition truthy {A} (x : option A) : bool :=
  match x with Some _ => true | None => false end.

(** [handleDrop(col)]: the local state after the click.  In online mode the
    handler only sends a message and sets no local state. *)
Definition handleDrop (mode : GameMode) (colorChoice : ColorChoice)
    (g : LocalGame) (col : Z) : LocalGame :=
  if bool_decide (mode = online) then g
  else if truthy (g_winner g) || isDraw g then g
  else if bool_decide (mode = computer)
          && (currentPlayer g =? computerPlayer colorChoice) then g
  else
    let row := getAvailableRow (g_board g) col in
    if row <? 0 then g
    else
      let nextBoard := setCell (g_board g) row col (currentPlayer g) in
      let nextWinner := checkWinner nextBoard in
      let nextDraw := negb (truthy nextWinner) && isBoardFull nextBoard in
      mkLocalGame nextBoard
        (if negb (truthy nextWinner) && negb nextDraw
         then (if currentPlayer g =? 1 then 2 else 1)
         else currentPlayer g)
        nextWinner nextDraw
        (history g ++ [mkMove (currentPlayer g) row col]).

(** The computer's turn: the effect and the timer callback it schedules;
    [draw] is the random number the move choice may consume. *)
Definition computerTurn (draw : nat) (mode : GameMode) (difficulty : Difficulty)
    (colorChoice : ColorChoice) (g : LocalGame) : LocalGame :=
  if negb (bool_decide (mode = computer)) then g
  else if truthy (g_winner g) || isDraw g then g
  else if negb (currentPlayer g =? computerPlayer colorChoice) then g
  else
    match chooseComputerMove draw (g_board g) difficulty (computerPlayer colorChoice) with
    | None => g
    | Some move =>
        let row := getAvailableRow (g_board g) move in
        if row <? 0 then g
        else
          match applyMove (g_board g) move (computerPlayer colorChoice) with
          | None => g
          | Some nextBoard =>
              let nextWinner := checkWinner nextBoard in
              let nextDraw := negb (truthy nextWinner) && isBoardFull nextBoard in
              mkLocalGame nextBoard (humanPlayer colorChoice) nextWinner nextDraw
                (history g ++ [mkMove (computerPlayer colorChoice) row move])
          end
    end.

(** [playerIdToPlayer] *)
Definition playerIdToPlayer (p : PlayerId) : Z :=
  match p with P1 => 1 | P2 => 2 end.

End App.

(** *** Vocabulary for the further properties *)

(** The search without pruning: every child of every node is searched, the
    best score wins, the first column that reaches it is kept. *)
Fixpoint plainMaxLoop (child : Board -> Score * option Z) (b : Board) (pl : Z)
    (cols : list Z) (best : Score) (bcol : option Z) : Score * option Z :=
  match cols with
  | [] => (best, bcol)
  | col :: rest =>
      match Client.applyMove b col pl with
      | None => plainMaxLoop child b pl rest best bcol
      | Some nb =>
          let s := fst (child nb) in
          if score_lt best s then plainMaxLoop child b pl rest s (Some col)
          else plainMaxLoop child b pl rest best bcol
      end
  end.

Fixpoint plainMinLoop (child : Board -> Score * option Z) (b : Board) (pl : Z)
    (cols : list Z) (best : Score) (bcol : option Z) : Score * option Z :=
  match cols with
  | [] => (best, bcol)
  | col :: rest =>
      match Client.applyMove b col pl with
      | None => plainMinLoop child b pl rest best bcol
      | Some nb =>
          let s := fst (child nb) in
          if score_lt s best then plainMinLoop child b pl rest s (Some col)
          else plainMinLoop child b pl rest best bcol
      end
  end.

Fixpoint plainMinimax (depth : nat) (b : Board) (maximizing : bool) (pl : Z)
    {struct depth} : Score * option Z :=
  let opponent := Client.opponentOf pl in
  let winner := Client.checkWinner b in
  let valid := Client.getValidColumns b in
  if Client.wonBy winner pl then (Fin (100000 + Z.of_nat depth), None)
  else if Client.wonBy winner opponent then (Fin (-100000 - Z.of_nat depth), None)
  else
    match depth with
    | O => (Fin (Client.scorePosition b pl), None)
    | S depth' =>
        if bool_decide (length valid = 0%nat)
        then (Fin (Client.scorePosition b pl), None)
        else if maximizing
        then plainMaxLoop (fun nb => plainMinimax depth' nb false pl)
               b pl valid NegInf None
        else plainMinLoop (fun nb => plainMinimax depth' nb true pl)
               b opponent valid PosInf None
    end.

(** [x <= y] on scores. *)
Definition score_le (x y : Score) : Prop := score_lt y x = false.

(** What a search with the window [(alpha, beta)] tells about the true value
    [x] when it returns [v]: a value inside the window is exact, a value at or
    below [alpha] is an upper bound, a value at or above [beta] a lower
    bound. *)
Definition bounds (alpha beta v x : Score) : Prop :=
  (score_le v alpha -> score_le x v) /\
  (score_lt alpha v = true -> score_lt v beta = true -> x = v) /\
  (score_le beta v -> score_le v x).

(** Cells of the board that hold [v]. *)
Definition cellsWith (v : Z) (b : Board) : nat :=
  foldr (fun rw n => (length (List.filter (fun x => Z.eqb x v) rw) + n)%nat) 0%nat b.

(** The states of a room's game: from the state of a new room, through
    presence updates and calls of [applyMove], whatever they return. *)
Inductive gameReach : GameState -> Prop :=
  | greach_new code now :
      gameReach (Server.state (Session.createRoom code now))
  | greach_presence cs room :
      gameReach (Server.state room) ->
      gameReach (Server.state (Server.updatePresence cs room))
  | greach_move st by_ col st' res :
      gameReach st ->
      Server.applyMove st by_ col = Some (st', res) ->
      gameReach st'.

(** What holds of every such state. *)
Definition gameInv (st : GameState) : Prop :=
  wfBoard (board st) /\ gravity (board st) /\
  (cellsWith 2 (board st) <= cellsWith 1 (board st) <= cellsWith 2 (board st) + 1)%nat /\
  (forall lm, lastMove st = Some lm ->
     cell (board st) (lm_row lm) (lm_col lm) = Some (Server.cellValue (lm_by lm))) /\
  (forall p, winner st = Some p -> status st = won) /\
  (status st = waiting -> board st = emptyBoard /\ lastMove st = None) /\
  (status st = playing ->
     ~ fourInARow (board st) /\
     cellsWith 1 (board st)
     = (cellsWith 2 (board st) + if decide (nextTurn st = P2) then 1 else 0)%nat) /\
  (status st = won ->
     exists lm, lastMove st = Some lm /\ winner st = Some (lm_by lm) /\
                nextTurn st = lm_by lm /\
                fourThrough (board st) (lm_row lm) (lm_col lm)) /\
  (status st = draw -> topRowFull (board st) /\ ~ fourInARow (board st)).

(** A registry whose rooms and connections agree: a room is filed under its
    code, lists each client once, every listed client points back to the room
    and holds a seat, and no seat is held twice. *)
Definition regInv (reg : Server.Registry) : Prop :=
  forall rc room, Server.rooms reg !! rc = Some room ->
    Server.code room = rc /\
    NoDup (Server.clients room) /\
    (forall cid, cid ∈ Server.clients room ->
       exists p, Server.conns reg !! cid
                 = Some (Server.mkClient (Some rc) (Some p))) /\
    NoDup (Server.takenSeats (Server.conns reg) room).

(** The registries the handlers reach from the empty one.  A room is created
    under a code not in use, by a connection that occupies no room. *)
Inductive regReach : Server.Registry -> Prop :=
  | rreach_empty : regReach (Server.mkRegistry ∅ ∅)
  | rreach_create reg cid rc created now :
      regReach reg ->
      Server.rooms reg !! rc = None ->
      Server.c_roomCode (Server.clientOf (Server.conns reg) cid) = None ->
      regReach (Session.createRoomMsg reg cid rc created now).1
  | rreach_join reg cid rc now :
      regReach reg -> regReach (Server.joinRoom reg cid rc now).1
  | rreach_move reg cid rc col now reg' out :
      regReach reg ->
      Session.makeMoveMsg reg cid rc col now = Some (reg', out) ->
      regReach reg'
  | rreach_leave reg cid rc :
      regReach reg -> regReach (Session.leaveMsg reg cid rc).1
  | rreach_close reg cid now :
      regReach reg -> regReach (Session.closeConn reg cid now).1
  | rreach_sweep reg now :
      regReach reg ->
      regReach (Server.mkRegistry (Server.sweep now (Server.rooms reg))
                  (Server.conns reg))
  | rreach_post reg rc now :
      regReach reg ->
      regReach (Server.mkRegistry (Session.postRooms (Server.rooms reg) rc now)
                  (Server.conns reg)).

(** The local games that play reaches after a reset, for a fixed mode,
    difficulty and colour. *)
Inductive localReach (mode : App.GameMode) (difficulty : Difficulty)
    (colorChoice : App.ColorChoice) : App.LocalGame -> Prop :=
  | lreach_reset : localReach mode difficulty colorChoice App.resetLocalGame
  | lreach_drop g col :
      localReach mode difficulty colorChoice g ->
      localReach mode difficulty colorChoice (App.handleDrop mode colorChoice g col)
  | lreach_computer g draw :
      localReach mode difficulty colorChoice g ->
      localReach mode difficulty colorChoice
        (App.computerTurn draw mode difficulty colorChoice g).

(** A local game whose parts agree with its board. *)
Definition localInv (g : App.LocalGame) : Prop :=
  wfBoard (App.g_board g) /\ gravity (App.g_board g) /\
  App.g_winner g = Client.checkWinner (App.g_board g) /\
  App.isDraw g = negb (App.truthy (App.g_winner g))
                 && Client.isBoardFull (App.g_board g) /\
  length (App.history g) = marks (App.g_board g) /\
  Forall (fun m => cell (App.g_board g) (App.m_row m) (App.m_col m)
                   = Some (App.m_player m) /\ (App.m_player m = 1 \/ App.m_player m = 2))
    (App.history g) /\
  (cellsWith 2 (App.g_board g) <= cellsWith 1 (App.g_board g)
   <= cellsWith 2 (App.g_board g) + 1)%nat /\
  (App.g_winner g = None -> App.isDraw g = false ->
   (App.currentPlayer g = 1 /\ cellsWith 1 (App.g_board g) = cellsWith 2 (App.g_board g)) \/
   (App.currentPlayer g = 2 /\
    cellsWith 1 (App.g_board g) = S (cellsWith 2 (App.g_board g)))).

(** The board seen in a mirror: every row reversed. *)
Definition mirror (b : Board) : Board := map (@rev Z) b.

(** The order of scores as relations, for reasoning by transitivity. *)
Inductive sLt (x y : Score) : Prop := sLt_intro : score_lt x y = true -> sLt x y.
Inductive sLe (x y : Score) : Prop := sLe_intro : score_lt y x = false -> sLe x y.

Module ScoreOrd <: EqLtLe.
Definition t := Score.
Definition eq := @Logic.eq Score.
Definition lt := sLt.
Definition le := sLe.
End ScoreOrd.

(** A local game and a room's game that show the same position. *)
Definition agrees (g : App.LocalGame) (st : GameState) : Prop :=
  App.g_board g = board st /\
  App.currentPlayer g = App.playerIdToPlayer (nextTurn st) /\
  (App.truthy (App.g_winner g) = true <-> status st = won) /\
  (App.isDraw g = true <-> status st = draw) /\
  status st <> waiting.

(** A game just started: the state of a new room once both seats are taken. *)
Definition twoSeats : gmap string Server.Client :=
  {[ "c1" := Server.mkClient (Some "ABCDEF") (Some P1);
     "c2" := Server.mkClient (Some "ABCDEF") (Some P2) ]}.

Definition startedGame : GameState :=
  Server.state
    (Server.updatePresence twoSeats
       (Server.mkRoom "ABCDEF" ["c1"; "c2"]
          (Server.state (Session.createRoom "ABCDEF" 1000)) 1000 1000)).

(** The registry [reg'] keeps every room of [reg], with the game as it was:
    same board, winner and last move, and the same status and turn unless a
    waiting game has started. *)
Definition keepsGames (reg reg' : Server.Registry) : Prop :=
  forall k room, Server.rooms reg !! k = Some room ->
    exists room', Server.rooms reg' !! k = Some room' /\
      board (Server.state room') = board (Server.state room) /\
      winner (Server.state room') = winner (Server.state room) /\
      lastMove (Server.state room') = lastMove (Server.state room) /\
      ((status (Server.state room') = status (Server.state room) /\
        nextTurn (Server.state room') = nextTurn (Server.state room)) \/
       (status (Server.state room) = waiting /\
        status (Server.state room') = playing /\
        nextTurn (Server.state room') = P1)).

(** A room with both seats taken: [c1] created it, [c2] joined. *)
Definition twoPlayerRegistry : Server.Registry :=
  (Server.joinRoom
     (Session.createRoomMsg (Server.mkRegistry ∅ ∅) "c1" "ABCDEF" 1000 1000).1
     "c2" "ABCDEF" 2000).1.

Definition twoPlayerRoom : Server.Room :=
  Server.mkRoom "ABCDEF" ["c1"; "c2"]
    (mkGameState "ABCDEF" playing emptyBoard P1 None None
       (mkPlayers (Some (mkPresence true)) (Some (mkPresence true))))
    1000 2000.

(** The mirror image of a cell, and a window listed from its left end. *)
Definition mirrorCell (p : Z * Z) : Z * Z := (p.1, COLS - 1 - p.2).

Definition rightToLeft (w : list (Z * Z)) : bool :=
  match w with
  | (_, c0) :: (_, c1) :: _ => c1 <? c0
  | _ => false
  end.

Definition leftFirst (w : list (Z * Z)) : list (Z * Z) :=
  if rightToLeft w then rev w else w.

(** A game in computer mode whose first computer move was made at Easy: the
    human (red) plays column 0, the computer answers column 6, the human
    plays column 0 again. *)
Definition easyOpening : App.LocalGame :=
  App.handleDrop App.computer App.red
    (App.computerTurn 6 App.computer easy App.red
       (App.handleDrop App.computer App.red App.resetLocalGame 0))
    0.

(** * Properties *)

(** ** Reading and writing cells *)

Lemma wfBoard_height b : wfBoard b -> height b = 6.
Proof. intros [H _]. unfold height. lia. Qed.

Lemma wfBoard_width b : wfBoard b -> width b = 7.
Proof.
  intros [H1 H2]. destruct b as [|rw b]; [discriminate|].
  simpl. inversion H2; subst. lia.
Qed.

Lemma cell_Some_nonneg b r c v : cell b r c = Some v -> 0 <= r /\ 0 <= c.
Proof.
  unfold cell. destruct (r <? 0) eqn:Hr; [discriminate|].
  destruct (c <? 0) eqn:Hc; [discriminate|]. lia.
Qed.

Lemma cell_Some_height b r c v : cell b r c = Some v -> 0 <= r < height b.
Proof.
  intros H. pose proof (cell_Some_nonneg _ _ _ _ H) as [Hr Hc].
  unfold cell in H.
  destruct (r <? 0) eqn:E1; [lia|]. destruct (c <? 0) eqn:E2; [lia|].
  cbn [orb] in H. destruct (b !! Z.to_nat r) as [rw|] eqn:E; [|discriminate].
  apply lookup_lt_Some in E. unfold height. lia.
Qed.

Lemma cell_Some_inb b r c v :
  wfBoard b -> cell b r c = Some v -> 0 <= r < 6 /\ 0 <= c < 7.
Proof.
  intros Hwf H. pose proof (cell_Some_height _ _ _ _ H) as Hh.
  rewrite (wfBoard_height _ Hwf) in Hh.
  pose proof (cell_Some_nonneg _ _ _ _ H) as [Hr Hc].
  split; [lia|]. unfold cell in H.
  destruct (r <? 0) eqn:E1; [lia|]. destruct (c <? 0) eqn:E2; [lia|].
  cbn [orb] in H. destruct (b !! Z.to_nat r) as [rw|] eqn:E; [|discriminate].
  destruct Hwf as [_ Hall]. rewrite Forall_lookup in Hall.
  specialize (Hall _ _ E). apply lookup_lt_Some in H. lia.
Qed.

Lemma cell_inb_Some b r c :
  wfBoard b -> 0 <= r < 6 -> 0 <= c < 7 -> exists v, cell b r c = Some v.
Proof.
  intros [Hlen Hall] Hr Hc. unfold cell.
  destruct (r <? 0) eqn:E1; [lia|]. destruct (c <? 0) eqn:E2; [lia|].
  cbn [orb]. destruct (lookup_lt_is_Some_2 b (Z.to_nat r)) as [rw Hrw]; [lia|].
  rewrite Hrw. rewrite Forall_lookup in Hall. specialize (Hall _ _ Hrw).
  destruct (lookup_lt_is_Some_2 rw (Z.to_nat c)) as [v Hv]; [lia|]. eauto.
Qed.

Lemma cell_setCell_eq b r c v0 v :
  cell b r c = Some v0 -> cell (setCell b r c v) r c = Some v.
Proof.
  intros H. pose proof (cell_Some_nonneg _ _ _ _ H) as [Hr Hc].
  unfold cell in *. unfold setCell.
  destruct (r <? 0) eqn:E1; [lia|]. destruct (c <? 0) eqn:E2; [lia|].
  cbn [orb] in *. destruct (b !! Z.to_nat r) as [rw|] eqn:E; [|discriminate].
  rewrite list_lookup_insert_eq by (eapply lookup_lt_Some; eauto).
  rewrite list_lookup_insert_eq by (eapply lookup_lt_Some; eauto). done.
Qed.

Lemma cell_setCell_ne b r c v r' c' :
  0 <= r -> 0 <= c -> (r', c') <> (r, c) ->
  cell (setCell b r c v) r' c' = cell b r' c'.
Proof.
  intros Hr Hc Hne. unfold cell, setCell.
  destruct (r' <? 0) eqn:E1; [done|]. destruct (c' <? 0) eqn:E2; [done|].
  cbn [orb]. destruct (b !! Z.to_nat r) as [rw|] eqn:E; [|done].
  destruct (decide (Z.to_nat r' = Z.to_nat r)) as [Heq|Hn].
  - rewrite Heq. rewrite list_lookup_insert_eq by (eapply lookup_lt_Some; eauto).
    rewrite E. apply list_lookup_insert_ne.
    intros Hcc. apply Hne. f_equal; lia.
  - rewrite list_lookup_insert_ne by done. done.
Qed.

Lemma wfBoard_setCell b r c v : wfBoard b -> wfBoard (setCell b r c v).
Proof.
  intros [Hlen Hall]. unfold setCell.
  destruct (b !! Z.to_nat r) as [rw|] eqn:E; [|by split].
  split.
  - by rewrite length_insert.
  - apply Forall_insert; [done|]. rewrite length_insert.
    rewrite Forall_lookup in Hall. eauto.
Qed.

Lemma wfBoard_emptyBoard : wfBoard emptyBoard.
Proof. split; [reflexivity|]. repeat constructor. Qed.

(** ** The walks of [checkWin] end *)

Lemma countLoop_rows fuel : forall b r c dr dc val cnt,
  dr = 1 \/ dr = -1 ->
  (0 < fuel)%nat ->
  (0 <= r < height b ->
   (dr = 1 -> height b - r < Z.of_nat fuel) /\
   (dr = -1 -> r + 1 < Z.of_nat fuel)) ->
  is_Some (Server.countLoop fuel b r c dr dc val cnt).
Proof.
  induction fuel as [|fuel IH]; intros b r c dr dc val cnt Hd Hpos Hm; [lia|].
  simpl. destruct (_ && _) eqn:E; [|eauto].
  repeat (apply andb_prop in E as [E ?]).
  apply IH; [done|lia|]. intros Hr. split; intros; lia.
Qed.

Lemma countLoop_cols fuel : forall b r c dr dc val cnt,
  dc = 1 \/ dc = -1 ->
  (0 < fuel)%nat ->
  (0 <= c < width b ->
   (dc = 1 -> width b - c < Z.of_nat fuel) /\
   (dc = -1 -> c + 1 < Z.of_nat fuel)) ->
  is_Some (Server.countLoop fuel b r c dr dc val cnt).
Proof.
  induction fuel as [|fuel IH]; intros b r c dr dc val cnt Hd Hpos Hm; [lia|].
  simpl. destruct (_ && _) eqn:E; [|eauto].
  repeat (apply andb_prop in E as [E ?]).
  apply IH; [done|lia|]. intros Hr. split; intros; lia.
Qed.

Lemma width_nonneg b : 0 <= width b.
Proof. unfold width. destruct b; lia. Qed.

Lemma countDir_total b row col dr dc val :
  dr = 1 \/ dr = -1 \/ dc = 1 \/ dc = -1 ->
  is_Some (Server.countDir (Server.walkFuel b) b row col dr dc val).
Proof.
  intros Hd. unfold Server.countDir, Server.walkFuel.
  pose proof (width_nonneg b) as Hw.
  destruct (decide (dr = 1 \/ dr = -1)) as [Hr|Hr].
  - apply countLoop_rows; [done|lia|]. unfold height. intros. split; intros; lia.
  - apply countLoop_cols; [lia|lia|]. unfold height. intros. split; intros; lia.
Qed.

Lemma checkWin_total b row col : is_Some (Server.checkWin b row col).
Proof.
  unfold Server.checkWin. case_bool_decide; [eauto|].
  unfold directions. simpl.
  repeat match goal with
  | |- context [Server.countDir ?f ?b ?r ?c ?dr ?dc ?v] =>
      let H := fresh in
      destruct (countDir_total b r c dr dc v) as [? H]; [lia|];
      rewrite H; clear H
  end.
  repeat (destruct (_ >=? _); [eauto|]). eauto.
Qed.

(** ** What the anchored check counts *)

Lemma countLoop_spec fuel : forall b r c dr dc val cnt n,
  Server.countLoop fuel b r c dr dc val cnt = Some n ->
  exists m, 0 <= m /\ n = cnt + m /\
    (forall k, 0 <= k < m -> onWalk b val (r + k * dr) (c + k * dc)) /\
    ~ onWalk b val (r + m * dr) (c + m * dc).
Proof.
  induction fuel as [|fuel IH]; intros b r c dr dc val cnt n H; [discriminate|].
  simpl in H. destruct (_ && _) eqn:E.
  - apply IH in H as (m & Hm & -> & Hall & Hstop).
    exists (m + 1). split; [lia|]. split; [lia|]. split.
    + intros k Hk. destruct (decide (k = 0)) as [->|Hk0].
      * repeat (apply andb_prop in E as [E ?]).
        apply bool_decide_eq_true in H.
        replace (r + 0 * dr) with r by lia. replace (c + 0 * dc) with c by lia.
        unfold onWalk. split; [lia|done].
      * replace (r + k * dr) with (r + dr + (k - 1) * dr) by lia.
        replace (c + k * dc) with (c + dc + (k - 1) * dc) by lia.
        apply Hall. lia.
    + replace (r + (m + 1) * dr) with (r + dr + m * dr) by lia.
      replace (c + (m + 1) * dc) with (c + dc + m * dc) by lia. done.
  - inversion H; subst. exists 0. split; [lia|]. split; [lia|]. split; [lia|].
    replace (r + 0 * dr) with r by lia. replace (c + 0 * dc) with c by lia.
    intros [[Hr Hc] Hv]. apply andb_false_iff in E as [E|E].
    + repeat (apply andb_false_iff in E as [E|E]); lia.
    + apply bool_decide_eq_false in E. done.
Qed.

Lemma onWalk_wf b v r c :
  wfBoard b -> (onWalk b (Some v) r c <-> cell b r c = Some v).
Proof.
  intros Hwf. unfold onWalk. split; [tauto|]. intros H. split; [|done].
  rewrite (wfBoard_height _ Hwf), (wfBoard_width _ Hwf).
  by apply (cell_Some_inb b r c v).
Qed.

(** [countDir] returns the length of the run of [v] next to the anchor. *)
Lemma countDir_run fuel b row col dr dc v n :
  wfBoard b ->
  Server.countDir fuel b row col dr dc (Some v) = Some n ->
  0 <= n /\
  (forall k, 1 <= k <= n -> cell b (row + k * dr) (col + k * dc) = Some v) /\
  cell b (row + (n + 1) * dr) (col + (n + 1) * dc) <> Some v.
Proof.
  intros Hwf H. unfold Server.countDir in H.
  apply countLoop_spec in H as (m & Hm & -> & Hall & Hstop).
  split; [lia|]. split.
  - intros k Hk. apply (onWalk_wf _ _ _ _ Hwf).
    replace (row + k * dr) with (row + dr + (k - 1) * dr) by lia.
    replace (col + k * dc) with (col + dc + (k - 1) * dc) by lia.
    apply Hall. lia.
  - intros Hc. apply Hstop. apply (onWalk_wf _ _ _ _ Hwf).
    replace (row + dr + m * dr) with (row + (0 + m + 1) * dr) by lia.
    replace (col + dc + m * dc) with (col + (0 + m + 1) * dc) by lia. done.
Qed.

Lemma checkWinDirs_true fuel b row col val dirs :
  Server.checkWinDirs fuel b row col val dirs = Some true ->
  exists d n1 n2, d ∈ dirs /\
    Server.countDir fuel b row col d.1 d.2 val = Some n1 /\
    Server.countDir fuel b row col (- d.1) (- d.2) val = Some n2 /\
    4 <= 1 + n1 + n2.
Proof.
  induction dirs as [|[dr dc] dirs IH]; simpl; [discriminate|].
  destruct (Server.countDir fuel b row col dr dc val) as [n1|] eqn:E1; [|discriminate].
  destruct (Server.countDir fuel b row col (- dr) (- dc) val) as [n2|] eqn:E2;
    [|discriminate].
  destruct (1 + n1 + n2 >=? 4) eqn:E.
  - intros _. exists (dr, dc), n1, n2. split; [left|]. simpl. repeat split; try done. lia.
  - intros H. destruct (IH H) as (d & m1 & m2 & Hd & ?). exists d, m1, m2.
    split; [by right|done].
Qed.

Lemma checkWinDirs_false fuel b row col val dirs :
  Server.checkWinDirs fuel b row col val dirs = Some false ->
  forall d, d ∈ dirs -> exists n1 n2,
    Server.countDir fuel b row col d.1 d.2 val = Some n1 /\
    Server.countDir fuel b row col (- d.1) (- d.2) val = Some n2 /\
    1 + n1 + n2 < 4.
Proof.
  induction dirs as [|[dr dc] dirs IH]; simpl; intros H d Hd.
  - by apply elem_of_nil in Hd.
  - destruct (Server.countDir fuel b row col dr dc val) as [n1|] eqn:E1; [|discriminate].
    destruct (Server.countDir fuel b row col (- dr) (- dc) val) as [n2|] eqn:E2;
      [|discriminate].
    destruct (1 + n1 + n2 >=? 4) eqn:E; [discriminate|].
    apply elem_of_cons in Hd as [->|Hd].
    + exists n1, n2. simpl. repeat split; try done. lia.
    + by apply IH.
Qed.

(** The anchored check answers [true] exactly for a 4-in-a-row through the
    anchor. *)
Lemma checkWin_fourThrough b row col v :
  wfBoard b -> cell b row col = Some v ->
  (Server.checkWin b row col = Some true <-> fourThrough b row col).
Proof.
  intros Hwf Hv. unfold Server.checkWin. rewrite Hv. split.
  - case_bool_decide as Hz; [discriminate|]. intros H.
    apply checkWinDirs_true in H as ([dr dc] & n1 & n2 & Hd & H1 & H2 & Hn).
    cbn [fst snd] in *.
    apply (countDir_run _ _ _ _ _ _ _ _ Hwf) in H1 as (Hn1 & Hf & _).
    apply (countDir_run _ _ _ _ _ _ _ _ Hwf) in H2 as (Hn2 & Hb & _).
    set (j := Z.min n2 3).
    exists v, (row - j * dr), (col - j * dc), (dr, dc), j. cbn [fst snd].
    split; [congruence|]. split; [done|]. split; [|lia].
    intros k Hk. cbn [fst snd].
    replace (row - j * dr + k * dr) with (row + (k - j) * dr) by lia.
    replace (col - j * dc + k * dc) with (col + (k - j) * dc) by lia.
    destruct (Z.lt_trichotomy (k - j) 0) as [Hlt|[Heq|Hgt]].
    + replace (row + (k - j) * dr) with (row + (j - k) * - dr) by lia.
      replace (col + (k - j) * dc) with (col + (j - k) * - dc) by lia.
      apply Hb. lia.
    + rewrite Heq. replace (row + 0 * dr) with row by lia.
      replace (col + 0 * dc) with col by lia. done.
    + apply Hf. lia.
  - intros (v' & r & c & [dr dc] & j & Hv' & Hd & Hline & Hj & -> & ->).
    cbn [fst snd] in *. assert (v' = v) as ->.
    { specialize (Hline j Hj). cbn [fst snd] in Hline. congruence. }
    case_bool_decide as Hz; [congruence|].
    destruct (Server.checkWinDirs _ _ _ _ _ _) as [[|]|] eqn:E; [done| |].
    + exfalso.
      destruct (checkWinDirs_false _ _ _ _ _ _ E _ Hd) as (n1 & n2 & H1 & H2 & Hn).
      cbn [fst snd] in *.
      apply (countDir_run _ _ _ _ _ _ _ _ Hwf) in H1 as (Hn1 & _ & Hf).
      apply (countDir_run _ _ _ _ _ _ _ _ Hwf) in H2 as (Hn2 & _ & Hb).
      destruct (decide (n1 < 3 - j)) as [Hlt|Hge].
      * apply Hf. specialize (Hline (j + n1 + 1)). cbn [fst snd] in Hline.
        replace (r + j * dr + (n1 + 1) * dr) with (r + (j + n1 + 1) * dr) by lia.
        replace (c + j * dc + (n1 + 1) * dc) with (c + (j + n1 + 1) * dc) by lia.
        apply Hline. lia.
      * apply Hb. specialize (Hline (j - n2 - 1)). cbn [fst snd] in Hline.
        replace (r + j * dr + (n2 + 1) * - dr) with (r + (j - n2 - 1) * dr) by lia.
        replace (c + j * dc + (n2 + 1) * - dc) with (c + (j - n2 - 1) * dc) by lia.
        apply Hline. lia.
    + exfalso. pose proof (checkWin_total b (r + j * dr) (c + j * dc)) as [w Hw].
      unfold Server.checkWin in Hw. rewrite Hv in Hw.
      rewrite bool_decide_eq_false_2 in Hw by done. congruence.
Qed.

(** ** The server's [applyMove] *)

Lemma cell_top top (b : Board) c :
  cell (top :: b) 0 c = if c <? 0 then None else top !! Z.to_nat c.
Proof. unfold cell. by destruct (c <? 0). Qed.

Lemma checkDraw_topRowFull b : Server.checkDraw b = true <-> topRowFull b.
Proof.
  unfold topRowFull. destruct b as [|top b].
  - split; [|done]. intros _ c. unfold cell. by destruct (_ || _).
  - unfold Server.checkDraw. rewrite forallb_forall. split.
    + intros H c. rewrite cell_top. destruct (c <? 0); [done|]. intros Hc.
      apply list_elem_of_lookup_2, list_elem_of_In in Hc.
      specialize (H _ Hc). done.
    + intros H x Hx. apply list_elem_of_In, list_elem_of_lookup in Hx as [i Hi].
      specialize (H (Z.of_nat i)). rewrite cell_top in H.
      destruct (Z.of_nat i <? 0) eqn:E; [apply Z.ltb_lt in E; lia|].
      rewrite Nat2Z.id in H.
      destruct (x =? 0) eqn:Ex; [|done]. apply Z.eqb_eq in Ex. congruence.
Qed.

Lemma dropLoop_full st by_ col n :
  (forall r, 0 <= r < Z.of_nat n -> cell (board st) r col <> Some 0) ->
  Server.dropLoop st by_ col n = Some (st, Server.Error "Column is full").
Proof.
  induction n as [|n IH]; intros H; simpl; [done|].
  rewrite bool_decide_eq_false_2 by (apply H; lia).
  apply IH. intros r Hr. apply H. lia.
Qed.

Lemma dropLoop_place st by_ col n :
  (exists r, 0 <= r < Z.of_nat n /\ cell (board st) r col = Some 0) ->
  exists row, 0 <= row < Z.of_nat n /\
    cell (board st) row col = Some 0 /\
    (forall r, row < r < Z.of_nat n -> cell (board st) r col <> Some 0) /\
    Server.dropLoop st by_ col n = Server.place st by_ col row.
Proof.
  induction n as [|n IH]; intros (r & Hr & Hc); [lia|]. simpl.
  case_bool_decide as Hn.
  - exists (Z.of_nat n). split; [lia|]. split; [done|]. split; [|done].
    intros; lia.
  - destruct IH as (row & Hrow & Hrc & Hlow & Heq).
    { exists r. split; [|done]. destruct (decide (r = Z.of_nat n)); [|lia].
      congruence. }
    exists row. split; [lia|]. split; [done|]. split; [|done].
    intros r' Hr'. destruct (decide (r' = Z.of_nat n)) as [->|]; [done|].
    apply Hlow. lia.
Qed.

Lemma cellValue_nonzero by_ : Server.cellValue by_ <> 0.
Proof. by destruct by_. Qed.

(** The three ways a placement ends. *)
Lemma place_spec st by_ col row :
  exists st', Server.place st by_ col row = Some (st', Server.Row row) /\
    board st' = setCell (board st) row col (Server.cellValue by_) /\
    lastMove st' = Some (mkLastMove col row by_) /\
    roomCode st' = roomCode st /\ players st' = players st /\
    ((Server.checkWin (board st') row col = Some true /\
      status st' = won /\ winner st' = Some by_ /\ nextTurn st' = nextTurn st) \/
     (Server.checkWin (board st') row col = Some false /\
      Server.checkDraw (board st') = true /\
      status st' = draw /\ winner st' = winner st /\ nextTurn st' = nextTurn st) \/
     (Server.checkWin (board st') row col = Some false /\
      Server.checkDraw (board st') = false /\
      status st' = status st /\ winner st' = winner st /\
      nextTurn st' = Server.otherPlayer by_)).
Proof.
  unfold Server.place.
  destruct (checkWin_total (setCell (board st) row col (Server.cellValue by_)) row col)
    as [w Hw].
  rewrite Hw. destruct w.
  - eexists. split; [done|]. simpl. repeat split; try done. left. done.
  - destruct (Server.checkDraw _) eqn:Ed.
    + eexists. split; [done|]. simpl. repeat split; try done. right. left. done.
    + eexists. split; [done|]. simpl. repeat split; try done. right. right. done.
Qed.

Lemma dropLoop_error st by_ col n st' e :
  Server.dropLoop st by_ col n = Some (st', Server.Error e) -> st' = st.
Proof.
  induction n as [|n IH]; simpl; [congruence|].
  case_bool_decide; [|done].
  destruct (place_spec st by_ col (Z.of_nat n)) as (st'' & -> & _). congruence.
Qed.

(** [applyMove] always returns: no walk of [checkWin] runs out of fuel. *)
Lemma applyMove_returns st by_ col : is_Some (Server.applyMove st by_ col).
Proof.
  unfold Server.applyMove.
  destruct (negb _); [eauto|]. destruct (negb _); [eauto|].
  destruct (_ || _); [eauto|].
  induction (length (board st)) as [|n IH]; simpl; [eauto|].
  case_bool_decide; [|done].
  destruct (place_spec st by_ col (Z.of_nat n)) as (st' & -> & _). eauto.
Qed.

Lemma hasEmpty_rows b col :
  hasEmpty b col <->
  exists r, 0 <= r < Z.of_nat (length b) /\ cell b r col = Some 0.
Proof.
  split.
  - intros [r Hr]. exists r. split; [|done]. by apply cell_Some_height in Hr.
  - intros (r & _ & Hr). by exists r.
Qed.

Lemma wfBoard_threeInRow : wfBoard threeInRow.
Proof. split; [reflexivity|]. repeat constructor. Qed.



(** C2. [applyMove] fails exactly in four cases, tested in this order: the
    Game is not Playing; else it is not the player's turn; else the column is
    outside [0,7); else the column has no empty cell.  Each failure carries
    its own error and leaves the Game as it was; in every other case the
    move succeeds. *)
Theorem applyMove_failure st by_ col :
  (status st <> playing ->
   Server.applyMove st by_ col
   = Some (st, Server.Error "Game is not in playing state")) /\
  (status st = playing -> by_ <> nextTurn st ->
   Server.applyMove st by_ col = Some (st, Server.Error "Not your turn")) /\
  (status st = playing -> by_ = nextTurn st -> ~ 0 <= col < 7 ->
   Server.applyMove st by_ col = Some (st, Server.Error "Invalid column")) /\
  (status st = playing -> by_ = nextTurn st -> 0 <= col < 7 ->
   ~ hasEmpty (board st) col ->
   Server.applyMove st by_ col = Some (st, Server.Error "Column is full")) /\
  (status st = playing -> by_ = nextTurn st -> 0 <= col < 7 ->
   hasEmpty (board st) col ->
   exists row st', Server.applyMove st by_ col = Some (st', Server.Row row)) /\
  (forall st' e,
   Server.applyMove st by_ col = Some (st', Server.Error e) -> st' = st).
Proof.
  assert (H1 : status st <> playing ->
    Server.applyMove st by_ col
    = Some (st, Server.Error "Game is not in playing state")).
  { intros H. unfold Server.applyMove. by rewrite bool_decide_eq_false_2. }
  assert (H2 : status st = playing -> by_ <> nextTurn st ->
    Server.applyMove st by_ col = Some (st, Server.Error "Not your turn")).
  { intros Hs H. unfold Server.applyMove.
    rewrite (bool_decide_eq_true_2 _ Hs). cbn [negb].
    by rewrite bool_decide_eq_false_2. }
  assert (Hpre : status st = playing -> by_ = nextTurn st ->
    Server.applyMove st by_ col
    = if (col <? 0) || (col >? 6) then Some (st, Server.Error "Invalid column")
      else Server.dropLoop st by_ col (length (board st))).
  { intros Hs Hb. unfold Server.applyMove.
    by rewrite (bool_decide_eq_true_2 _ Hs), bool_decide_eq_true_2. }
  assert (H3 : status st = playing -> by_ = nextTurn st -> ~ 0 <= col < 7 ->
    Server.applyMove st by_ col = Some (st, Server.Error "Invalid column")).
  { intros Hs Hb Hc. rewrite Hpre by done.
    destruct ((col <? 0) || (col >? 6)) eqn:E; [done|].
    apply orb_false_elim in E as [E1 E2]. lia. }
  assert (H4 : status st = playing -> by_ = nextTurn st -> 0 <= col < 7 ->
    ~ hasEmpty (board st) col ->
    Server.applyMove st by_ col = Some (st, Server.Error "Column is full")).
  { intros Hs Hb Hc Hfull. rewrite Hpre by done.
    destruct ((col <? 0) || (col >? 6)) eqn:E.
    { apply orb_prop in E as [E|E]; lia. }
    apply dropLoop_full. intros r _ Hr. apply Hfull. by exists r. }
  assert (H5 : status st = playing -> by_ = nextTurn st -> 0 <= col < 7 ->
    hasEmpty (board st) col ->
    exists row st', Server.applyMove st by_ col = Some (st', Server.Row row)).
  { intros Hs Hb Hc He. rewrite Hpre by done.
    destruct ((col <? 0) || (col >? 6)) eqn:E.
    { apply orb_prop in E as [E|E]; lia. }
    apply hasEmpty_rows in He.
    destruct (dropLoop_place st by_ col _ He) as (row & _ & _ & _ & ->).
    destruct (place_spec st by_ col row) as (st' & Hp & _). eauto. }
  do 5 (split; [done|]).
  intros st' e Hres.
  destruct (decide (status st = playing)) as [Hs|Hs];
    [|rewrite H1 in Hres by done; congruence].
  destruct (decide (by_ = nextTurn st)) as [Hb|Hb];
    [|rewrite H2 in Hres by done; congruence].
  destruct (decide (0 <= col < 7)) as [Hc|Hc];
    [|rewrite H3 in Hres by done; congruence].
  rewrite Hpre in Hres by done.
  destruct ((col <? 0) || (col >? 6)); [congruence|].
  by eapply dropLoop_error.
Qed.

Lemma applyMove_failure_witness :
  Server.applyMove sampleGame P2 3 = Some (sampleGame, Server.Error "Not your turn").
Proof.
  apply (proj1 (proj2 (applyMove_failure sampleGame P2 3))).
  - reflexivity.
  - discriminate.
Defined.

(** ** The full-board scan *)

Lemma firstSome_Some {A B} (f : A -> option B) l y :
  firstSome f l = Some y -> exists x, x ∈ l /\ f x = Some y.
Proof.
  induction l as [|x l IH]; simpl; [discriminate|].
  destruct (f x) as [y'|] eqn:E.
  - intros [= ->]. exists x. split; [left|done].
  - intros H. destruct (IH H) as (x' & Hx & Hf). exists x'. split; [by right|done].
Qed.

Lemma firstSome_None {A B} (f : A -> option B) l :
  firstSome f l = None <-> forall x, x ∈ l -> f x = None.
Proof.
  induction l as [|x l IH]; simpl.
  - split; [|done]. intros _ x Hx. by apply elem_of_nil in Hx.
  - destruct (f x) as [y|] eqn:E.
    + split; [discriminate|]. intros H. specialize (H x (list_elem_of_here _ _)).
      congruence.
    + rewrite IH. split.
      * intros H x' Hx'. apply elem_of_cons in Hx' as [->|Hx']; [done|by apply H].
      * intros H x' Hx'. apply H. by right.
Qed.

Lemma elem_of_range x n : x ∈ range n <-> 0 <= x < n.
Proof.
  unfold range. rewrite list_elem_of_In, in_map_iff. split.
  - intros (i & <- & Hi). apply in_seq in Hi. lia.
  - intros Hx. exists (Z.to_nat x). split; [lia|]. apply in_seq. lia.
Qed.

(** The cells [k] of [ks] that the inner loop of [checkWinner] accepts. *)
Lemma extend_length b row col dr dc pl ks : forall cs,
  length (Client.extend b row col dr dc pl ks cs) = (length cs + length ks)%nat <->
  Forall (fun k =>
    (0 <= row + dr * k < ROWS /\ 0 <= col + dc * k < COLS) /\
    cell b (row + dr * k) (col + dc * k) = pl) ks.
Proof.
  induction ks as [|k ks IH]; intros cs; simpl.
  - split; [constructor|lia].
  - destruct (_ || _) eqn:E.
    { split; [lia|]. intros H. inversion H as [|? ? [Hin _] _]; subst.
      unfold ROWS, COLS in *.
      rewrite !orb_true_iff, !Z.ltb_lt, !Z.geb_le in E. lia. }
    rewrite !orb_false_iff, !Z.ltb_ge, !Z.geb_leb, !Z.leb_gt in E.
    specialize (IH (cs ++ [(row + dr * k, col + dc * k)])).
    rewrite length_app in IH. simpl in IH.
    case_bool_decide as Hc; cbn [negb].
    + split.
      * intros H. constructor.
        -- split; [|done]. unfold ROWS, COLS in *. lia.
        -- apply IH. lia.
      * intros H. inversion H as [|? ? _ Hks]; subst. apply IH in Hks. lia.
    + split; [lia|]. intros H. inversion H as [|? ? [_ Hv] _]; subst. done.
Qed.

Lemma winnerAt_Some b row col w :
  Client.winnerAt b row col = Some w ->
  Client.player w = cell b row col /\ cell b row col <> Some 0 /\
  exists d, d ∈ directions /\
    Forall (fun k =>
      (0 <= row + d.1 * k < ROWS /\ 0 <= col + d.2 * k < COLS) /\
      cell b (row + d.1 * k) (col + d.2 * k) = cell b row col) [1; 2; 3].
Proof.
  unfold Client.winnerAt. case_bool_decide as Hz; [discriminate|]. intros H.
  apply firstSome_Some in H as ([dr dc] & Hd & H).
  case_bool_decide as Hlen; [|discriminate]. inversion H; subst; clear H.
  split; [done|]. split; [done|]. exists (dr, dc). split; [done|].
  by apply (extend_length b row col dr dc (cell b row col) [1; 2; 3] [(row, col)]).
Qed.

Lemma lineAt_cases b v r c d :
  lineAt b v r c d <->
  cell b r c = Some v /\
  Forall (fun k => cell b (r + d.1 * k) (c + d.2 * k) = Some v) [1; 2; 3].
Proof.
  unfold lineAt. split.
  - intros H. split.
    + specialize (H 0). rewrite !Z.mul_0_l, !Z.add_0_r in H. apply H. lia.
    + repeat constructor; rewrite (Z.mul_comm d.1), (Z.mul_comm d.2); apply H; lia.
  - intros [H0 H] k Hk.
    inversion H as [|? ? H1 H']; subst. inversion H' as [|? ? H2 H'']; subst.
    inversion H'' as [|? ? H3 _]; subst.
    assert (k = 0 \/ k = 1 \/ k = 2 \/ k = 3) as [-> | [-> | [-> | ->]]] by lia.
    + by rewrite !Z.mul_0_l, !Z.add_0_r.
    + by rewrite (Z.mul_comm 1 d.1), (Z.mul_comm 1 d.2).
    + by rewrite (Z.mul_comm 2 d.1), (Z.mul_comm 2 d.2).
    + by rewrite (Z.mul_comm 3 d.1), (Z.mul_comm 3 d.2).
Qed.

Lemma winnerAt_line b row col v d :
  wfBoard b -> v <> 0 -> d ∈ directions -> lineAt b v row col d ->
  is_Some (Client.winnerAt b row col).
Proof.
  intros Hwf Hv Hd Hline. apply lineAt_cases in Hline as [H0 Hks].
  unfold Client.winnerAt. rewrite H0.
  rewrite bool_decide_eq_false_2 by congruence.
  destruct (firstSome _ directions) as [w|] eqn:E; [eauto|]. exfalso.
  rewrite firstSome_None in E. specialize (E d Hd). destruct d as [dr dc].
  case_bool_decide as Hlen; [discriminate|]. apply Hlen.
  apply (extend_length b row col dr dc (Some v) [1; 2; 3] [(row, col)]).
  eapply Forall_impl; [exact Hks|]. cbn [fst snd]. intros k Hk. split; [|done].
  by apply (cell_Some_inb b _ _ v).
Qed.

(** The scan reports a winner only for a 4-in-a-row of that mark. *)
Lemma checkWinner_Some_four b w :
  wfBoard b -> Client.checkWinner b = Some w ->
  exists v, Client.player w = Some v /\ v <> 0 /\ fourOf b v.
Proof.
  intros Hwf H. unfold Client.checkWinner in H.
  apply firstSome_Some in H as (row & Hrow & H).
  apply firstSome_Some in H as (col & Hcol & H).
  apply elem_of_range in Hrow, Hcol.
  destruct (cell_inb_Some b row col Hwf Hrow Hcol) as [v Hv].
  apply winnerAt_Some in H as (Hp & Hz & d & Hd & Hks). rewrite Hv in *.
  exists v. split; [done|]. split; [congruence|].
  exists row, col, d. split; [done|]. apply lineAt_cases. split; [done|].
  eapply Forall_impl; [exact Hks|]. by intros k [_ Hk].
Qed.

(** The scan misses no 4-in-a-row. *)
Lemma checkWinner_four b :
  wfBoard b -> fourInARow b -> is_Some (Client.checkWinner b).
Proof.
  intros Hwf (v & Hv & r & c & d & Hd & Hline).
  destruct (Client.checkWinner b) as [w|] eqn:E; [eauto|]. exfalso.
  unfold Client.checkWinner in E. rewrite firstSome_None in E.
  pose proof (proj1 (proj1 (lineAt_cases _ _ _ _ _) Hline)) as H0.
  destruct (cell_Some_inb _ _ _ _ Hwf H0) as [Hr Hc].
  specialize (E r (proj2 (elem_of_range r ROWS) Hr)).
  rewrite firstSome_None in E.
  specialize (E c (proj2 (elem_of_range c COLS) Hc)).
  destruct (winnerAt_line b r c v d Hwf Hv Hd Hline) as [w Hw]. congruence.
Qed.

Lemma checkWinner_None_iff b :
  wfBoard b -> (Client.checkWinner b = None <-> ~ fourInARow b).
Proof.
  intros Hwf. split.
  - intros H Hf. destruct (checkWinner_four b Hwf Hf) as [w Hw]. congruence.
  - intros H. destruct (Client.checkWinner b) as [w|] eqn:E; [|done].
    exfalso. apply H.
    destruct (checkWinner_Some_four b w Hwf E) as (v & _ & Hv & Hf).
    by exists v.
Qed.

(** ** A new mark and the lines it can complete *)

(** On a board without a 4-in-a-row, every line that a single new mark
    completes is a line of that mark through the new cell. *)
Lemma new_line_through b row col x v v' r c d :
  wfBoard b -> ~ fourInARow b -> cell b row col = Some x ->
  v' <> 0 -> d ∈ directions ->
  lineAt (setCell b row col v) v' r c d ->
  v' = v /\ exists j, 0 <= j < 4 /\ row = r + j * d.1 /\ col = c + j * d.2.
Proof.
  intros Hwf Hno Hx Hv' Hd Hline.
  destruct (cell_Some_nonneg _ _ _ _ Hx) as [Hr Hc].
  assert (Hon : exists j, 0 <= j < 4 /\ (r + j * d.1, c + j * d.2) = (row, col)).
  { destruct (decide ((r + 0 * d.1, c + 0 * d.2) = (row, col))); [exists 0; split; [lia|done]|].
    destruct (decide ((r + 1 * d.1, c + 1 * d.2) = (row, col))); [exists 1; split; [lia|done]|].
    destruct (decide ((r + 2 * d.1, c + 2 * d.2) = (row, col))); [exists 2; split; [lia|done]|].
    destruct (decide ((r + 3 * d.1, c + 3 * d.2) = (row, col))); [exists 3; split; [lia|done]|].
    exfalso. apply Hno. exists v'. split; [done|]. exists r, c, d. split; [done|].
    intros k Hk. rewrite <- (Hline k Hk). symmetry.
    apply cell_setCell_ne; [done|done|].
    assert (k = 0 \/ k = 1 \/ k = 2 \/ k = 3) as [-> | [-> | [-> | ->]]] by lia; done. }
  destruct Hon as (j & Hj & Heq). inversion Heq as [[Hrow Hcol]].
  split.
  - specialize (Hline j Hj). rewrite Hrow, Hcol in Hline.
    rewrite (cell_setCell_eq b row col x v Hx) in Hline. congruence.
  - exists j. split; [done|]. split; lia.
Qed.

Lemma fourThrough_fourInARow b row col : fourThrough b row col -> fourInARow b.
Proof.
  intros (v & r & c & d & j & Hv & Hd & Hline & _). exists v. split; [done|].
  by exists r, c, d.
Qed.

(** C3. On a board that had no 4-in-a-row before a single new mark was placed
    on an empty cell at (row, col), the anchored check [checkWin] at
    (row, col) - a win iff some axis through the placed cell carries a run of
    at least 4 equal marks - answers [true] exactly when the full-board scan
    [checkWinner] finds a winner. *)
Theorem checkWin_agrees_with_checkWinner b row col v :
  wfBoard b ->
  ~ fourInARow b ->
  cell b row col = Some 0 ->
  v <> 0 ->
  exists w,
    Server.checkWin (setCell b row col v) row col = Some w /\
    (w = true <-> fourThrough (setCell b row col v) row col) /\
    (w = true <-> is_Some (Client.checkWinner (setCell b row col v))).
Proof.
  intros Hwf Hno Hempty Hv.
  set (b' := setCell b row col v).
  assert (Hwf' : wfBoard b') by by apply wfBoard_setCell.
  assert (Hplaced : cell b' row col = Some v) by by eapply cell_setCell_eq.
  destruct (checkWin_total b' row col) as [w Hw]. exists w. split; [done|].
  pose proof (checkWin_fourThrough b' row col v Hwf' Hplaced) as Hthrough.
  assert (H1 : w = true <-> fourThrough b' row col).
  { rewrite <- Hthrough, Hw. split; congruence. }
  split; [done|]. rewrite H1. split.
  - intros H. apply checkWinner_four; [done|]. by eapply fourThrough_fourInARow.
  - intros [wn Hwn].
    destruct (checkWinner_Some_four b' wn Hwf' Hwn)
      as (v' & _ & Hv' & r & c & d & Hd & Hline).
    destruct (new_line_through b row col 0 v v' r c d Hwf Hno Hempty Hv' Hd Hline)
      as (-> & j & Hj & Hr & Hc).
    exists v, r, c, d, j. done.
Qed.

Lemma checkWin_agrees_with_checkWinner_witness :
  Server.checkWin (setCell threeInRow 5 3 1) 5 3 = Some true /\
  is_Some (Client.checkWinner (setCell threeInRow 5 3 1)).
Proof.
  destruct (checkWin_agrees_with_checkWinner threeInRow 5 3 1)
    as (w & Hw & _ & Hscan).
  - exact wfBoard_threeInRow.
  - apply checkWinner_None_iff; [exact wfBoard_threeInRow|reflexivity].
  - reflexivity.
  - lia.
  - vm_compute in Hw. inversion Hw; subst. split; [reflexivity|].
    apply Hscan. reflexivity.
Defined.

(** ** Gravity and the count of marks *)

Lemma marksOfRow_insert (rw : list Z) i v :
  rw !! i = Some 0 -> v <> 0 ->
  marksOfRow (<[i := v]> rw) = S (marksOfRow rw).
Proof.
  unfold marksOfRow. revert i. induction rw as [|x rw IH]; intros i Hi Hv.
  - by rewrite lookup_nil in Hi.
  - destruct i as [|i]; simpl in *.
    + inversion Hi; subst. simpl. destruct (v =? 0) eqn:E; [lia|]. done.
    + destruct (negb (x =? 0)); simpl; rewrite IH; done.
Qed.

Lemma marks_insert (b : Board) i rw rw' :
  b !! i = Some rw -> marksOfRow rw' = S (marksOfRow rw) ->
  marks (<[i := rw']> b) = S (marks b).
Proof.
  revert i. induction b as [|x b IH]; intros i Hi Hm.
  - by rewrite lookup_nil in Hi.
  - destruct i as [|i]; simpl in *.
    + inversion Hi; subst. lia.
    + rewrite (IH i); [lia|done|done].
Qed.

Lemma marks_setCell b row col v :
  cell b row col = Some 0 -> v <> 0 ->
  marks (setCell b row col v) = S (marks b).
Proof.
  intros Hc Hv. destruct (cell_Some_nonneg _ _ _ _ Hc) as [Hr Hcol].
  unfold cell in Hc. unfold setCell.
  destruct (row <? 0) eqn:E1; [lia|]. destruct (col <? 0) eqn:E2; [lia|].
  cbn [orb] in Hc. destruct (b !! Z.to_nat row) as [rw|] eqn:E; [|discriminate].
  eapply marks_insert; [done|]. by apply marksOfRow_insert.
Qed.

Lemma marks_emptyBoard : marks emptyBoard = 0%nat.
Proof. reflexivity. Qed.

Lemma columnMarks_le b col : (columnMarks b col <= length b)%nat.
Proof.
  unfold columnMarks. induction b as [|rw b IH]; simpl; [lia|].
  destruct (match rw !! Z.to_nat col with Some _ => _ | None => _ end); simpl; lia.
Qed.

Lemma gravity_emptyBoard : gravity emptyBoard.
Proof.
  intros r r' c v Hc Hv _. exfalso.
  destruct (cell_Some_inb _ _ _ _ wfBoard_emptyBoard Hc) as [Hr Hcc].
  assert (r = 0 \/ r = 1 \/ r = 2 \/ r = 3 \/ r = 4 \/ r = 5) as Hrs by lia.
  assert (c = 0 \/ c = 1 \/ c = 2 \/ c = 3 \/ c = 4 \/ c = 5 \/ c = 6) as Hcs by lia.
  repeat (destruct Hrs as [-> | Hrs]);
    repeat (destruct Hcs as [-> | Hcs]); subst;
    vm_compute in Hc; congruence.
Qed.

Lemma gravity_setCell b row col v :
  gravity b -> lowestEmpty b col row -> v <> 0 ->
  gravity (setCell b row col v).
Proof.
  intros Hg [Hc Hlow] Hv r r' c v0 Hr Hv0 Hlt.
  destruct (cell_Some_nonneg _ _ _ _ Hc) as [Hrow Hcol].
  destruct (decide ((r', c) = (row, col))) as [Heq|Hne].
  - inversion Heq; subst. rewrite (cell_setCell_eq _ _ _ _ v Hc). congruence.
  - rewrite cell_setCell_ne by done.
    destruct (decide ((r, c) = (row, col))) as [Heq|Hne'].
    + inversion Heq; subst. apply Hlow. done.
    + rewrite cell_setCell_ne in Hr by done. by eapply Hg.
Qed.

Lemma gravity_fullIffTop b : wfBoard b -> gravity b -> fullIffTop b.
Proof.
  intros Hwf Hg col Hcol. split.
  - intros Hfull Htop. apply Hfull. by exists 0.
  - intros Htop [r Hr].
    destruct (cell_Some_inb _ _ _ _ Hwf Hr) as [Hrr _].
    destruct (decide (r = 0)) as [->|Hne]; [done|].
    destruct (cell_inb_Some b 0 col Hwf) as [v Hv]; [lia|done|].
    apply (Hg 0 r col v); [done|congruence|lia|done].
Qed.

(** One drop keeps the invariant and adds one mark. *)
Lemma boardInvariant_drop n b row col v :
  boardInvariant n b -> lowestEmpty b col row -> v <> 0 ->
  boardInvariant (S n) (setCell b row col v).
Proof.
  intros (Hwf & Hg & _ & Hm & _) Hlow Hv.
  assert (Hwf' : wfBoard (setCell b row col v)) by by apply wfBoard_setCell.
  assert (Hg' : gravity (setCell b row col v)) by by apply gravity_setCell.
  split; [done|]. split; [done|]. split; [by apply gravity_fullIffTop|].
  split.
  - rewrite marks_setCell; [by rewrite Hm|apply Hlow|done].
  - intros c. destruct Hwf' as [Hlen _]. rewrite <- Hlen. apply columnMarks_le.
Qed.

Lemma boardInvariant_emptyBoard : boardInvariant 0 emptyBoard.
Proof.
  split; [apply wfBoard_emptyBoard|]. split; [apply gravity_emptyBoard|].
  split; [apply gravity_fullIffTop; [apply wfBoard_emptyBoard|apply gravity_emptyBoard]|].
  split; [reflexivity|]. intros col. apply (columnMarks_le emptyBoard).
Qed.

(** What a successful move did, read back from its result. *)
Lemma dropLoop_Row_inv st by_ col n st' row :
  Server.dropLoop st by_ col n = Some (st', Server.Row row) ->
  cell (board st) row col = Some 0 /\
  (forall r, row < r < Z.of_nat n -> cell (board st) r col <> Some 0) /\
  board st' = setCell (board st) row col (Server.cellValue by_).
Proof.
  induction n as [|n IH]; simpl; [discriminate|].
  case_bool_decide as Hc.
  - destruct (place_spec st by_ col (Z.of_nat n)) as (st'' & -> & Hb & _).
    intros [= <- <-]. split; [done|]. split; [intros; lia|done].
  - intros H. destruct (IH H) as (H0 & Hlow & Hb). split; [done|].
    split; [|done]. intros r Hr.
    destruct (decide (r = Z.of_nat n)) as [->|]; [done|]. apply Hlow. lia.
Qed.

Lemma server_applyMove_Row_inv st by_ col st' row :
  Server.applyMove st by_ col = Some (st', Server.Row row) ->
  lowestEmpty (board st) col row /\
  board st' = setCell (board st) row col (Server.cellValue by_).
Proof.
  unfold Server.applyMove.
  destruct (negb _); [discriminate|]. destruct (negb _); [discriminate|].
  destruct (_ || _); [discriminate|]. intros H.
  apply dropLoop_Row_inv in H as (H0 & Hlow & Hb). split; [|done].
  split; [done|]. intros r Hr.
  destruct (decide (r < Z.of_nat (length (board st)))); [apply Hlow; lia|].
  intros Hc. apply cell_Some_height in Hc. unfold height in Hc. lia.
Qed.

Lemma availLoop_spec b col n :
  (Client.availLoop b col n = -1 /\
   forall r, 0 <= r < Z.of_nat n -> cell b r col <> Some 0) \/
  (0 <= Client.availLoop b col n < Z.of_nat n /\
   cell b (Client.availLoop b col n) col = Some 0 /\
   forall r, Client.availLoop b col n < r < Z.of_nat n -> cell b r col <> Some 0).
Proof.
  induction n as [|n IH]; simpl.
  - left. split; [done|]. intros; lia.
  - case_bool_decide as Hc.
    + right. split; [lia|]. split; [done|]. intros; lia.
    + destruct IH as [[Heq Hall]|(Hr & H0 & Hlow)].
      * left. split; [done|]. intros r Hr.
        destruct (decide (r = Z.of_nat n)) as [->|]; [done|]. apply Hall. lia.
      * right. split; [lia|]. split; [done|]. intros r Hr'.
        destruct (decide (r = Z.of_nat n)) as [->|]; [done|]. apply Hlow. lia.
Qed.

Lemma client_applyMove_inv b col pl b' :
  wfBoard b -> Client.applyMove b col pl = Some b' ->
  lowestEmpty b col (Client.getAvailableRow b col) /\
  b' = setCell b (Client.getAvailableRow b col) col pl.
Proof.
  intros Hwf. unfold Client.applyMove, Client.getAvailableRow.
  destruct (availLoop_spec b col (Z.to_nat ROWS)) as [[Heq _]|(Hr & H0 & Hlow)].
  - rewrite Heq. simpl. discriminate.
  - destruct (_ <? 0) eqn:E; [discriminate|]. intros [= <-]. split; [|done].
    split; [done|]. intros r Hr'.
    destruct (decide (r < 6)); [apply Hlow; unfold ROWS in *; lia|].
    intros Hc. apply (cell_Some_inb _ _ _ _ Hwf) in Hc. lia.
Qed.

(** C4. Every board reached from the empty 6x7 board by successful moves -
    through the server's [applyMove] or the client's - keeps the gravity
    invariant (no empty cell below an occupied one, and a column is full iff
    its topmost cell is occupied), holds exactly as many marks as moves were
    applied, and has at most 6 marks in any column. *)
Theorem reachable_board_invariant :
  (forall n st, serverReach n st ->
     gravity (board st) /\ fullIffTop (board st) /\ marks (board st) = n /\
     forall col, (columnMarks (board st) col <= 6)%nat) /\
  (forall n b, clientReach n b ->
     gravity b /\ fullIffTop b /\ marks b = n /\
     forall col, (columnMarks b col <= 6)%nat).
Proof.
  split.
  - intros n st H.
    assert (Hinv : boardInvariant n (board st)).
    { induction H as [st Hb|n st by_ col st' row _ IH Hm].
      - rewrite Hb. apply boardInvariant_emptyBoard.
      - apply server_applyMove_Row_inv in Hm as [Hlow ->].
        apply boardInvariant_drop; [done|done|apply cellValue_nonzero]. }
    destruct Hinv as (_ & ? & ? & ? & ?). done.
  - intros n b H.
    assert (Hinv : boardInvariant n b).
    { induction H as [|n b col pl b' _ IH Hpl Hm].
      - apply boardInvariant_emptyBoard.
      - apply client_applyMove_inv in Hm as [Hlow ->]; [|apply IH].
        apply boardInvariant_drop; [done|done|lia]. }
    destruct Hinv as (_ & ? & ? & ? & ?). done.
Qed.

Lemma reachable_board_invariant_witness :
  marks (setCell emptyBoard 5 3 1) = 1%nat /\
  gravity (setCell emptyBoard 5 3 1).
Proof.
  destruct (proj2 reachable_board_invariant 1%nat (setCell emptyBoard 5 3 1))
    as (Hg & _ & Hm & _).
  - apply (creach_move 0 emptyBoard 3 1).
    + constructor.
    + left. reflexivity.
    + reflexivity.
  - split; [exact Hm|exact Hg].
Defined.

(** ** Draws *)

Lemma dropLoop_Row_place st by_ col n st' row :
  Server.dropLoop st by_ col n = Some (st', Server.Row row) ->
  Server.place st by_ col row = Some (st', Server.Row row).
Proof.
  induction n as [|n IH]; simpl; [discriminate|].
  case_bool_decide as Hc; [|done].
  destruct (place_spec st by_ col (Z.of_nat n)) as (st'' & Hp & _).
  intros H. rewrite Hp in H. inversion H; subst. done.
Qed.

Lemma server_applyMove_place st by_ col st' row :
  Server.applyMove st by_ col = Some (st', Server.Row row) ->
  status st = playing /\
  Server.place st by_ col row = Some (st', Server.Row row).
Proof.
  unfold Server.applyMove. case_bool_decide as Hs; cbn [negb]; [|discriminate].
  destruct (negb _); [discriminate|]. destruct (_ || _); [discriminate|].
  intros H. split; [done|]. by eapply dropLoop_Row_place.
Qed.

Lemma isBoardFull_cells b :
  Client.isBoardFull b = true <-> forall r c, cell b r c <> Some 0.
Proof.
  unfold Client.isBoardFull. rewrite forallb_forall. split.
  - intros H r c Hc. unfold cell in Hc. destruct (_ || _); [done|].
    destruct (b !! Z.to_nat r) as [rw|] eqn:E; [|done].
    apply list_elem_of_lookup_2, list_elem_of_In in E. specialize (H _ E).
    rewrite forallb_forall in H.
    apply list_elem_of_lookup_2, list_elem_of_In in Hc. by specialize (H _ Hc).
  - intros H rw Hrw. apply forallb_forall. intros x Hx.
    apply list_elem_of_In, list_elem_of_lookup in Hrw as [i Hi].
    apply list_elem_of_In, list_elem_of_lookup in Hx as [j Hj].
    specialize (H (Z.of_nat i) (Z.of_nat j)). unfold cell in H.
    destruct (Z.of_nat i <? 0) eqn:E1; [apply Z.ltb_lt in E1; lia|].
    destruct (Z.of_nat j <? 0) eqn:E2; [apply Z.ltb_lt in E2; lia|].
    cbn [orb] in H. rewrite !Nat2Z.id, Hi in H.
    destruct (x =? 0) eqn:Ex; [|done]. apply Z.eqb_eq in Ex. congruence.
Qed.

(** C5. The draw test is true iff the top row (row 0) has no empty cell; and
    [applyMove] consults it only after the win check answered [false]: a
    placement that wins marks the Game Won whatever the top row holds, and a
    Game marked Draw had a placement that did not win.  On boards that obey
    gravity the client's [isBoardFull] is the same test. *)
Theorem draw_only_without_win :
  (forall b, b <> [] -> (Server.checkDraw b = true <-> topRowFull b)) /\
  (forall st by_ col st' row,
     Server.applyMove st by_ col = Some (st', Server.Row row) ->
     (Server.checkWin (board st') row col = Some true -> status st' = won) /\
     (status st' = draw ->
      Server.checkWin (board st') row col = Some false /\
      Server.checkDraw (board st') = true) /\
     (wfBoard (board st) -> fourThrough (board st') row col -> status st' <> draw)) /\
  (forall b, wfBoard b -> gravity b ->
     (Client.isBoardFull b = true <-> topRowFull b)).
Proof.
  split; [intros b _; apply checkDraw_topRowFull|]. split.
  - intros st by_ col st' row Hm.
    pose proof (server_applyMove_Row_inv _ _ _ _ _ Hm) as [[H0 _] Hb].
    apply server_applyMove_place in Hm as [Hs Hp].
    destruct (place_spec st by_ col row) as (st'' & Hp' & _ & _ & _ & _ & Hcases).
    rewrite Hp in Hp'. inversion Hp'; subst st''. clear Hp'.
    assert (Hdraw : status st' = draw ->
      Server.checkWin (board st') row col = Some false /\
      Server.checkDraw (board st') = true).
    { destruct Hcases as [(Hw & ? & ?)|[(Hw & Hd & ?)|(Hw & Hd & ? & ?)]];
        intros; [congruence|done|congruence]. }
    split; [|split; [done|]].
    + destruct Hcases as [(Hw & ? & ?)|[(Hw & Hd & ?)|(Hw & Hd & ? & ?)]];
        intros; [done|congruence|congruence].
    + intros Hwf Hthrough Hd. destruct (Hdraw Hd) as [Hw _].
      assert (Hwf' : wfBoard (board st')) by (rewrite Hb; by apply wfBoard_setCell).
      assert (Hplaced : cell (board st') row col = Some (Server.cellValue by_)).
      { rewrite Hb. by eapply cell_setCell_eq. }
      apply (checkWin_fourThrough _ _ _ _ Hwf' Hplaced) in Hthrough. congruence.
  - intros b Hwf Hg. rewrite isBoardFull_cells. split.
    + intros H c. apply H.
    + intros Htop r c Hc.
      destruct (cell_Some_inb _ _ _ _ Hwf Hc) as [Hr Hcc].
      destruct (decide (r = 0)) as [->|Hne]; [by apply (Htop c)|].
      destruct (cell_inb_Some b 0 c Hwf) as [v Hv]; [lia|done|].
      apply (Hg 0 r c v); [done| |lia|done].
      intros ->. by apply (Htop c).
Qed.

Lemma draw_only_without_win_witness :
  exists st' row,
    Server.applyMove sampleGame P1 3 = Some (st', Server.Row row) /\
    status st' <> draw.
Proof.
  assert (Hm : Server.applyMove sampleGame P1 3
               = Some (mkGameState "ABCDEF" won (setCell threeInRow 5 3 1) P1
                         (Some P1) (Some (mkLastMove 3 5 P1)) (players sampleGame),
                       Server.Row 5)) by reflexivity.
  eexists _, _. split; [exact Hm|].
  apply (proj2 (proj2 (proj1 (proj2 draw_only_without_win) _ _ _ _ _ Hm))).
  - exact wfBoard_threeInRow.
  - exists 1, 5, 0, (0, 1), 3.
    split; [lia|]. split; [left|].
    split; [|cbn [fst snd]; lia].
    intros k Hk.
    assert (k = 0 \/ k = 1 \/ k = 2 \/ k = 3) as [-> | [-> | [-> | ->]]] by lia;
      reflexivity.
Defined.

(** ** The order of scores *)

Lemma score_lt_irrefl x : score_lt x x = false.
Proof. destruct x; simpl; try done. apply Z.ltb_irrefl. Qed.

Lemma score_lt_trans x y z :
  score_lt x y = true -> score_lt y z = true -> score_lt x z = true.
Proof.
  destruct x, y, z; simpl; try done. rewrite !Z.ltb_lt. lia.
Qed.

Lemma score_lt_total x y :
  score_lt x y = false -> score_lt y x = false -> x = y.
Proof.
  destruct x, y; simpl; try done. rewrite !Z.ltb_ge. intros. f_equal. lia.
Qed.

Lemma score_lt_asym x y : score_lt x y = true -> score_lt y x = false.
Proof.
  destruct x, y; simpl; try done. rewrite Z.ltb_lt, Z.ltb_ge. lia.
Qed.

(** [x <= y], written with the strict order of the code. *)
Lemma score_max_ge_l x y : score_lt (score_max x y) x = false.
Proof.
  unfold score_max. destruct (score_lt x y) eqn:E.
  - by apply score_lt_asym.
  - apply score_lt_irrefl.
Qed.

Lemma score_min_le_l x y : score_lt x (score_min x y) = false.
Proof.
  unfold score_min. destruct (score_lt y x) eqn:E.
  - by apply score_lt_asym.
  - apply score_lt_irrefl.
Qed.

Lemma score_le_trans x y z :
  score_lt y x = false -> score_lt z y = false -> score_lt z x = false.
Proof.
  destruct x, y, z; simpl; try done. rewrite !Z.ltb_ge. lia.
Qed.

Lemma bestMax_ge best l : score_lt (bestMax best l) best = false.
Proof.
  revert best. induction l as [|x l IH]; intros best; simpl.
  - apply score_lt_irrefl.
  - eapply score_le_trans; [apply score_max_ge_l|apply IH].
Qed.

Lemma bestMin_le best l : score_lt best (bestMin best l) = false.
Proof.
  revert best. induction l as [|x l IH]; intros best; simpl.
  - apply score_lt_irrefl.
  - eapply score_le_trans; [apply IH|apply score_min_le_l].
Qed.

(** Raising [alpha] by an earlier best does not change the later bound. *)
Lemma score_max_absorb a x y :
  score_lt y x = false -> score_max (score_max a x) y = score_max a y.
Proof.
  unfold score_max. destruct a, x, y; simpl; try done;
    repeat (match goal with
            | |- context [?p <? ?q] => destruct (Z.ltb_spec p q); simpl
            end; try done);
    try (intros; f_equal; lia); try (rewrite Z.ltb_ge; lia).
Qed.

Lemma score_min_absorb a x y :
  score_lt x y = false -> score_min (score_min a x) y = score_min a y.
Proof.
  unfold score_min. destruct a, x, y; simpl; try done;
    repeat (match goal with
            | |- context [?p <? ?q] => destruct (Z.ltb_spec p q); simpl
            end; try done);
    try (intros; f_equal; lia); try (rewrite Z.ltb_ge; lia).
Qed.

(** ** The loops of [minimax] *)

Lemma firstWith_cons s col s1 l :
  firstWith s ((col, s1) :: l)
  = if bool_decide (s1 = s) then Some col else firstWith s l.
Proof. unfold firstWith. simpl. by case_bool_decide. Qed.

(** The loop of a maximizing node returns the best score of a prefix of its
    children and the first column reaching it; the prefix ends at the first
    child after which [alpha >= beta], or with the last child. *)
Lemma maxLoop_scan child b pl cols : forall alpha beta best bcol,
  let all := maxScan child b pl cols alpha beta best in
  exists n : nat,
    (n <= length all)%nat /\ (all <> [] -> (0 < n)%nat) /\
    Client.maxLoop child b pl cols alpha beta best bcol
    = (bestMax best (take n all),
       if score_lt best (bestMax best (take n all))
       then firstWith (bestMax best (take n all)) (take n all) else bcol) /\
    ((n < length all)%nat ->
     score_ge (score_max alpha (bestMax best (take n all))) beta = true) /\
    (forall m : nat, (0 < m < n)%nat ->
     score_ge (score_max alpha (bestMax best (take m all))) beta = false).
Proof.
  induction cols as [|col rest IH]; intros alpha beta best bcol; cbn zeta.
  - exists 0%nat. simpl. rewrite score_lt_irrefl.
    split; [lia|]. split; [done|]. split; [done|]. split; intros; lia.
  - simpl. destruct (Client.applyMove b col pl) as [nb|]; [|apply IH].
    set (s1 := (child nb alpha beta).1).
    assert (Hbest : (if score_lt best s1 then s1 else best) = score_max best s1) by done.
    rewrite Hbest. set (best' := score_max best s1).
    set (alpha' := score_max alpha best').
    destruct (score_ge alpha' beta) eqn:Hcut.
    + exists 1%nat. simpl. fold best'.
      split; [lia|]. split; [lia|]. split; [|split; [done|intros; lia]].
      f_equal. rewrite firstWith_cons. subst best'. unfold score_max.
      destruct (score_lt best s1) eqn:E.
      * rewrite E. by rewrite bool_decide_eq_true_2.
      * by rewrite score_lt_irrefl.
    + specialize (IH alpha' beta best' (if score_lt best s1 then Some col else bcol)).
      cbn zeta in IH. destruct IH as (n & Hn & Hpos & Heq & Hc1 & Hc2).
      set (all' := maxScan child b pl rest alpha' beta best') in *.
      exists (S n). simpl. fold best'.
      pose proof (bestMax_ge best' (take n all')) as Hs.
      remember (bestMax best' (take n all')) as s eqn:Hsdef.
      split; [lia|]. split; [lia|]. split; [|split].
      * rewrite Heq. f_equal. rewrite firstWith_cons.
        subst best'. unfold score_max in *.
        destruct (score_lt best s1) eqn:E.
        -- destruct (score_lt s1 s) eqn:E2.
           ++ rewrite (score_lt_trans _ _ _ E E2).
              rewrite bool_decide_eq_false_2; [done|].
              intros ->. rewrite score_lt_irrefl in E2. done.
           ++ pose proof (score_lt_total _ _ E2 Hs) as <-.
              rewrite E. by rewrite bool_decide_eq_true_2.
        -- destruct (score_lt best s) eqn:E2; [|done].
           rewrite bool_decide_eq_false_2; [done|]. intros ->. congruence.
      * intros Hlt. rewrite <- (score_max_absorb alpha best' s Hs).
        apply Hc1. lia.
      * intros m Hm. destruct m as [|m]; [lia|]. simpl. fold best'.
        destruct m as [|m].
        -- rewrite take_0. simpl. exact Hcut.
        -- rewrite <- (score_max_absorb alpha best' _ (bestMax_ge best' _)).
           apply Hc2. lia.
Qed.

(** The loop of a minimizing node, read the same way. *)
Lemma minLoop_scan child b pl cols : forall alpha beta best bcol,
  let all := minScan child b pl cols alpha beta best in
  exists n : nat,
    (n <= length all)%nat /\ (all <> [] -> (0 < n)%nat) /\
    Client.minLoop child b pl cols alpha beta best bcol
    = (bestMin best (take n all),
       if score_lt (bestMin best (take n all)) best
       then firstWith (bestMin best (take n all)) (take n all) else bcol) /\
    ((n < length all)%nat ->
     score_ge alpha (score_min beta (bestMin best (take n all))) = true) /\
    (forall m : nat, (0 < m < n)%nat ->
     score_ge alpha (score_min beta (bestMin best (take m all))) = false).
Proof.
  induction cols as [|col rest IH]; intros alpha beta best bcol; cbn zeta.
  - exists 0%nat. simpl. rewrite score_lt_irrefl.
    split; [lia|]. split; [done|]. split; [done|]. split; intros; lia.
  - simpl. destruct (Client.applyMove b col pl) as [nb|]; [|apply IH].
    set (s1 := (child nb alpha beta).1).
    assert (Hbest : (if score_lt s1 best then s1 else best) = score_min best s1) by done.
    rewrite Hbest. set (best' := score_min best s1).
    set (beta' := score_min beta best').
    destruct (score_ge alpha beta') eqn:Hcut.
    + exists 1%nat. simpl. fold best'.
      split; [lia|]. split; [lia|]. split; [|split; [done|intros; lia]].
      f_equal. rewrite firstWith_cons. subst best'. unfold score_min.
      destruct (score_lt s1 best) eqn:E.
      * rewrite E. by rewrite bool_decide_eq_true_2.
      * by rewrite score_lt_irrefl.
    + specialize (IH alpha beta' best' (if score_lt s1 best then Some col else bcol)).
      cbn zeta in IH. destruct IH as (n & Hn & Hpos & Heq & Hc1 & Hc2).
      set (all' := minScan child b pl rest alpha beta' best') in *.
      exists (S n). simpl. fold best'.
      pose proof (bestMin_le best' (take n all')) as Hs.
      remember (bestMin best' (take n all')) as s eqn:Hsdef.
      split; [lia|]. split; [lia|]. split; [|split].
      * rewrite Heq. f_equal. rewrite firstWith_cons.
        subst best'. unfold score_min in *.
        destruct (score_lt s1 best) eqn:E.
        -- destruct (score_lt s s1) eqn:E2.
           ++ rewrite (score_lt_trans _ _ _ E2 E).
              rewrite bool_decide_eq_false_2; [done|].
              intros ->. rewrite score_lt_irrefl in E2. done.
           ++ pose proof (score_lt_total _ _ Hs E2) as <-.
              rewrite E. by rewrite bool_decide_eq_true_2.
        -- destruct (score_lt s best) eqn:E2; [|done].
           rewrite bool_decide_eq_false_2; [done|]. intros ->. congruence.
      * intros Hlt. rewrite <- (score_min_absorb beta best' s Hs).
        apply Hc1. lia.
      * intros m Hm. destruct m as [|m]; [lia|]. simpl. fold best'.
        destruct m as [|m].
        -- rewrite take_0. simpl. exact Hcut.
        -- rewrite <- (score_min_absorb beta best' _ (bestMin_le best' _)).
           apply Hc2. lia.
Qed.

(** ** The nodes of [minimax] *)

Lemma getAvailableRow_range b col :
  Client.getAvailableRow b col = -1 \/ 0 <= Client.getAvailableRow b col < 6.
Proof.
  unfold Client.getAvailableRow.
  destruct (availLoop_spec b col (Z.to_nat ROWS)) as [[-> _]|(Hr & _)].
  - by left.
  - right. unfold ROWS in *. lia.
Qed.

Lemma validColumn_legal b col pl :
  col ∈ Client.getValidColumns b -> is_Some (Client.applyMove b col pl).
Proof.
  unfold Client.getValidColumns. rewrite list_elem_of_In, filter_In.
  intros [_ H]. unfold Client.applyMove.
  destruct (getAvailableRow_range b col) as [Heq|Hr].
  - rewrite Heq in H. done.
  - destruct (_ <? 0) eqn:E; [apply Z.ltb_lt in E; lia|]. eauto.
Qed.

Lemma filter_sublist {A} (f : A -> bool) (l : list A) :
  sublist (List.filter f l) l.
Proof.
  induction l as [|x l IH]; simpl; [constructor|].
  destruct (f x); by constructor.
Qed.

Lemma getValidColumns_order b :
  sublist (Client.getValidColumns b) [0; 1; 2; 3; 4; 5; 6].
Proof. apply (filter_sublist _ [0; 1; 2; 3; 4; 5; 6]). Qed.

Lemma maxScan_columns child b pl cols : forall alpha beta best,
  Forall (fun col => is_Some (Client.applyMove b col pl)) cols ->
  map fst (maxScan child b pl cols alpha beta best) = cols.
Proof.
  induction cols as [|col rest IH]; intros alpha beta best H; simpl; [done|].
  inversion H as [|? ? [nb Hnb] Hrest]; subst. rewrite Hnb. simpl.
  by rewrite IH.
Qed.

Lemma minScan_columns child b pl cols : forall alpha beta best,
  Forall (fun col => is_Some (Client.applyMove b col pl)) cols ->
  map fst (minScan child b pl cols alpha beta best) = cols.
Proof.
  induction cols as [|col rest IH]; intros alpha beta best H; simpl; [done|].
  inversion H as [|? ? [nb Hnb] Hrest]; subst. rewrite Hnb. simpl.
  by rewrite IH.
Qed.

Lemma maxScan_finite child b pl cols : forall alpha beta best,
  (forall nb a be, finite (child nb a be).1) ->
  Forall (fun x => finite x.2) (maxScan child b pl cols alpha beta best).
Proof.
  induction cols as [|col rest IH]; intros alpha beta best H; simpl; [constructor|].
  destruct (Client.applyMove b col pl); [|by apply IH].
  constructor; [apply H|by apply IH].
Qed.

Lemma minScan_finite child b pl cols : forall alpha beta best,
  (forall nb a be, finite (child nb a be).1) ->
  Forall (fun x => finite x.2) (minScan child b pl cols alpha beta best).
Proof.
  induction cols as [|col rest IH]; intros alpha beta best H; simpl; [constructor|].
  destruct (Client.applyMove b col pl); [|by apply IH].
  constructor; [apply H|by apply IH].
Qed.

Lemma bestMax_finite best l :
  Forall (fun x : Z * Score => finite x.2) l ->
  finite best \/ (best = NegInf /\ l <> []) ->
  finite (bestMax best l).
Proof.
  revert best. induction l as [|[c s] l IH]; intros best Hl Hb; simpl.
  - destruct Hb as [Hb|[_ Hb]]; done.
  - inversion Hl as [|? ? [z Hz] Hl']; subst. simpl in Hz. subst s.
    apply IH; [done|]. left. simpl.
    destruct Hb as [[z' ->]|[-> _]]; unfold score_max; simpl.
    + destruct (_ <? _); by eexists.
    + by eexists.
Qed.

Lemma bestMin_finite best l :
  Forall (fun x : Z * Score => finite x.2) l ->
  finite best \/ (best = PosInf /\ l <> []) ->
  finite (bestMin best l).
Proof.
  revert best. induction l as [|[c s] l IH]; intros best Hl Hb; simpl.
  - destruct Hb as [Hb|[_ Hb]]; done.
  - inversion Hl as [|? ? [z Hz] Hl']; subst. simpl in Hz. subst s.
    apply IH; [done|]. left. simpl.
    destruct Hb as [[z' ->]|[-> _]]; unfold score_min; simpl.
    + destruct (_ <? _); by eexists.
    + by eexists.
Qed.

Lemma take_nonempty {A} (l : list A) n : (0 < n <= length l)%nat -> take n l <> [].
Proof. destruct l, n; simpl; intros; [lia|lia|lia|done]. Qed.

(** A maximizing node over children with numeric scores. *)
Lemma maxLoop_pruned child b pl cols alpha beta :
  cols <> [] ->
  Forall (fun col => is_Some (Client.applyMove b col pl)) cols ->
  (forall nb a be, finite (child nb a be).1) ->
  prunedMax alpha beta (maxScan child b pl cols alpha beta NegInf)
    (Client.maxLoop child b pl cols alpha beta NegInf None).
Proof.
  intros Hne Hlegal Hfin.
  destruct (maxLoop_scan child b pl cols alpha beta NegInf None)
    as (n & Hn & Hpos & Heq & Hc1 & Hc2).
  pose proof (maxScan_columns child b pl cols alpha beta NegInf Hlegal) as Hcols.
  assert (Hall : maxScan child b pl cols alpha beta NegInf <> []).
  { intros E. rewrite E in Hcols. simpl in Hcols. congruence. }
  specialize (Hpos Hall).
  exists n. split; [lia|]. split; [|done]. rewrite Heq. f_equal.
  destruct (bestMax_finite NegInf (take n (maxScan child b pl cols alpha beta NegInf)))
    as [z Hz].
  - apply Forall_take. by apply maxScan_finite.
  - right. split; [done|]. apply take_nonempty. lia.
  - by rewrite Hz.
Qed.

Lemma minLoop_pruned child b pl cols alpha beta :
  cols <> [] ->
  Forall (fun col => is_Some (Client.applyMove b col pl)) cols ->
  (forall nb a be, finite (child nb a be).1) ->
  prunedMin alpha beta (minScan child b pl cols alpha beta PosInf)
    (Client.minLoop child b pl cols alpha beta PosInf None).
Proof.
  intros Hne Hlegal Hfin.
  destruct (minLoop_scan child b pl cols alpha beta PosInf None)
    as (n & Hn & Hpos & Heq & Hc1 & Hc2).
  pose proof (minScan_columns child b pl cols alpha beta PosInf Hlegal) as Hcols.
  assert (Hall : minScan child b pl cols alpha beta PosInf <> []).
  { intros E. rewrite E in Hcols. simpl in Hcols. congruence. }
  specialize (Hpos Hall).
  exists n. split; [lia|]. split; [|done]. rewrite Heq. f_equal.
  destruct (bestMin_finite PosInf (take n (minScan child b pl cols alpha beta PosInf)))
    as [z Hz].
  - apply Forall_take. by apply minScan_finite.
  - right. split; [done|]. apply take_nonempty. lia.
  - by rewrite Hz.
Qed.

Lemma validColumns_legal b pl :
  Forall (fun col => is_Some (Client.applyMove b col pl)) (Client.getValidColumns b).
Proof. apply Forall_forall. intros col Hcol. by apply validColumn_legal. Qed.

(** One unfolding of [minimax] at an inner node. *)
Lemma minimax_node d b alpha beta mx pl :
  Client.wonBy (Client.checkWinner b) pl = false ->
  Client.wonBy (Client.checkWinner b) (Client.opponentOf pl) = false ->
  Client.getValidColumns b <> [] ->
  Client.minimax (S d) b alpha beta mx pl
  = if mx
    then Client.maxLoop (fun nb a be => Client.minimax d nb a be false pl)
           b pl (Client.getValidColumns b) alpha beta NegInf None
    else Client.minLoop (fun nb a be => Client.minimax d nb a be true pl)
           b (Client.opponentOf pl) (Client.getValidColumns b) alpha beta PosInf None.
Proof.
  intros H1 H2 Hv. cbn [Client.minimax]. rewrite H1, H2.
  rewrite bool_decide_eq_false_2; [done|].
  intros Hlen. by apply nil_length_inv in Hlen.
Qed.

(** Every score of the search is a number. *)
Lemma minimax_finite d : forall b alpha beta mx pl,
  finite (Client.minimax d b alpha beta mx pl).1.
Proof.
  induction d as [|d IH]; intros b alpha beta mx pl.
  - cbn [Client.minimax]. destruct (Client.wonBy _ pl); [by eexists|].
    destruct (Client.wonBy _ _); by eexists.
  - destruct (Client.wonBy (Client.checkWinner b) pl) eqn:H1.
    { cbn [Client.minimax]. rewrite H1. by eexists. }
    destruct (Client.wonBy (Client.checkWinner b) (Client.opponentOf pl)) eqn:H2.
    { cbn [Client.minimax]. rewrite H1, H2. by eexists. }
    destruct (decide (Client.getValidColumns b = [])) as [Hv|Hv].
    { cbn [Client.minimax]. rewrite H1, H2, Hv. simpl. by eexists. }
    rewrite minimax_node by done. destruct mx.
    + destruct (maxLoop_pruned (fun nb a be => Client.minimax d nb a be false pl)
                  b pl (Client.getValidColumns b) alpha beta Hv
                  (validColumns_legal b pl) (fun nb a be => IH nb a be false pl))
        as (n & Hn & -> & _).
      cbn [fst]. apply bestMax_finite.
      * apply Forall_take, maxScan_finite. intros. apply IH.
      * right. split; [done|]. apply take_nonempty. lia.
    + destruct (minLoop_pruned (fun nb a be => Client.minimax d nb a be true pl)
                  b (Client.opponentOf pl) (Client.getValidColumns b) alpha beta Hv
                  (validColumns_legal b _) (fun nb a be => IH nb a be true pl))
        as (n & Hn & -> & _).
      cbn [fst]. apply bestMin_finite.
      * apply Forall_take, minScan_finite. intros. apply IH.
      * right. split; [done|]. apply take_nonempty. lia.
Qed.

(** The scan names the searching player when the only lines on the board are
    that player's. *)
Lemma wonBy_of_four b pl :
  wfBoard b -> pl <> 0 -> fourOf b pl ->
  (forall v, v <> 0 -> fourOf b v -> v = pl) ->
  Client.wonBy (Client.checkWinner b) pl = true.
Proof.
  intros Hwf Hpl Hfour Honly.
  destruct (checkWinner_four b Hwf) as [w Hw]; [by exists pl|].
  rewrite Hw. simpl.
  destruct (checkWinner_Some_four b w Hwf Hw) as (v & Hp & Hv & Hf).
  apply bool_decide_eq_true. rewrite Hp. f_equal. by apply Honly.
Qed.


(** ** The immediate win of the search agent *)

Lemma lineAtb_spec b v r c d : lineAtb b v r c d = true <-> lineAt b v r c d.
Proof.
  unfold lineAtb, lineAt. rewrite forallb_forall. split.
  - intros H k Hk.
    assert (Hin : In k [0; 1; 2; 3]).
    { assert (k = 0 \/ k = 1 \/ k = 2 \/ k = 3) as [-> | [-> | [-> | ->]]] by lia;
        simpl; tauto. }
    apply H in Hin. by apply bool_decide_eq_true in Hin.
  - intros H k Hk. apply bool_decide_eq_true_2, H. simpl in Hk. lia.
Qed.

Lemma fourOfb_spec b v : wfBoard b -> (fourOfb b v = true <-> fourOf b v).
Proof.
  intros Hwf. unfold fourOfb, fourOf. rewrite existsb_exists. split.
  - intros (r & _ & H). apply existsb_exists in H as (c & _ & H).
    apply existsb_exists in H as (d & Hd & H).
    exists r, c, d. split; [by apply list_elem_of_In|by apply lineAtb_spec].
  - intros (r & c & d & Hd & H).
    pose proof (H 0 ltac:(lia)) as H0. rewrite !Z.mul_0_l, !Z.add_0_r in H0.
    destruct (cell_Some_inb _ _ _ _ Hwf H0) as [Hr Hc].
    exists r. split; [by apply list_elem_of_In, elem_of_range|].
    apply existsb_exists. exists c.
    split; [by apply list_elem_of_In, elem_of_range|].
    apply existsb_exists. exists d.
    split; [by apply list_elem_of_In|by apply lineAtb_spec].
Qed.

Lemma findWinningMove_Some b pl col :
  Client.findWinningMove b pl = Some col ->
  col ∈ Client.getValidColumns b /\
  exists nb, Client.applyMove b col pl = Some nb /\
             Client.wonBy (Client.checkWinner nb) pl = true.
Proof.
  unfold Client.findWinningMove. intros H.
  apply firstSome_Some in H as (c & Hc & H).
  destruct (Client.applyMove b c pl) as [nb|] eqn:E; [|discriminate].
  destruct (Client.wonBy _ _) eqn:Ew; [|discriminate].
  inversion H; subst. split; [done|]. by exists nb.
Qed.

Lemma findWinningMove_exists b pl col nb :
  col ∈ Client.getValidColumns b ->
  Client.applyMove b col pl = Some nb ->
  Client.wonBy (Client.checkWinner nb) pl = true ->
  is_Some (Client.findWinningMove b pl).
Proof.
  intros Hcol Hnb Hw. unfold Client.findWinningMove.
  destruct (firstSome _ _) as [c|] eqn:E; [eauto|]. exfalso.
  rewrite firstSome_None in E. specialize (E col Hcol).
  rewrite Hnb, Hw in E. discriminate.
Qed.

(** On a board still in play, the scan of the board after a move names the
    mover exactly when the move made a 4-in-a-row of the mover's mark. *)
Lemma wonBy_after_move b col pl nb :
  wfBoard b -> ~ fourInARow b -> pl <> 0 ->
  Client.applyMove b col pl = Some nb ->
  (Client.wonBy (Client.checkWinner nb) pl = true <-> fourOf nb pl).
Proof.
  intros Hwf Hno Hpl Hm.
  apply (client_applyMove_inv _ _ _ _ Hwf) in Hm as [[H0 _] ->].
  set (row := Client.getAvailableRow b col) in *.
  assert (Hwf' : wfBoard (setCell b row col pl)) by by apply wfBoard_setCell.
  split.
  - destruct (Client.checkWinner _) as [w|] eqn:E; [|done]. simpl.
    intros Hp. apply bool_decide_eq_true in Hp.
    destruct (checkWinner_Some_four _ w Hwf' E) as (v & Hv & _ & Hf). congruence.
  - intros Hf. apply wonBy_of_four; [done|done|done|].
    intros v Hv (r & c & d & Hd & Hline).
    by destruct (new_line_through b row col 0 pl v r c d Hwf Hno H0 Hv Hd Hline).
Qed.

(** On a board with no 4-in-a-row yet, a winning column of the computer is
    found and answered at Medium and at Hard. *)
Lemma chooseComputerMove_wins draw b difficulty pl :
  wfBoard b ->
  ~ fourInARow b ->
  pl <> 0 ->
  difficulty = medium \/ difficulty = hard ->
  (exists col nb, col ∈ Client.getValidColumns b /\
                  Client.applyMove b col pl = Some nb /\ fourOf nb pl) ->
  exists c nb,
    Client.chooseComputerMove draw b difficulty pl = Some c /\
    c ∈ Client.getValidColumns b /\
    Client.applyMove b c pl = Some nb /\ fourOf nb pl.
Proof.
  intros Hwf Hno Hpl Hdiff (col & nb & Hcol & Hnb & Hfour).
  assert (Hw : Client.wonBy (Client.checkWinner nb) pl = true).
  { by apply (wonBy_after_move b col pl nb). }
  destruct (findWinningMove_exists b pl col nb Hcol Hnb Hw) as [c Hc].
  destruct (findWinningMove_Some b pl c Hc) as (Hcv & nb' & Hnb' & Hw').
  exists c, nb'. split; [|split; [done|split; [done|]]].
  - unfold Client.chooseComputerMove.
    rewrite bool_decide_eq_false_2.
    + destruct Hdiff as [-> | ->]; by rewrite Hc.
    + intros Hlen. apply nil_length_inv in Hlen. rewrite Hlen in Hcol.
      by apply elem_of_nil in Hcol.
  - by apply (wonBy_after_move b c pl nb').
Qed.

(** Called on a board that is already won, which the app never does, the
    function may miss a winning column: on [finishedBoard] column 4 would
    give player 1 four in the bottom row, yet both levels answer column 0,
    which does not. *)
Lemma chooseComputerMove_finished_board :
  (exists col nb, col ∈ Client.getValidColumns finishedBoard /\
                  Client.applyMove finishedBoard col 1 = Some nb /\ fourOf nb 1) /\
  ~ (exists c nb, Client.chooseComputerMove 0 finishedBoard medium 1 = Some c /\
                  Client.applyMove finishedBoard c 1 = Some nb /\ fourOf nb 1) /\
  ~ (exists c nb, Client.chooseComputerMove 0 finishedBoard hard 1 = Some c /\
                  Client.applyMove finishedBoard c 1 = Some nb /\ fourOf nb 1).
Proof.
  assert (Hwf : wfBoard finishedBoard) by (split; [reflexivity|repeat constructor]).
  assert (Hnot : ~ fourOf (setCell finishedBoard 1 0 1) 1).
  { intros H. apply fourOfb_spec in H; [|by apply wfBoard_setCell].
    vm_compute in H. discriminate. }
  split; [|split].
  - exists 4, (setCell finishedBoard 5 4 1).
    split; [do 4 right; left|]. split; [reflexivity|].
    apply fourOfb_spec; [by apply wfBoard_setCell|reflexivity].
  - intros (c & nb & Hc & Hnb & Hf). vm_compute in Hc. inversion Hc; subst c.
    vm_compute in Hnb. inversion Hnb; subst nb. apply Hnot. exact Hf.
  - intros (c & nb & Hc & Hnb & Hf). vm_compute in Hc. inversion Hc; subst c.
    vm_compute in Hnb. inversion Hnb; subst nb. apply Hnot. exact Hf.
Qed.

(** ** The heuristic evaluation *)

Lemma count_rev x w : count x (rev w) = count x w.
Proof. unfold count. by rewrite filter_rev, length_rev. Qed.

Lemma windowValue_rev pl opp w : windowValue pl opp (rev w) = windowValue pl opp w.
Proof. unfold windowValue. by rewrite !count_rev. Qed.

Lemma windowValue_oriented b pl opp w :
  windowValue pl opp (cellsOf b (oriented w)) = windowValue pl opp (cellsOf b w).
Proof.
  unfold oriented. destruct (upward w); [|done].
  unfold cellsOf. by rewrite map_rev, windowValue_rev.
Qed.

Lemma evaluateWindow_windowValue pl opp w s :
  Client.evaluateWindow pl opp w s = s + windowValue pl opp w.
Proof.
  unfold Client.evaluateWindow, windowValue, Client.countEq.
  fold (count (Some pl) w) (count (Some opp) w) (count (Some 0) w).
  generalize (count (Some pl) w) (count (Some opp) w) (count (Some 0) w).
  intros m t e.
  destruct (Z.eqb_spec (Z.of_nat m) 4), (Z.eqb_spec (Z.of_nat m) 3),
    (Z.eqb_spec (Z.of_nat m) 2), (Z.eqb_spec (Z.of_nat e) 1),
    (Z.eqb_spec (Z.of_nat e) 2), (Z.eqb_spec (Z.of_nat t) 3);
    cbn [andb]; repeat case_bool_decide; lia.
Qed.

Lemma sumZ_app l l' : sumZ (l ++ l') = sumZ l + sumZ l'.
Proof. unfold sumZ. induction l as [|x l IH]; simpl; lia. Qed.

Lemma sumZ_perm l l' : Permutation l l' -> sumZ l = sumZ l'.
Proof. unfold sumZ. induction 1; simpl; lia. Qed.

(** A loop that adds [g i] in its round [i] adds the sum of the [g i]. *)
Lemma forRange_add lo hi (body : Z -> Z -> Z) (g : Z -> Z) :
  (forall i s, body i s = s + g i) ->
  forall s, Client.forRange lo hi body s = s + sumZ (map g (Client.interval lo hi)).
Proof.
  intros Hbody. unfold Client.forRange. generalize (Client.interval lo hi).
  intros l. induction l as [|i l IH]; intros s; simpl.
  - unfold sumZ. simpl. lia.
  - rewrite IH, Hbody. unfold sumZ. simpl. lia.
Qed.

Lemma forRange_nest b pl opp lo1 hi1 lo2 hi2 win s :
  Client.forRange lo1 hi1 (fun i =>
    Client.forRange lo2 hi2 (fun j =>
      Client.evaluateWindow pl opp (cellsOf b (win i j)))) s
  = s + sumZ (map (fun w => windowValue pl opp (cellsOf b w))
                (nest lo1 hi1 lo2 hi2 win)).
Proof.
  rewrite (forRange_add lo1 hi1 _
    (fun i => sumZ (map (fun w => windowValue pl opp (cellsOf b w))
                      (map (win i) (Client.interval lo2 hi2))))).
  - f_equal. unfold nest. generalize (Client.interval lo1 hi1). intros l.
    induction l as [|i l IH]; simpl; [done|].
    rewrite map_app, sumZ_app. unfold sumZ in *. simpl. by rewrite IH.
  - intros i s'. rewrite map_map.
    apply (forRange_add lo2 hi2 _
      (fun j => windowValue pl opp (cellsOf b (win i j)))).
    intros j s''. apply evaluateWindow_windowValue.
Qed.

Lemma centerLoop_centerMarks b pl :
  Client.forRange 0 ROWS
    (fun row n => if bool_decide (cell b row (COLS / 2) = Some pl) then n + 1 else n) 0
  = centerMarks b pl.
Proof.
  unfold centerMarks, Client.forRange.
  change (Client.interval 0 ROWS) with (range ROWS).
  assert (H : forall l n,
    fold_left (fun acc i =>
      if bool_decide (cell b i (COLS / 2) = Some pl) then acc + 1 else acc) l n
    = n + Z.of_nat (length (List.filter
                              (fun r => bool_decide (cell b r (COLS / 2) = Some pl)) l))).
  { induction l as [|i l IH]; intros n; simpl; [lia|].
    rewrite IH. case_bool_decide; simpl; lia. }
  rewrite H. lia.
Qed.

Lemma scorePosition_sum b pl :
  Client.scorePosition b pl
  = centerMarks b pl * 3
    + sumZ (map (fun w => windowValue pl (Client.opponentOf pl) (cellsOf b w))
              loopWindows).
Proof.
  set (opp := Client.opponentOf pl).
  set (ev := fun w => Client.evaluateWindow pl opp (cellsOf b w)).
  transitivity
    (Client.forRange 3 ROWS (fun row =>
       Client.forRange 0 (COLS - 3) (fun col => ev (winU row col)))
       (Client.forRange 0 (ROWS - 3) (fun row =>
          Client.forRange 0 (COLS - 3) (fun col => ev (winD row col)))
          (Client.forRange 0 COLS (fun col =>
             Client.forRange 0 (ROWS - 3) (fun row => ev (winV col row)))
             (Client.forRange 0 ROWS (fun row =>
                Client.forRange 0 (COLS - 3) (fun col => ev (winH row col)))
                (0 + Client.forRange 0 ROWS
                       (fun row n =>
                          if bool_decide (cell b row (COLS / 2) = Some pl)
                          then n + 1 else n) 0 * 3))))).
  { reflexivity. }
  subst ev. cbv beta. rewrite !forRange_nest, centerLoop_centerMarks.
  unfold loopWindows. rewrite !map_app, !sumZ_app. lia.
Qed.

Lemma removeOne_perm x l l' : removeOne x l = Some l' -> Permutation l (x :: l').
Proof.
  revert l'. induction l as [|y l IH]; intros l'; simpl; [discriminate|].
  case_bool_decide as E.
  - intros [= <-]. by subst.
  - destruct (removeOne x l) as [l''|]; [|discriminate]. intros [= <-].
    rewrite (IH l'' eq_refl). apply perm_swap.
Qed.

Lemma samePieces_perm l : forall l', samePieces l l' = true -> Permutation l l'.
Proof.
  induction l as [|x l IH]; intros l'; simpl.
  - destruct l'; [done|discriminate].
  - destruct (removeOne x l') as [l''|] eqn:E; [|discriminate]. intros H.
    rewrite (removeOne_perm _ _ _ E). constructor. by apply IH.
Qed.

(** [scorePosition] is a sum over the 69 windows of the board, whatever the
    order of the loops and the end from which a window is listed. *)
Lemma scorePosition_windows b pl :
  Client.scorePosition b pl
  = sumZ (map (fun w => windowValue pl (Client.opponentOf pl) (cellsOf b w))
            allWindows)
    + 3 * centerMarks b pl.
Proof.
  rewrite scorePosition_sum.
  set (F := fun w => windowValue pl (Client.opponentOf pl) (cellsOf b w)).
  assert (Hor : map F loopWindows = map F (map oriented loopWindows)).
  { rewrite map_map. apply map_ext. intros w. unfold F.
    by rewrite windowValue_oriented. }
  rewrite Hor.
  rewrite (sumZ_perm (map F (map oriented loopWindows)) (map F allWindows)).
  - lia.
  - apply Permutation_map, samePieces_perm. vm_compute. reflexivity.
Qed.

(** ** Joining a room *)

Lemma pickPlayerId_spec cs room :
  let taken := Server.takenSeats cs room in
  Server.pickPlayerId cs room
  = if bool_decide (P1 ∈ taken)
    then (if bool_decide (P2 ∈ taken) then None else Some P2)
    else Some P1.
Proof. unfold Server.pickPlayerId. cbn zeta. by repeat case_bool_decide. Qed.

(** C9, as the code has it.  The [join_room] handler rejects with
    ROOM_NOT_FOUND if no room has the code; else with ALREADY_IN_ROOM if the
    connection already occupies a room; else with ROOM_FULL if both player
    identities are taken; every rejection goes to the sender only and changes
    nothing.  Otherwise the connection gets P1 if P1 is free and else P2, is
    attached to the room, the sender is sent [room_joined] with the full
    state, and then the state is broadcast to every member of the room. *)
Theorem joinRoom_spec reg cid rc now :
  let client := Server.clientOf (Server.conns reg) cid in
  (Server.rooms reg !! rc = None ->
   Server.joinRoom reg cid rc now
   = (reg, [(cid, Server.error_msg (Some rc) Server.ROOM_NOT_FOUND "Room not found")])) /\
  (forall room, Server.rooms reg !! rc = Some room ->
   is_Some (Server.c_roomCode client) ->
   Server.joinRoom reg cid rc now
   = (reg, [(cid, Server.error_msg (Some rc) Server.ALREADY_IN_ROOM "Already in a room")])) /\
  (forall room, Server.rooms reg !! rc = Some room ->
   Server.c_roomCode client = None ->
   P1 ∈ Server.takenSeats (Server.conns reg) room ->
   P2 ∈ Server.takenSeats (Server.conns reg) room ->
   Server.joinRoom reg cid rc now
   = (reg, [(cid, Server.error_msg (Some rc) Server.ROOM_FULL "Room is full")])) /\
  (forall room, Server.rooms reg !! rc = Some room ->
   Server.c_roomCode client = None ->
   ~ (P1 ∈ Server.takenSeats (Server.conns reg) room /\
      P2 ∈ Server.takenSeats (Server.conns reg) room) ->
   let slot := if bool_decide (P1 ∈ Server.takenSeats (Server.conns reg) room)
               then P2 else P1 in
   exists reg' room',
     Server.joinRoom reg cid rc now
     = (reg', (cid, Server.room_joined rc slot (Server.state room'))
              :: map (fun c => (c, Server.state_msg rc (Server.state room')))
                   (Server.clients room')) /\
     Server.rooms reg' = <[rc := room']> (Server.rooms reg) /\
     Server.conns reg' !! cid = Some (Server.mkClient (Some rc) (Some slot)) /\
     Server.clients room' = Server.setAdd cid (Server.clients room) /\
     cid ∈ Server.clients room' /\
     Server.lastActiveAt room' = now).
Proof.
  cbn zeta. split; [|split; [|split]].
  - intros H. unfold Server.joinRoom. by rewrite H.
  - intros room H Hin. unfold Server.joinRoom. rewrite H.
    by rewrite bool_decide_eq_true_2.
  - intros room H Hnone H1 H2. unfold Server.joinRoom. rewrite H.
    rewrite bool_decide_eq_false_2 by (rewrite Hnone; by intros [? ?]).
    rewrite pickPlayerId_spec. cbn zeta.
    by rewrite !bool_decide_eq_true_2.
  - intros room H Hnone Hfree. unfold Server.joinRoom. rewrite H.
    rewrite bool_decide_eq_false_2 by (rewrite Hnone; by intros [? ?]).
    rewrite pickPlayerId_spec. cbn zeta.
    assert (Hslot :
      (if bool_decide (P1 ∈ Server.takenSeats (Server.conns reg) room)
       then (if bool_decide (P2 ∈ Server.takenSeats (Server.conns reg) room)
             then None else Some P2)
       else Some P1)
      = Some (if bool_decide (P1 ∈ Server.takenSeats (Server.conns reg) room)
              then P2 else P1)).
    { repeat case_bool_decide; try done. tauto. }
    rewrite Hslot.
    eexists _, _. split; [reflexivity|]. cbn.
    split; [done|]. split; [by rewrite lookup_insert_eq|]. split; [done|].
    split; [|done]. unfold Server.setAdd.
    destruct (decide (cid ∈ Server.clients room)) as [Hin|Hout].
    + by rewrite bool_decide_eq_true_2.
    + rewrite bool_decide_eq_false_2 by done.
      apply elem_of_app. right. by apply list_elem_of_singleton.
Qed.

Lemma joinRoom_spec_witness :
  exists reg' room',
    Server.joinRoom sampleRegistry "c2" "ABCDEF" 2000
    = (reg', ("c2", Server.room_joined "ABCDEF" P2 (Server.state room'))
             :: map (fun c => (c, Server.state_msg "ABCDEF" (Server.state room')))
                  (Server.clients room')) /\
    Server.clients room' = ["c1"; "c2"].
Proof.
  destruct (proj2 (proj2 (proj2 (joinRoom_spec sampleRegistry "c2" "ABCDEF" 2000)))
              sampleRoom)
    as (reg' & room' & Hj & _ & _ & Hcl & _).
  - reflexivity.
  - reflexivity.
  - intros [_ H2].
    assert (Ht : Server.takenSeats (Server.conns sampleRegistry) sampleRoom = [P1])
      by reflexivity.
    rewrite Ht in H2. apply list_elem_of_singleton in H2. discriminate.
  - exists reg', room'. split; [exact Hj|]. rewrite Hcl. reflexivity.
Defined.

(** The membership test does not come first: a connection that already
    occupies a room and asks for a code that names no room is told
    ROOM_NOT_FOUND, not ALREADY_IN_ROOM. *)
Lemma joinRoom_absent_room_first :
  is_Some (Server.c_roomCode (Server.clientOf (Server.conns sampleRegistry) "c1")) /\
  Server.rooms sampleRegistry !! "ZZZZZZ" = None /\
  Server.joinRoom sampleRegistry "c1" "ZZZZZZ" 2000
  = (sampleRegistry,
     [("c1", Server.error_msg (Some "ZZZZZZ") Server.ROOM_NOT_FOUND "Room not found")]) /\
  Server.joinRoom sampleRegistry "c1" "ZZZZZZ" 2000
  <> (sampleRegistry,
      [("c1", Server.error_msg (Some "ZZZZZZ") Server.ALREADY_IN_ROOM "Already in a room")]).
Proof.
  assert (Hnone : Server.rooms sampleRegistry !! "ZZZZZZ" = None) by reflexivity.
  assert (Hj : Server.joinRoom sampleRegistry "c1" "ZZZZZZ" 2000
    = (sampleRegistry,
       [("c1", Server.error_msg (Some "ZZZZZZ") Server.ROOM_NOT_FOUND "Room not found")])).
  { unfold Server.joinRoom. by rewrite Hnone. }
  split; [by eexists|]. split; [done|]. split; [done|].
  rewrite Hj. intros H. inversion H.
Qed.

(** ** The sweep of idle rooms *)

Lemma sweepStep_lookup now (acc : gmap string Server.Room) c room k :
  Server.sweepStep now acc (c, room) !! k
  = if bool_decide (c = k) && expired now room then None else acc !! k.
Proof.
  unfold Server.sweepStep, expired.
  destruct (0 <? Z.of_nat (length (Server.clients room))); cbn [negb andb].
  - by rewrite andb_false_r.
  - destruct (_ >? _); cbn [andb].
    + rewrite andb_true_r. case_bool_decide as E.
      * subst. apply lookup_delete_eq.
      * by apply lookup_delete_ne.
    + by rewrite andb_false_r.
Qed.

Lemma sweep_fold now k (l : list (string * Server.Room)) :
  forall acc : gmap string Server.Room,
  foldl (Server.sweepStep now) acc l !! k
  = if existsb (fun e => bool_decide (e.1 = k) && expired now e.2) l
    then None else acc !! k.
Proof.
  induction l as [|[c room] l IH]; intros acc; cbn [foldl existsb]; [done|].
  rewrite IH, sweepStep_lookup. cbn [fst snd].
  destruct (existsb _ l); [by rewrite orb_true_r|].
  rewrite orb_false_r. done.
Qed.

(** C10. After a sweep at time [now] the registry lacks exactly the rooms
    that had no attached client and a [lastActiveAt] more than the time to
    live before [now]; every other room is still there, unchanged.  In
    particular a room with an attached client stays, however long it has been
    idle. *)
Theorem sweep_spec now (rs : gmap string Server.Room) k :
  Server.sweep now rs !! k
  = match rs !! k with
    | Some room =>
        if bool_decide (Server.clients room = []
                        /\ now - Server.lastActiveAt room > Server.ROOM_TTL_MS)
        then None else Some room
    | None => None
    end /\
  (forall room, rs !! k = Some room -> Server.clients room <> [] ->
   Server.sweep now rs !! k = Some room).
Proof.
  assert (Hmain : Server.sweep now rs !! k
    = match rs !! k with
      | Some room =>
          if bool_decide (Server.clients room = []
                          /\ now - Server.lastActiveAt room > Server.ROOM_TTL_MS)
          then None else Some room
      | None => None
      end).
  { unfold Server.sweep. rewrite sweep_fold.
    destruct (rs !! k) as [room|] eqn:E.
    - assert (Hexp : expired now room
                     = bool_decide (Server.clients room = []
                         /\ now - Server.lastActiveAt room > Server.ROOM_TTL_MS)).
      { unfold expired. apply Bool.eq_iff_eq_true.
        rewrite bool_decide_eq_true, andb_true_iff, negb_true_iff, Z.ltb_ge, Z.gtb_gt.
        destruct (Server.clients room) as [|c cs]; cbn [length].
        - split; (intros [_ ?]; split; [done|lia]).
        - split; intros [? _]; [lia|done]. }
      rewrite <- Hexp.
      destruct (existsb _ _) eqn:Ex.
      + apply existsb_exists in Ex as ([c room'] & Hin & Hc).
        apply andb_prop in Hc as [Hc He]. apply bool_decide_eq_true in Hc.
        simpl in Hc, He. subst c.
        apply list_elem_of_In, elem_of_map_to_list in Hin.
        rewrite E in Hin. inversion Hin; subst. by rewrite He.
      + destruct (expired now room) eqn:He; [|done].
        assert (Hex : existsb
          (fun e : string * Server.Room => bool_decide (e.1 = k) && expired now e.2)
          (map_to_list rs) = true); [|congruence].
        apply existsb_exists. exists (k, room). split.
        * by apply list_elem_of_In, elem_of_map_to_list.
        * simpl. by rewrite bool_decide_eq_true_2.
    - destruct (existsb _ _) eqn:Ex; [done|]. done. }
  split; [done|].
  intros room Hk Hcl. rewrite Hmain, Hk.
  rewrite bool_decide_eq_false_2; [done|]. by intros [? _].
Qed.

Lemma sweep_spec_witness :
  Server.sweep 100000000 (Server.rooms sampleRegistry) !! "ABCDEF" = Some sampleRoom.
Proof.
  apply (proj2 (sweep_spec 100000000 (Server.rooms sampleRegistry) "ABCDEF")).
  - reflexivity.
  - discriminate.
Defined.

(** * Further properties *)

(** ** The client's board operations *)

Lemma getAvailableRow_hasEmpty b col :
  wfBoard b ->
  (Client.getAvailableRow b col = -1 <-> ~ hasEmpty b col) /\
  (hasEmpty b col ->
   0 <= Client.getAvailableRow b col < 6 /\
   lowestEmpty b col (Client.getAvailableRow b col)).
Proof.
  intros Hwf. unfold Client.getAvailableRow.
  destruct (availLoop_spec b col (Z.to_nat ROWS)) as [[Heq Hall]|(Hr & H0 & Hlow)].
  - assert (Hno : ~ hasEmpty b col).
    { intros [r Hr]. destruct (cell_Some_inb _ _ _ _ Hwf Hr) as [Hrr _].
      apply (Hall r); [unfold ROWS; lia|done]. }
    split; [by rewrite Heq|]. intros He. by destruct Hno.
  - unfold ROWS in *. split.
    + split; [lia|]. intros Hno. exfalso. apply Hno. by eexists.
    + intros _. split; [lia|]. split; [done|]. intros r Hr'.
      destruct (decide (r < 6)); [apply Hlow; lia|].
      intros Hc. apply (cell_Some_inb _ _ _ _ Hwf) in Hc. lia.
Qed.

(** X1. On a 6x7 board [getAvailableRow] answers -1 exactly for a column
    without an empty cell (any column outside 0..6 among them); otherwise it
    answers the lowest empty row of the column, a row in 0..5. *)
Theorem getAvailableRow_spec b col :
  wfBoard b ->
  (Client.getAvailableRow b col = -1 <-> ~ hasEmpty b col) /\
  (hasEmpty b col ->
   0 <= Client.getAvailableRow b col < 6 /\
   lowestEmpty b col (Client.getAvailableRow b col)).
Proof. apply getAvailableRow_hasEmpty. Qed.

Lemma getAvailableRow_spec_witness :
  Client.getAvailableRow threeInRow 0 = 3 /\ lowestEmpty threeInRow 0 3.
Proof.
  split; [reflexivity|].
  apply (proj2 (getAvailableRow_spec threeInRow 0 wfBoard_threeInRow)).
  exists 0. reflexivity.
Defined.

(** X2. On a 6x7 board the client's [applyMove] answers [null] exactly for a
    column without an empty cell; otherwise the new board is again 6x7, holds
    the player's mark in the lowest empty cell of the column and agrees with
    the old board everywhere else. *)
Theorem client_applyMove_spec b col pl :
  wfBoard b ->
  (Client.applyMove b col pl = None <-> ~ hasEmpty b col) /\
  (forall nb, Client.applyMove b col pl = Some nb ->
     wfBoard nb /\
     exists row, lowestEmpty b col row /\ cell nb row col = Some pl /\
       forall r c, (r, c) <> (row, col) -> cell nb r c = cell b r c).
Proof.
  intros Hwf. split.
  - destruct (getAvailableRow_hasEmpty b col Hwf) as [Hiff Hsome].
    unfold Client.applyMove. split.
    + destruct (_ <? 0) eqn:E; [|discriminate]. intros _ He.
      destruct (Hsome He) as [Hr _]. apply Z.ltb_lt in E. lia.
    + intros Hno. apply Hiff in Hno. by rewrite Hno.
  - intros nb Hm. apply (client_applyMove_inv _ _ _ _ Hwf) in Hm as [Hlow ->].
    split; [by apply wfBoard_setCell|].
    exists (Client.getAvailableRow b col). split; [done|].
    destruct Hlow as [H0 _]. destruct (cell_Some_nonneg _ _ _ _ H0).
    split; [by eapply cell_setCell_eq|].
    intros r c Hne. by apply cell_setCell_ne.
Qed.

Lemma client_applyMove_spec_witness :
  exists nb, Client.applyMove threeInRow 3 1 = Some nb /\ wfBoard nb.
Proof.
  exists (setCell threeInRow 5 3 1). split; [reflexivity|].
  apply (proj2 (client_applyMove_spec threeInRow 3 1 wfBoard_threeInRow)
           (setCell threeInRow 5 3 1)).
  reflexivity.
Defined.

Lemma getValidColumns_elem b col :
  wfBoard b ->
  (col ∈ Client.getValidColumns b <-> 0 <= col < 7 /\ hasEmpty b col).
Proof.
  intros Hwf. unfold Client.getValidColumns.
  rewrite list_elem_of_In, filter_In, <- list_elem_of_In, elem_of_range.
  destruct (getAvailableRow_hasEmpty b col Hwf) as [Hiff Hsome].
  unfold COLS. split.
  - intros [Hc Hne]. split; [done|].
    destruct (Client.getAvailableRow b col =? -1) eqn:E; [done|].
    apply Z.eqb_neq in E.
    destruct (availLoop_spec b col (Z.to_nat ROWS)) as [[Heq _]|(_ & H0 & _)].
    + by destruct E.
    + by eexists.
  - intros [Hc He]. split; [done|]. destruct (Hsome He) as [Hr _].
    destruct (Client.getAvailableRow b col =? -1) eqn:E; [|done].
    apply Z.eqb_eq in E. lia.
Qed.

Lemma getValidColumns_nil_iff b :
  wfBoard b ->
  (Client.getValidColumns b = [] <-> Client.isBoardFull b = true).
Proof.
  intros Hwf. rewrite isBoardFull_cells. split.
  - intros Hnil r c Hc.
    destruct (cell_Some_inb _ _ _ _ Hwf Hc) as [_ Hcc].
    assert (Hin : c ∈ Client.getValidColumns b).
    { apply getValidColumns_elem; [done|]. split; [done|]. by exists r. }
    rewrite Hnil in Hin. by apply elem_of_nil in Hin.
  - intros Hfull. destruct (Client.getValidColumns b) as [|c l] eqn:E; [done|].
    assert (Hin : c ∈ Client.getValidColumns b) by (rewrite E; left).
    apply getValidColumns_elem in Hin as [_ [r Hr]]; [|done].
    by destruct (Hfull r c).
Qed.

(** X3. On a 6x7 board [getValidColumns] lists exactly the columns 0..6 that
    have an empty cell, in increasing order and each once; it is empty
    exactly when [isBoardFull] holds. *)
Theorem getValidColumns_spec b :
  wfBoard b ->
  (forall col, col ∈ Client.getValidColumns b <-> 0 <= col < 7 /\ hasEmpty b col) /\
  sublist (Client.getValidColumns b) [0; 1; 2; 3; 4; 5; 6] /\
  NoDup (Client.getValidColumns b) /\
  (Client.getValidColumns b = [] <-> Client.isBoardFull b = true).
Proof.
  intros Hwf. split; [intros col; by apply getValidColumns_elem|].
  split; [apply getValidColumns_order|]. split.
  - apply (sublist_NoDup _ [0; 1; 2; 3; 4; 5; 6]); [|apply getValidColumns_order].
    apply (bool_decide_unpack (NoDup [0; 1; 2; 3; 4; 5; 6])). by vm_compute.
  - by apply getValidColumns_nil_iff.
Qed.

Lemma getValidColumns_spec_witness :
  4 ∈ Client.getValidColumns threeInRow /\ NoDup (Client.getValidColumns threeInRow).
Proof.
  destruct (getValidColumns_spec threeInRow wfBoard_threeInRow) as (Hin & _ & Hnd & _).
  split; [|exact Hnd]. apply Hin. split; [lia|]. exists 0. reflexivity.
Defined.

Lemma extend_cells b row col dr dc pl ks : forall cs,
  length (Client.extend b row col dr dc pl ks cs) = (length cs + length ks)%nat ->
  Client.extend b row col dr dc pl ks cs
  = cs ++ map (fun k => (row + dr * k, col + dc * k)) ks.
Proof.
  induction ks as [|k ks IH]; intros cs; simpl.
  - intros _. by rewrite app_nil_r.
  - destruct (_ || _); [lia|]. destruct (negb _); [lia|].
    intros H. rewrite IH.
    + by rewrite <- app_assoc.
    + rewrite H, length_app. simpl. lia.
Qed.

(** X4. On a 6x7 board [checkWinner] answers [null] exactly when the board
    has no 4-in-a-row.  Otherwise the winner it reports is a player's mark,
    and the four cells it reports are a line of that mark: four cells in a
    row along one of the four directions, each holding the winner's mark. *)
Theorem checkWinner_spec b :
  wfBoard b ->
  (Client.checkWinner b = None <-> ~ fourInARow b) /\
  (forall w, Client.checkWinner b = Some w ->
     exists v r c d,
       v <> 0 /\ d ∈ directions /\
       Client.player w = Some v /\
       Client.cells w = windowFrom r c d /\
       Forall (fun p => cell b p.1 p.2 = Some v) (Client.cells w)).
Proof.
  intros Hwf. split; [by apply checkWinner_None_iff|].
  intros w H. unfold Client.checkWinner in H.
  apply firstSome_Some in H as (row & Hrow & H).
  apply firstSome_Some in H as (col & Hcol & H).
  apply elem_of_range in Hrow, Hcol.
  destruct (cell_inb_Some b row col Hwf Hrow Hcol) as [v Hv].
  unfold Client.winnerAt in H. rewrite Hv in H.
  case_bool_decide as Hz; [discriminate|].
  apply firstSome_Some in H as ([dr dc] & Hd & H).
  remember (Client.extend b row col dr dc (Some v) [1; 2; 3] [(row, col)])
    as cs eqn:Hcs.
  case_bool_decide as Hlen; [|discriminate]. injection H as <-.
  rewrite Hcs in Hlen.
  pose proof (extend_cells b row col dr dc (Some v) [1; 2; 3] [(row, col)] Hlen) as Hcells.
  pose proof (proj1 (extend_length b row col dr dc (Some v) [1; 2; 3] [(row, col)]) Hlen)
    as Hall.
  rewrite <- Hcs in Hcells. clear Hcs Hlen.
  exists v, row, col, (dr, dc). cbn [Client.player Client.cells].
  rewrite Hcells.
  split; [congruence|]. split; [done|]. split; [done|]. split.
  - unfold windowFrom. cbn [map app fst snd].
    repeat match goal with
           | |- _ :: _ = _ :: _ => apply (f_equal2 cons)
           | |- (_, _) = (_, _) => apply (f_equal2 pair)
           end; try lia; reflexivity.
  - cbn [map app]. constructor; [done|].
    inversion Hall as [|? ? [_ H1] Hall1]; subst.
    inversion Hall1 as [|? ? [_ H2] Hall2]; subst.
    inversion Hall2 as [|? ? [_ H3] _]; subst.
    repeat constructor; done.
Qed.

Lemma checkWinner_spec_witness :
  exists w, Client.checkWinner finishedBoard = Some w /\
            Client.cells w = windowFrom 2 0 (1, 0).
Proof.
  assert (Hwf : wfBoard finishedBoard) by (split; [reflexivity|repeat constructor]).
  destruct (Client.checkWinner finishedBoard) as [w|] eqn:E; [|discriminate E].
  exists w. split; [reflexivity|].
  destruct (proj2 (checkWinner_spec finishedBoard Hwf) w E)
    as (v & r & c & d & _ & _ & _ & Hc & _).
  vm_compute in E. inversion E; subst w. reflexivity.
Defined.

(** ** The choice of the computer's move *)

Lemma firstWith_elem s l c : firstWith s l = Some c -> c ∈ map fst l.
Proof.
  unfold firstWith. destruct (List.find _ l) as [[c' s']|] eqn:E; [|discriminate].
  intros [= <-]. apply find_some in E as [Hin _].
  apply list_elem_of_In in Hin. by apply (list_elem_of_fmap_2 fst) in Hin.
Qed.

Lemma elem_of_map_take {A B} (f : A -> B) n (l : list A) x :
  x ∈ map f (take n l) -> x ∈ map f l.
Proof.
  intros H. apply list_elem_of_fmap in H as (y & -> & Hy).
  apply list_elem_of_fmap_2. by apply (subseteq_take n l).
Qed.

(** The column that the search returns is a legal one. *)
Lemma minimax_col_valid d b alpha beta mx pl c :
  (Client.minimax d b alpha beta mx pl).2 = Some c ->
  c ∈ Client.getValidColumns b.
Proof.
  destruct (Client.wonBy (Client.checkWinner b) pl) eqn:H1.
  { destruct d; cbn [Client.minimax]; rewrite H1; discriminate. }
  destruct (Client.wonBy (Client.checkWinner b) (Client.opponentOf pl)) eqn:H2.
  { destruct d; cbn [Client.minimax]; rewrite H1, H2; discriminate. }
  destruct d as [|d].
  { cbn [Client.minimax]. rewrite H1, H2. discriminate. }
  destruct (decide (Client.getValidColumns b = [])) as [Hv|Hv].
  { cbn [Client.minimax]. rewrite H1, H2, Hv. discriminate. }
  rewrite minimax_node by done. destruct mx.
  - destruct (maxLoop_pruned (fun nb a be => Client.minimax d nb a be false pl)
                b pl (Client.getValidColumns b) alpha beta Hv
                (validColumns_legal b pl)
                (fun nb a be => minimax_finite d nb a be false pl))
      as (n & Hn & -> & _).
    cbn [snd]. intros H. apply firstWith_elem, elem_of_map_take in H.
    by rewrite maxScan_columns in H by apply validColumns_legal.
  - destruct (minLoop_pruned (fun nb a be => Client.minimax d nb a be true pl)
                b (Client.opponentOf pl) (Client.getValidColumns b) alpha beta Hv
                (validColumns_legal b _)
                (fun nb a be => minimax_finite d nb a be true pl))
      as (n & Hn & -> & _).
    cbn [snd]. intros H. apply firstWith_elem, elem_of_map_take in H.
    by rewrite minScan_columns in H by apply validColumns_legal.
Qed.

Lemma pickRandom_elem draw (l : list Z) :
  l <> [] -> exists c, Client.pickRandom draw l = Some c /\ c ∈ l.
Proof.
  intros Hne. unfold Client.pickRandom.
  destruct (lookup_lt_is_Some_2 l (draw `mod` length l)%nat) as [c Hc].
  - apply Nat.mod_upper_bound. destruct l; [done|]. simpl. lia.
  - exists c. split; [done|]. by eapply list_elem_of_lookup_2.
Qed.

Lemma chooseComputerMove_valid draw b difficulty pl :
  (Client.chooseComputerMove draw b difficulty pl = None <->
   Client.getValidColumns b = []) /\
  (forall c, Client.chooseComputerMove draw b difficulty pl = Some c ->
     c ∈ Client.getValidColumns b).
Proof.
  unfold Client.chooseComputerMove.
  destruct (decide (Client.getValidColumns b = [])) as [Hv|Hv].
  { rewrite Hv. simpl. split; [done|]. discriminate. }
  rewrite bool_decide_eq_false_2
    by (intros Hlen; by apply nil_length_inv in Hlen).
  destruct (pickRandom_elem draw _ Hv) as (cr & Hcr & Hin).
  assert (Hor : forall x, (forall c, x = Some c -> c ∈ Client.getValidColumns b) ->
    Client.orElse x (Client.pickRandom draw (Client.getValidColumns b)) <> None /\
    forall c, Client.orElse x (Client.pickRandom draw (Client.getValidColumns b)) = Some c ->
      c ∈ Client.getValidColumns b).
  { intros [x|] Hx; simpl.
    - split; [done|]. intros c [= <-]. by apply Hx.
    - rewrite Hcr. split; [done|]. by intros c [= <-]. }
  assert (Hfw : forall p c, Client.findWinningMove b p = Some c ->
    c ∈ Client.getValidColumns b).
  { intros p c H. by apply findWinningMove_Some in H as [? _]. }
  destruct difficulty.
  - rewrite Hcr. split; [split; [discriminate|done]|]. by intros c [= <-].
  - destruct (Client.findWinningMove b pl) as [c0|] eqn:E.
    + split; [split; [discriminate|done]|]. intros c [= <-]. by eapply Hfw.
    + destruct (Hor (Client.findWinningMove b (Client.opponentOf pl)) (Hfw _))
        as [Hn Hs].
      split; [split; [done|done]|done].
  - destruct (Client.findWinningMove b pl) as [c0|] eqn:E.
    + split; [split; [discriminate|done]|]. intros c [= <-]. by eapply Hfw.
    + destruct (Client.findWinningMove b (Client.opponentOf pl)) as [c1|] eqn:E1.
      * split; [split; [discriminate|done]|]. intros c [= <-]. by eapply Hfw.
      * destruct (Hor (Client.minimax 4 b NegInf PosInf true pl).2
                    (minimax_col_valid 4 b NegInf PosInf true pl)) as [Hn Hs].
        split; [split; [done|done]|done].
Qed.

(** X5. At every difficulty [chooseComputerMove] answers [null] exactly when
    no column is legal; any column it answers is one of 0..6 with an empty
    cell, so the move can be applied. *)
Theorem chooseComputerMove_legal draw b difficulty pl :
  wfBoard b ->
  (Client.chooseComputerMove draw b difficulty pl = None <->
   Client.getValidColumns b = []) /\
  (forall c, Client.chooseComputerMove draw b difficulty pl = Some c ->
     0 <= c < 7 /\ hasEmpty b c /\ is_Some (Client.applyMove b c pl)).
Proof.
  intros Hwf. destruct (chooseComputerMove_valid draw b difficulty pl) as [Hn Hs].
  split; [done|]. intros c Hc. specialize (Hs c Hc).
  pose proof (validColumn_legal b c pl Hs) as Hl.
  apply getValidColumns_elem in Hs as [? ?]; done.
Qed.

Lemma chooseComputerMove_legal_witness :
  exists c, Client.chooseComputerMove 5 threeInRow easy 2 = Some c /\
            0 <= c < 7 /\ hasEmpty threeInRow c.
Proof.
  destruct (Client.chooseComputerMove 5 threeInRow easy 2) as [c|] eqn:E;
    [|discriminate E].
  exists c. split; [reflexivity|].
  destruct (proj2 (chooseComputerMove_legal 5 threeInRow easy 2 wfBoard_threeInRow) c E)
    as (Hc & He & _).
  split; [exact Hc|exact He].
Defined.

Lemma opponentOf_nonzero pl : Client.opponentOf pl <> 0.
Proof. unfold Client.opponentOf. by destruct (pl =? 1). Qed.

(** X6. On a board still in play where no legal column gives the computer an
    immediate 4-in-a-row but some legal column would give one to the
    opponent, [chooseComputerMove] at Medium and at Hard answers a column in
    which the opponent would complete a 4-in-a-row: it blocks. *)
Theorem chooseComputerMove_blocks draw b difficulty pl :
  wfBoard b ->
  ~ fourInARow b ->
  pl <> 0 ->
  difficulty = medium \/ difficulty = hard ->
  (forall col nb, Client.applyMove b col pl = Some nb -> ~ fourOf nb pl) ->
  (exists col nb, col ∈ Client.getValidColumns b /\
     Client.applyMove b col (Client.opponentOf pl) = Some nb /\
     fourOf nb (Client.opponentOf pl)) ->
  exists c nb,
    Client.chooseComputerMove draw b difficulty pl = Some c /\
    c ∈ Client.getValidColumns b /\
    Client.applyMove b c (Client.opponentOf pl) = Some nb /\
    fourOf nb (Client.opponentOf pl).
Proof.
  intros Hwf Hno Hpl Hdiff Hnowin (col & nb & Hcol & Hnb & Hfour).
  set (opp := Client.opponentOf pl) in *.
  assert (Hopp : opp <> 0) by apply opponentOf_nonzero.
  assert (Hmine : Client.findWinningMove b pl = None).
  { destruct (Client.findWinningMove b pl) as [c|] eqn:E; [|done]. exfalso.
    apply findWinningMove_Some in E as (_ & nb' & Hnb' & Hw).
    apply (wonBy_after_move b c pl nb' Hwf Hno Hpl Hnb') in Hw.
    by apply (Hnowin c nb'). }
  assert (Hw : Client.wonBy (Client.checkWinner nb) opp = true).
  { by apply (wonBy_after_move b col opp nb). }
  destruct (findWinningMove_exists b opp col nb Hcol Hnb Hw) as [c Hc].
  destruct (findWinningMove_Some b opp c Hc) as (Hcv & nb' & Hnb' & Hw').
  exists c, nb'. split; [|split; [done|split; [done|]]].
  - unfold Client.chooseComputerMove.
    rewrite bool_decide_eq_false_2.
    + fold opp. destruct Hdiff as [-> | ->]; by rewrite Hmine, Hc.
    + intros Hlen. apply nil_length_inv in Hlen. rewrite Hlen in Hcol.
      by apply elem_of_nil in Hcol.
  - by apply (wonBy_after_move b c opp nb').
Qed.

Lemma chooseComputerMove_blocks_witness :
  exists c nb,
    Client.chooseComputerMove 0 threeInRow medium 2 = Some c /\
    c ∈ Client.getValidColumns threeInRow /\
    Client.applyMove threeInRow c 1 = Some nb /\ fourOf nb 1.
Proof.
  assert (Hwf := wfBoard_threeInRow).
  apply (chooseComputerMove_blocks 0 threeInRow medium 2).
  - exact Hwf.
  - apply checkWinner_None_iff; [exact Hwf|reflexivity].
  - lia.
  - left. reflexivity.
  - intros col nb Hm Hf.
    assert (Hw : Client.findWinningMove threeInRow 2 = None) by reflexivity.
    assert (Hcol : col ∈ Client.getValidColumns threeInRow).
    { apply (client_applyMove_inv _ _ _ _ Hwf) in Hm as [[H0 _] _].
      apply getValidColumns_elem; [exact Hwf|].
      split; [exact (proj2 (cell_Some_inb _ _ _ _ Hwf H0))|by eexists]. }
    assert (Hwon : Client.wonBy (Client.checkWinner nb) 2 = true).
    { apply (wonBy_after_move threeInRow col 2 nb); [exact Hwf| |lia|exact Hm|exact Hf].
      apply checkWinner_None_iff; [exact Hwf|reflexivity]. }
    destruct (findWinningMove_exists threeInRow 2 col nb Hcol Hm Hwon) as [c Hc].
    rewrite Hw in Hc. discriminate Hc.
  - exists 3, (setCell threeInRow 5 3 1).
    split; [do 3 right; left|]. split; [reflexivity|].
    apply fourOfb_spec; [apply wfBoard_setCell, Hwf|reflexivity].
Defined.

(** ** Pruning does not change the result of the search *)

Module ScoreTotal <: IsTotalOrder ScoreOrd.
Definition eq_equiv : Equivalence ScoreOrd.eq := eq_equivalence.
Lemma lt_strorder : StrictOrder ScoreOrd.lt.
Proof.
  split.
  - intros x [H]. by rewrite score_lt_irrefl in H.
  - intros x y z [H1] [H2]. constructor. by eapply score_lt_trans.
Qed.
Lemma lt_compat : Proper (ScoreOrd.eq ==> ScoreOrd.eq ==> iff) ScoreOrd.lt.
Proof. intros x x' -> y y' ->. reflexivity. Qed.
Lemma le_lteq x y : ScoreOrd.le x y <-> ScoreOrd.lt x y \/ ScoreOrd.eq x y.
Proof.
  unfold ScoreOrd.eq. split.
  - intros [H]. destruct (score_lt x y) eqn:E; [by left|right].
    by apply score_lt_total.
  - intros [[H]| ->]; constructor; [by apply score_lt_asym|apply score_lt_irrefl].
Qed.
Lemma lt_total x y : ScoreOrd.lt x y \/ ScoreOrd.eq x y \/ ScoreOrd.lt y x.
Proof.
  unfold ScoreOrd.eq.
  destruct (score_lt x y) eqn:E1; [by left|].
  destruct (score_lt y x) eqn:E2; [by right; right|].
  right; left. by apply score_lt_total.
Qed.
End ScoreTotal.

Module ScoreTac := MakeOrderTac ScoreOrd ScoreTotal.

Lemma score_lt_cases a b : {score_lt a b = true} + {score_lt a b = false}.
Proof. destruct (score_lt a b); [by left|by right]. Qed.

Lemma score_max_spec a b :
  (score_lt a b = true /\ score_max a b = b) \/
  (score_lt a b = false /\ score_max a b = a).
Proof. unfold score_max. destruct (score_lt a b); [by left|by right]. Qed.

Lemma score_min_spec a b :
  (score_lt b a = true /\ score_min a b = b) \/
  (score_lt b a = false /\ score_min a b = a).
Proof. unfold score_min. destruct (score_lt b a); [by left|by right]. Qed.

(** Comparisons of scores, decided by the laws of a total order: split on
    every maximum and minimum, settle the premises of implications, then
    chain the facts. *)
Ltac score_split :=
  repeat match goal with
         | |- context [score_max ?a ?b] =>
             let H := fresh in let E := fresh in
             destruct (score_max_spec a b) as [[H E]|[H E]]; rewrite E in *; clear E
         | H0 : context [score_max ?a ?b] |- _ =>
             let H := fresh in let E := fresh in
             destruct (score_max_spec a b) as [[H E]|[H E]]; rewrite E in *; clear E
         | |- context [score_min ?a ?b] =>
             let H := fresh in let E := fresh in
             destruct (score_min_spec a b) as [[H E]|[H E]]; rewrite E in *; clear E
         | H0 : context [score_min ?a ?b] |- _ =>
             let H := fresh in let E := fresh in
             destruct (score_min_spec a b) as [[H E]|[H E]]; rewrite E in *; clear E
         | H : score_lt ?a ?b = true -> _ |- _ =>
             let E := fresh in
             destruct (score_lt_cases a b) as [E|E]; [specialize (H E)|clear H]
         | H : score_lt ?a ?b = false -> _ |- _ =>
             let E := fresh in
             destruct (score_lt_cases a b) as [E|E]; [clear H|specialize (H E)]
         | H : negb _ = true |- _ => apply negb_true_iff in H
         | H : negb _ = false |- _ => apply negb_false_iff in H
         | H : _ /\ _ |- _ => destruct H
         end.

Ltac score_facts :=
  repeat match goal with
         | H : score_lt ?a ?b = true |- _ =>
             apply sLt_intro in H; change (ScoreOrd.lt a b) in H
         | H : score_lt ?a ?b = false |- _ =>
             apply sLe_intro in H; change (ScoreOrd.le b a) in H
         end.

Ltac score_goal :=
  match goal with
  | |- score_lt ?a ?b = true => cut (ScoreOrd.lt a b); [by intros []|]
  | |- score_lt ?a ?b = false => cut (ScoreOrd.le b a); [by intros []|]
  | |- @Logic.eq Score ?a ?b => change (ScoreOrd.eq a b)
  | |- False => idtac
  end.

Ltac score_order :=
  unfold bounds, score_le, score_ge in *;
  intros; score_split;
  repeat match goal with
         | |- _ /\ _ => split
         | |- _ -> _ => intro
         end;
  score_split; score_facts; score_goal; ScoreTac.order.

Lemma bounds_refl alpha beta v : bounds alpha beta v v.
Proof. unfold bounds, score_le. split; [|split]; intros; try done; apply score_lt_irrefl. Qed.

Lemma bounds_step alpha beta best P v x :
  score_lt alpha beta = true ->
  score_lt (score_max alpha best) beta = true ->
  bounds alpha beta best P ->
  bounds (score_max alpha best) beta v x ->
  bounds alpha beta (score_max best v) (score_max P x).
Proof. score_order. Qed.

Lemma bounds_step_min alpha beta best P v x :
  score_lt alpha beta = true ->
  score_lt alpha (score_min beta best) = true ->
  bounds alpha beta best P ->
  bounds alpha (score_min beta best) v x ->
  bounds alpha beta (score_min best v) (score_min P x).
Proof. score_order. Qed.

Lemma bounds_prune alpha beta best v x X :
  score_lt alpha beta = true ->
  score_lt (score_max alpha best) beta = true ->
  score_ge (score_max (score_max alpha best) (score_max best v)) beta = true ->
  bounds (score_max alpha best) beta v x ->
  score_le x X ->
  bounds alpha beta (score_max best v) X.
Proof. score_order. Qed.

Lemma bounds_prune_min alpha beta best v x X :
  score_lt alpha beta = true ->
  score_lt alpha (score_min beta best) = true ->
  score_ge alpha (score_min (score_min beta best) (score_min best v)) = true ->
  bounds alpha (score_min beta best) v x ->
  score_le X x ->
  bounds alpha beta (score_min best v) X.
Proof. score_order. Qed.

Lemma alpha_update alpha best v :
  score_max (score_max alpha best) (score_max best v)
  = score_max alpha (score_max best v).
Proof. score_order. Qed.

Lemma beta_update beta best v :
  score_min (score_min beta best) (score_min best v)
  = score_min beta (score_min best v).
Proof. score_order. Qed.

Lemma plainMaxLoop_ge pchild b pl cols : forall P pcol,
  score_le P (plainMaxLoop pchild b pl cols P pcol).1.
Proof.
  induction cols as [|col rest IH]; intros P pcol; simpl.
  - apply score_lt_irrefl.
  - destruct (Client.applyMove b col pl) as [nb|]; [|apply IH].
    destruct (score_lt P (pchild nb).1) eqn:E.
    + specialize (IH (pchild nb).1 (Some col)). revert IH.
      generalize (plainMaxLoop pchild b pl rest (pchild nb).1 (Some col)).1.
      intros X HX. score_order.
    + apply IH.
Qed.

Lemma plainMinLoop_le pchild b pl cols : forall P pcol,
  score_le (plainMinLoop pchild b pl cols P pcol).1 P.
Proof.
  induction cols as [|col rest IH]; intros P pcol; simpl.
  - apply score_lt_irrefl.
  - destruct (Client.applyMove b col pl) as [nb|]; [|apply IH].
    destruct (score_lt (pchild nb).1 P) eqn:E.
    + specialize (IH (pchild nb).1 (Some col)). revert IH.
      generalize (plainMinLoop pchild b pl rest (pchild nb).1 (Some col)).1.
      intros X HX. score_order.
    + apply IH.
Qed.

(** The score part of the unpruned loops is a running maximum (minimum). *)
Lemma plainMaxLoop_cons pchild b pl col rest nb P pcol :
  Client.applyMove b col pl = Some nb ->
  exists pcol',
    plainMaxLoop pchild b pl (col :: rest) P pcol
    = plainMaxLoop pchild b pl rest (score_max P (pchild nb).1) pcol'.
Proof.
  intros H. simpl. rewrite H. unfold score_max.
  destruct (score_lt P (pchild nb).1); eauto.
Qed.

Lemma plainMinLoop_cons pchild b pl col rest nb P pcol :
  Client.applyMove b col pl = Some nb ->
  exists pcol',
    plainMinLoop pchild b pl (col :: rest) P pcol
    = plainMinLoop pchild b pl rest (score_min P (pchild nb).1) pcol'.
Proof.
  intros H. simpl. rewrite H. unfold score_min.
  destruct (score_lt (pchild nb).1 P); eauto.
Qed.

Lemma maxLoop_bounds child pchild b pl cols :
  (forall nb a be, score_lt a be = true ->
     bounds a be (child nb a be).1 (pchild nb).1) ->
  forall alpha beta best bcol P pcol,
    score_lt alpha beta = true ->
    score_lt (score_max alpha best) beta = true ->
    bounds alpha beta best P ->
    bounds alpha beta
      (Client.maxLoop child b pl cols (score_max alpha best) beta best bcol).1
      (plainMaxLoop pchild b pl cols P pcol).1.
Proof.
  intros Hchild. induction cols as [|col rest IH];
    intros alpha beta best bcol P pcol Hab Hrun Hb.
  - done.
  - destruct (Client.applyMove b col pl) as [nb|] eqn:Hm.
    2:{ simpl. rewrite Hm. by apply IH. }
    destruct (plainMaxLoop_cons pchild b pl col rest nb P pcol Hm) as [pcol' ->].
    cbn [Client.maxLoop]. rewrite Hm. cbn zeta.
    set (v := (child nb (score_max alpha best) beta).1).
    pose proof (Hchild nb _ _ Hrun) as Hv. fold v in Hv.
    change (if score_lt best v then v else best) with (score_max best v).
    destruct (score_ge (score_max (score_max alpha best) (score_max best v)) beta)
      eqn:Hcut.
    + cbn [fst]. eapply (bounds_prune alpha beta best v); try done.
      pose proof (plainMaxLoop_ge pchild b pl rest (score_max P (pchild nb).1) pcol')
        as HX.
      revert HX.
      generalize (plainMaxLoop pchild b pl rest (score_max P (pchild nb).1) pcol').1.
      generalize (pchild nb).1. clear. intros x X HX. score_order.
    + rewrite alpha_update in *. apply IH; [done| |by apply bounds_step].
      unfold score_ge in Hcut. by apply negb_false_iff in Hcut.
Qed.

Lemma minLoop_bounds child pchild b pl cols :
  (forall nb a be, score_lt a be = true ->
     bounds a be (child nb a be).1 (pchild nb).1) ->
  forall alpha beta best bcol P pcol,
    score_lt alpha beta = true ->
    score_lt alpha (score_min beta best) = true ->
    bounds alpha beta best P ->
    bounds alpha beta
      (Client.minLoop child b pl cols alpha (score_min beta best) best bcol).1
      (plainMinLoop pchild b pl cols P pcol).1.
Proof.
  intros Hchild. induction cols as [|col rest IH];
    intros alpha beta best bcol P pcol Hab Hrun Hb.
  - done.
  - destruct (Client.applyMove b col pl) as [nb|] eqn:Hm.
    2:{ simpl. rewrite Hm. by apply IH. }
    destruct (plainMinLoop_cons pchild b pl col rest nb P pcol Hm) as [pcol' ->].
    cbn [Client.minLoop]. rewrite Hm. cbn zeta.
    set (v := (child nb alpha (score_min beta best)).1).
    pose proof (Hchild nb _ _ Hrun) as Hv. fold v in Hv.
    change (if score_lt v best then v else best) with (score_min best v).
    destruct (score_ge alpha (score_min (score_min beta best) (score_min best v)))
      eqn:Hcut.
    + cbn [fst]. eapply (bounds_prune_min alpha beta best v); try done.
      pose proof (plainMinLoop_le pchild b pl rest (score_min P (pchild nb).1) pcol')
        as HX.
      revert HX.
      generalize (plainMinLoop pchild b pl rest (score_min P (pchild nb).1) pcol').1.
      generalize (pchild nb).1. clear. intros x X HX. score_order.
    + rewrite beta_update in *. apply IH; [done| |by apply bounds_step_min].
      unfold score_ge in Hcut. by apply negb_false_iff in Hcut.
Qed.

Lemma score_max_NegInf alpha : score_max alpha NegInf = alpha.
Proof. by destruct alpha. Qed.

Lemma score_min_PosInf beta : score_min beta PosInf = beta.
Proof. by destruct beta. Qed.

Lemma plainMinimax_node d b mx pl :
  Client.wonBy (Client.checkWinner b) pl = false ->
  Client.wonBy (Client.checkWinner b) (Client.opponentOf pl) = false ->
  Client.getValidColumns b <> [] ->
  plainMinimax (S d) b mx pl
  = if mx
    then plainMaxLoop (fun nb => plainMinimax d nb false pl)
           b pl (Client.getValidColumns b) NegInf None
    else plainMinLoop (fun nb => plainMinimax d nb true pl)
           b (Client.opponentOf pl) (Client.getValidColumns b) PosInf None.
Proof.
  intros H1 H2 Hv. cbn [plainMinimax]. rewrite H1, H2.
  rewrite bool_decide_eq_false_2; [done|].
  intros Hlen. by apply nil_length_inv in Hlen.
Qed.

(** With any window the search brackets the value of the unpruned search. *)
Lemma minimax_bounds d : forall b alpha beta mx pl,
  score_lt alpha beta = true ->
  bounds alpha beta (Client.minimax d b alpha beta mx pl).1 (plainMinimax d b mx pl).1.
Proof.
  induction d as [|d IH]; intros b alpha beta mx pl Hab.
  - cbn [Client.minimax plainMinimax].
    destruct (Client.wonBy _ pl); [apply bounds_refl|].
    destruct (Client.wonBy _ _); apply bounds_refl.
  - destruct (Client.wonBy (Client.checkWinner b) pl) eqn:H1.
    { cbn [Client.minimax plainMinimax]. rewrite H1. apply bounds_refl. }
    destruct (Client.wonBy (Client.checkWinner b) (Client.opponentOf pl)) eqn:H2.
    { cbn [Client.minimax plainMinimax]. rewrite H1, H2. apply bounds_refl. }
    destruct (decide (Client.getValidColumns b = [])) as [Hv|Hv].
    { cbn [Client.minimax plainMinimax]. rewrite H1, H2, Hv. apply bounds_refl. }
    rewrite minimax_node, plainMinimax_node by done. destruct mx.
    + rewrite <- (score_max_NegInf alpha) at 2.
      apply (maxLoop_bounds (fun nb a be => Client.minimax d nb a be false pl)
               (fun nb => plainMinimax d nb false pl)).
      * intros nb a be Ha. by apply IH.
      * done.
      * by rewrite score_max_NegInf.
      * clear. score_order.
    + rewrite <- (score_min_PosInf beta) at 2.
      apply (minLoop_bounds (fun nb a be => Client.minimax d nb a be true pl)
               (fun nb => plainMinimax d nb true pl)).
      * intros nb a be Ha. by apply IH.
      * done.
      * by rewrite score_min_PosInf.
      * clear. score_order.
Qed.

Lemma score_lt_PosInf x : x <> PosInf -> score_lt x PosInf = true.
Proof. by destruct x. Qed.

Lemma score_lt_NegInf x : x <> NegInf -> score_lt NegInf x = true.
Proof. by destruct x. Qed.

(** At the root the window is open: nothing is pruned, and the loop walks in
    step with the unpruned one. *)
Lemma maxLoop_root child pchild b pl cols :
  (forall nb a be, score_lt a be = true ->
     bounds a be (child nb a be).1 (pchild nb).1) ->
  (forall nb a be, finite (child nb a be).1) ->
  forall best bcol, best <> PosInf ->
    Client.maxLoop child b pl cols best PosInf best bcol
    = plainMaxLoop pchild b pl cols best bcol.
Proof.
  intros Hchild Hfin. induction cols as [|col rest IH]; intros best bcol Hbest.
  - done.
  - cbn [Client.maxLoop plainMaxLoop].
    destruct (Client.applyMove b col pl) as [nb|]; [|by apply IH]. cbn zeta.
    pose proof (Hchild nb best PosInf (score_lt_PosInf _ Hbest)) as Hv.
    destruct (Hfin nb best PosInf) as [z Hz].
    revert Hv. rewrite Hz. generalize (pchild nb).1. intros x Hv.
    destruct (score_lt best (Fin z)) eqn:E.
    + assert (x = Fin z) as ->.
      { destruct Hv as (_ & Hin & _). by apply Hin. }
      rewrite E.
      assert (Ha : score_max best (Fin z) = Fin z) by (unfold score_max; by rewrite E).
      rewrite Ha. cbn [score_ge score_lt negb]. by apply IH.
    + assert (Hx : score_lt best x = false).
      { destruct Hv as (Hup & _ & _). specialize (Hup E).
        unfold score_le in Hup. revert E Hup. clear. intros. score_order. }
      rewrite Hx.
      assert (Ha : score_max best best = best)
        by (unfold score_max; by rewrite score_lt_irrefl).
      rewrite Ha. unfold score_ge. rewrite (score_lt_PosInf _ Hbest). cbn [negb].
      by apply IH.
Qed.

Lemma minLoop_root child pchild b pl cols :
  (forall nb a be, score_lt a be = true ->
     bounds a be (child nb a be).1 (pchild nb).1) ->
  (forall nb a be, finite (child nb a be).1) ->
  forall best bcol, best <> NegInf ->
    Client.minLoop child b pl cols NegInf best best bcol
    = plainMinLoop pchild b pl cols best bcol.
Proof.
  intros Hchild Hfin. induction cols as [|col rest IH]; intros best bcol Hbest.
  - done.
  - cbn [Client.minLoop plainMinLoop].
    destruct (Client.applyMove b col pl) as [nb|]; [|by apply IH]. cbn zeta.
    pose proof (Hchild nb NegInf best (score_lt_NegInf _ Hbest)) as Hv.
    destruct (Hfin nb NegInf best) as [z Hz].
    revert Hv. rewrite Hz. generalize (pchild nb).1. intros x Hv.
    destruct (score_lt (Fin z) best) eqn:E.
    + assert (x = Fin z) as ->.
      { destruct Hv as (_ & Hin & _). by apply Hin. }
      rewrite E.
      assert (Ha : score_min best (Fin z) = Fin z) by (unfold score_min; by rewrite E).
      rewrite Ha. cbn [score_ge score_lt negb]. by apply IH.
    + assert (Hx : score_lt x best = false).
      { destruct Hv as (_ & _ & Hlow). specialize (Hlow E).
        unfold score_le in Hlow. revert E Hlow. clear. intros. score_order. }
      rewrite Hx.
      assert (Ha : score_min best best = best)
        by (unfold score_min; by rewrite score_lt_irrefl).
      rewrite Ha. unfold score_ge. rewrite (score_lt_NegInf _ Hbest). cbn [negb].
      by apply IH.
Qed.

(** X7. Pruning never changes what the search finds.  Called with the open
    window (-Infinity, Infinity), as [chooseComputerMove] calls it, [minimax]
    returns the score and the column of the search that visits every child of
    every node.  With a narrower window the score is exact when it falls
    inside the window, an upper bound of the true score when it is at or below
    [alpha], and a lower bound when it is at or above [beta]. *)
Theorem alpha_beta_exact d b mx pl :
  wfBoard b ->
  Client.minimax d b NegInf PosInf mx pl = plainMinimax d b mx pl /\
  (forall alpha beta, score_lt alpha beta = true ->
     bounds alpha beta (Client.minimax d b alpha beta mx pl).1
       (plainMinimax d b mx pl).1).
Proof.
  intros _. split; [|intros alpha beta; apply minimax_bounds].
  destruct d as [|d]; [done|].
  destruct (Client.wonBy (Client.checkWinner b) pl) eqn:H1.
  { cbn [Client.minimax plainMinimax]. by rewrite H1. }
  destruct (Client.wonBy (Client.checkWinner b) (Client.opponentOf pl)) eqn:H2.
  { cbn [Client.minimax plainMinimax]. by rewrite H1, H2. }
  destruct (decide (Client.getValidColumns b = [])) as [Hv|Hv].
  { cbn [Client.minimax plainMinimax]. by rewrite H1, H2, Hv. }
  rewrite minimax_node, plainMinimax_node by done. destruct mx.
  - apply maxLoop_root; [|intros; apply minimax_finite|done].
    intros nb a be Ha. by apply minimax_bounds.
  - apply minLoop_root; [|intros; apply minimax_finite|done].
    intros nb a be Ha. by apply minimax_bounds.
Qed.

Lemma alpha_beta_exact_witness :
  Client.minimax 3 threeInRow NegInf PosInf true 2 = plainMinimax 3 threeInRow true 2.
Proof.
  apply (alpha_beta_exact 3 threeInRow true 2). exact wfBoard_threeInRow.
Defined.

(** ** The states of a room's game *)

Lemma count_insert (rw : list Z) i v w :
  rw !! i = Some 0 -> w <> 0 ->
  length (List.filter (fun x => Z.eqb x w) (<[i := v]> rw))
  = (length (List.filter (fun x => Z.eqb x w) rw) + if Z.eqb v w then 1 else 0)%nat.
Proof.
  revert i. induction rw as [|x rw IH]; intros i Hi Hw.
  - by rewrite lookup_nil in Hi.
  - destruct i as [|i]; simpl in *.
    + inversion Hi; subst. destruct (0 =? w) eqn:E0; [apply Z.eqb_eq in E0; lia|].
      destruct (v =? w); simpl; lia.
    + destruct (x =? w); simpl; rewrite (IH i Hi Hw); lia.
Qed.

Lemma cellsWith_insert (b : Board) i rw rw' w k :
  b !! i = Some rw ->
  length (List.filter (fun x => Z.eqb x w) rw')
  = (length (List.filter (fun x => Z.eqb x w) rw) + k)%nat ->
  cellsWith w (<[i := rw']> b) = (cellsWith w b + k)%nat.
Proof.
  revert i. induction b as [|x b IH]; intros i Hi Hm.
  - by rewrite lookup_nil in Hi.
  - destruct i as [|i]; simpl in *.
    + inversion Hi; subst. lia.
    + rewrite (IH i); [lia|done|done].
Qed.

Lemma cellsWith_setCell b row col v w :
  cell b row col = Some 0 -> w <> 0 ->
  cellsWith w (setCell b row col v)
  = (cellsWith w b + if Z.eqb v w then 1 else 0)%nat.
Proof.
  intros Hc Hw. destruct (cell_Some_nonneg _ _ _ _ Hc) as [Hr Hcol].
  unfold cell in Hc. unfold setCell.
  destruct (row <? 0) eqn:E1; [lia|]. destruct (col <? 0) eqn:E2; [lia|].
  cbn [orb] in Hc. destruct (b !! Z.to_nat row) as [rw|] eqn:E; [|discriminate].
  eapply cellsWith_insert; [done|]. by apply count_insert.
Qed.

Lemma emptyBoard_no_four : ~ fourInARow emptyBoard.
Proof. apply checkWinner_None_iff; [apply wfBoard_emptyBoard|reflexivity]. Qed.

(** A successful call passed the guards. *)
Lemma server_applyMove_Row_guard st by_ col st' row :
  Server.applyMove st by_ col = Some (st', Server.Row row) ->
  status st = playing /\ nextTurn st = by_ /\ 0 <= col < 7.
Proof.
  unfold Server.applyMove.
  case_bool_decide as Hs; cbn [negb]; [|discriminate].
  case_bool_decide as Hb; cbn [negb]; [|discriminate].
  destruct (_ || _) eqn:E; [discriminate|]. intros _.
  apply orb_false_elim in E as [E1 E2].
  apply Z.ltb_ge in E1. rewrite Z.gtb_ltb in E2. apply Z.ltb_ge in E2.
  split; [done|]. split; [done|lia].
Qed.

(** A failed call changed nothing. *)
Lemma server_applyMove_Error_inv st by_ col st' e :
  Server.applyMove st by_ col = Some (st', Server.Error e) -> st' = st.
Proof.
  unfold Server.applyMove.
  destruct (negb _); [congruence|]. destruct (negb _); [congruence|].
  destruct (_ || _); [congruence|]. apply dropLoop_error.
Qed.

(** After a placement that [checkWin] does not call a win, a board that had
    no 4-in-a-row still has none. *)
Lemma no_four_after_move b row col v :
  wfBoard b -> ~ fourInARow b -> cell b row col = Some 0 -> v <> 0 ->
  Server.checkWin (setCell b row col v) row col = Some false ->
  ~ fourInARow (setCell b row col v).
Proof.
  intros Hwf Hno H0 Hv Hw (v' & Hv' & r & c & d & Hd & Hline).
  destruct (new_line_through b row col 0 v v' r c d Hwf Hno H0 Hv' Hd Hline)
    as (-> & j & Hj & Hr & Hc).
  assert (Hthrough : fourThrough (setCell b row col v) row col).
  { exists v, r, c, d, j. done. }
  apply (checkWin_fourThrough _ _ _ v) in Hthrough.
  - congruence.
  - by apply wfBoard_setCell.
  - by eapply cell_setCell_eq.
Qed.

Lemma gameInv_new code now : gameInv (Server.state (Session.createRoom code now)).
Proof.
  cbn. split; [apply wfBoard_emptyBoard|]. split; [apply gravity_emptyBoard|].
  split; [cbn; lia|]. repeat split; done.
Qed.

Lemma gameInv_presence cs room :
  gameInv (Server.state room) -> gameInv (Server.state (Server.updatePresence cs room)).
Proof.
  intros (Hwf & Hg & Hcnt & Hlm & Hwin & Hwait & Hplay & Hwon & Hdraw).
  unfold Server.updatePresence. cbn [Server.state].
  destruct (_ && _ && bool_decide (status (Server.state room) = waiting)) eqn:E.
  - apply andb_prop in E as [_ E]. apply bool_decide_eq_true in E.
    destruct (Hwait E) as [Hb Hl]. cbn.
    split; [done|]. split; [done|]. split; [done|]. split; [done|].
    split.
    { intros p Hp. specialize (Hwin p Hp). congruence. }
    split; [done|]. split.
    { intros _. rewrite Hb. split; [apply emptyBoard_no_four|reflexivity]. }
    split; done.
  - cbn. done.
Qed.

Lemma gameInv_move st by_ col st' res :
  gameInv st -> Server.applyMove st by_ col = Some (st', res) -> gameInv st'.
Proof.
  intros Hinv Hm. destruct res as [row|e].
  2:{ apply server_applyMove_Error_inv in Hm. by subst. }
  destruct Hinv as (Hwf & Hg & Hcnt & Hlm & Hwin & Hwait & Hplay & Hwon & Hdraw).
  destruct (server_applyMove_Row_guard _ _ _ _ _ Hm) as (Hs & Hby & Hcol).
  destruct (server_applyMove_Row_inv _ _ _ _ _ Hm) as [Hlow Hb].
  apply server_applyMove_place in Hm as [_ Hp].
  destruct (place_spec st by_ col row) as (st'' & Hp' & _ & Hl & _ & _ & Hcases).
  rewrite Hp in Hp'. inversion Hp'; subst st''. clear Hp'.
  destruct (Hplay Hs) as [Hno Hturn].
  pose proof Hlow as [H0 _].
  assert (Hv : Server.cellValue by_ <> 0) by apply cellValue_nonzero.
  assert (Hwf' : wfBoard (board st')) by (rewrite Hb; by apply wfBoard_setCell).
  assert (Hg' : gravity (board st')) by (rewrite Hb; by apply gravity_setCell).
  assert (Hplaced : cell (board st') row col = Some (Server.cellValue by_)).
  { rewrite Hb. by eapply cell_setCell_eq. }
  assert (Hnone : winner st = None).
  { destruct (winner st) as [p|] eqn:E; [|done]. specialize (Hwin p eq_refl).
    congruence. }
  assert (Hc1 : cellsWith 1 (board st')
                = (cellsWith 1 (board st) + if decide (by_ = P1) then 1 else 0)%nat).
  { rewrite Hb, cellsWith_setCell by done. by destruct by_. }
  assert (Hc2 : cellsWith 2 (board st')
                = (cellsWith 2 (board st) + if decide (by_ = P2) then 1 else 0)%nat).
  { rewrite Hb, cellsWith_setCell by done. by destruct by_. }
  assert (Hcnt' : (cellsWith 2 (board st') <= cellsWith 1 (board st')
                   <= cellsWith 2 (board st') + 1)%nat).
  { rewrite Hc1, Hc2, Hturn, Hby. destruct by_; simpl; lia. }
  split; [done|]. split; [done|]. split; [done|]. split.
  { intros lm Hlm'. rewrite Hl in Hlm'. inversion Hlm'; subst lm. done. }
  destruct Hcases as [(Hw & Hst & Hwn & Hnt)|[(Hw & Hd & Hst & Hwn & Hnt)|(Hw & Hd & Hst & Hwn & Hnt)]].
  - split; [done|]. split; [congruence|]. split; [congruence|]. split.
    + intros _. exists (mkLastMove col row by_). cbn.
      split; [done|]. split; [done|]. split; [congruence|].
      by apply (checkWin_fourThrough _ _ _ _ Hwf' Hplaced).
    + congruence.
  - assert (Hno' : ~ fourInARow (board st')).
    { rewrite Hb. apply no_four_after_move; try done. by rewrite <- Hb. }
    split; [intros p Hpw; congruence|]. split; [congruence|].
    split; [congruence|]. split; [congruence|].
    intros _. split; [by apply checkDraw_topRowFull|done].
  - assert (Hno' : ~ fourInARow (board st')).
    { rewrite Hb. apply no_four_after_move; try done. by rewrite <- Hb. }
    split; [intros p Hpw; congruence|]. split; [congruence|]. split.
    + intros _. split; [done|].
      rewrite Hc1, Hc2, Hturn, Hnt, Hby. destruct by_; simpl; lia.
    + split; congruence.
Qed.

Lemma gameReach_inv st : gameReach st -> gameInv st.
Proof.
  induction 1 as [code now|cs room _ IH|st by_ col st' res _ IH Hm].
  - apply gameInv_new.
  - by apply gameInv_presence.
  - by eapply gameInv_move.
Qed.

(** X8. Every state that the game of a room can take - from a new room,
    through presence updates and calls of [applyMove] - has a 6x7 board that
    obeys gravity, on which P1 has as many marks as P2 or one more; the last
    move names a cell holding the mover's mark; a winner is recorded only in
    status Won; a Waiting game has an empty board; a Playing game has no
    4-in-a-row and its turn fits the mark counts; a Won game was won by the
    last mover with a 4-in-a-row through the last cell; a Draw has a full top
    row and no 4-in-a-row. *)
Theorem game_invariant st : gameReach st -> gameInv st.
Proof. apply gameReach_inv. Qed.

Lemma game_invariant_witness :
  gameInv (Server.state
             (Server.updatePresence ∅ (Session.createRoom "ABCDEF" 0))).
Proof.
  apply game_invariant. apply greach_presence. apply greach_new.
Defined.

(** ** The local game *)

Lemma isBoardFull_topRowFull b :
  wfBoard b -> gravity b -> (Client.isBoardFull b = true <-> topRowFull b).
Proof.
  intros Hwf Hg. rewrite isBoardFull_cells. split.
  - intros H c. apply H.
  - intros Htop r c Hc.
    destruct (cell_Some_inb _ _ _ _ Hwf Hc) as [Hr Hcc].
    destruct (decide (r = 0)) as [->|Hne]; [by apply (Htop c)|].
    destruct (cell_inb_Some b 0 c Hwf) as [v Hv]; [lia|done|].
    apply (Hg 0 r c v); [done| |lia|done].
    intros ->. by apply (Htop c).
Qed.

Lemma lowestEmpty_unique b col r1 r2 :
  lowestEmpty b col r1 -> lowestEmpty b col r2 -> r1 = r2.
Proof.
  intros [H1 L1] [H2 L2].
  destruct (Z.lt_trichotomy r1 r2) as [Hlt|[Heq|Hgt]]; [|done|].
  - by destruct (L1 r2 Hlt).
  - by destruct (L2 r1 Hgt).
Qed.

Lemma getAvailableRow_lowest b col :
  wfBoard b ->
  (Client.getAvailableRow b col = -1 /\ ~ hasEmpty b col) \/
  (0 <= Client.getAvailableRow b col < 6 /\
   lowestEmpty b col (Client.getAvailableRow b col)).
Proof.
  intros Hwf. unfold Client.getAvailableRow.
  destruct (availLoop_spec b col (Z.to_nat ROWS)) as [[Heq Hall]|(Hr & H0 & Hlow)].
  - left. split; [done|]. intros [r Hr].
    destruct (cell_Some_inb _ _ _ _ Hwf Hr) as [Hrr _].
    apply (Hall r); [unfold ROWS; lia|done].
  - right. unfold ROWS in *. split; [lia|]. split; [done|]. intros r Hr'.
    destruct (decide (r < 6)); [apply Hlow; lia|].
    intros Hc. apply (cell_Some_inb _ _ _ _ Hwf) in Hc. lia.
Qed.

(** One mark dropped by the player to move keeps a local game consistent. *)
Lemma localInv_drop g col row nextCurrent :
  localInv g ->
  App.g_winner g = None -> App.isDraw g = false ->
  lowestEmpty (App.g_board g) col row ->
  let nb := setCell (App.g_board g) row col (App.currentPlayer g) in
  let nw := Client.checkWinner nb in
  let nd := negb (App.truthy nw) && Client.isBoardFull nb in
  (nw = None -> nd = false ->
   nextCurrent = if App.currentPlayer g =? 1 then 2 else 1) ->
  localInv (App.mkLocalGame nb nextCurrent nw nd
              (App.history g ++ [App.mkMove (App.currentPlayer g) row col])).
Proof.
  intros (Hwf & Hg & Hw & Hd & Hlen & Hhist & Hcnt & Hturn) Hnone Hnd Hlow.
  cbn zeta. intros Hnext.
  destruct (Hturn Hnone Hnd) as [[Hp Hc]|[Hp Hc]];
    pose proof Hlow as [H0 _];
    destruct (cell_Some_nonneg _ _ _ _ H0) as [Hr0 Hc0];
    unfold localInv; cbn [App.g_board App.g_winner App.isDraw App.history App.currentPlayer];
    rewrite Hp in *.
  all: split; [by apply wfBoard_setCell|].
  all: split; [by apply gravity_setCell|].
  all: split; [done|]. all: split; [done|].
  all: split; [rewrite length_app, marks_setCell by done; simpl; lia|].
  all: split;
    [apply Forall_app; split;
      [eapply Forall_impl; [exact Hhist|]; intros m [Hm Hpl]; split; [|done];
       rewrite cell_setCell_ne; [done|done|done|];
       intros [= Hr' Hc']; rewrite Hr', Hc' in Hm; destruct Hpl as [Hpl|Hpl]; congruence
      |constructor; [|constructor]; cbn; split; [by eapply cell_setCell_eq|lia]]|].
  all: rewrite !cellsWith_setCell by done; cbn.
  all: split; [lia|].
  all: intros Hn1 Hn2; specialize (Hnext Hn1 Hn2); rewrite Hnext; cbn.
  - right. split; [done|lia].
  - left. split; [done|lia].
Qed.

Lemma localInv_reset : localInv App.resetLocalGame.
Proof.
  unfold localInv. cbn.
  split; [apply wfBoard_emptyBoard|]. split; [apply gravity_emptyBoard|].
  repeat split; try done; try lia.
Qed.

Lemma localInv_handleDrop mode colorChoice g col :
  localInv g -> localInv (App.handleDrop mode colorChoice g col).
Proof.
  intros Hinv. unfold App.handleDrop.
  case_bool_decide; [done|].
  destruct (App.g_winner g) as [w|] eqn:Hw; [done|].
  destruct (App.isDraw g) eqn:Hd; [done|]. cbn [App.truthy orb].
  destruct (_ && _); [done|].
  destruct (getAvailableRow_lowest (App.g_board g) col) as [[Heq _]|[Hr Hlow]];
    [apply Hinv| |].
  - rewrite Heq. done.
  - destruct (_ <? 0) eqn:E; [done|].
    apply (localInv_drop g col _ _ Hinv Hw Hd Hlow).
    intros Hn1 Hn2. rewrite Hn2, Hn1. done.
Qed.

Lemma computerPlayer_other colorChoice :
  App.humanPlayer colorChoice
  = if App.computerPlayer colorChoice =? 1 then 2 else 1.
Proof. by destruct colorChoice. Qed.

Lemma localInv_computerTurn draw mode difficulty colorChoice g :
  localInv g -> localInv (App.computerTurn draw mode difficulty colorChoice g).
Proof.
  intros Hinv. unfold App.computerTurn.
  destruct (negb _); [done|].
  destruct (App.g_winner g) as [w|] eqn:Hw; [done|].
  destruct (App.isDraw g) eqn:Hd; [done|]. cbn [App.truthy orb].
  destruct (App.currentPlayer g =? App.computerPlayer colorChoice) eqn:Hcur;
    cbn [negb]; [|done].
  apply Z.eqb_eq in Hcur.
  destruct (Client.chooseComputerMove _ _ _ _) as [move|]; [|done].
  destruct (_ <? 0); [done|].
  destruct (Client.applyMove _ _ _) as [nb|] eqn:Hm; [|done].
  pose proof Hinv as (Hwf & _).
  apply (client_applyMove_inv _ _ _ _ Hwf) in Hm as [Hlow ->].
  rewrite <- Hcur.
  apply (localInv_drop g move _ _ Hinv Hw Hd Hlow).
  intros _ _. rewrite computerPlayer_other. by rewrite <- Hcur.
Qed.

Lemma localReach_inv mode difficulty colorChoice g :
  localReach mode difficulty colorChoice g -> localInv g.
Proof.
  induction 1 as [|g col _ IH|g draw _ IH].
  - apply localInv_reset.
  - by apply localInv_handleDrop.
  - by apply localInv_computerTurn.
Qed.

(** X9. In every local game reached after a reset by clicks and computer
    turns, the board is 6x7 and obeys gravity, the winner shown is what
    [checkWinner] reports for the board, the draw flag is "no winner and the
    board is full", the history has one entry per mark on the board (each
    naming a cell that holds the mover's mark), and while the game is on the
    player to move is 1 when both have as many marks and 2 when player 1 has
    one more. *)
Theorem local_invariant mode difficulty colorChoice g :
  localReach mode difficulty colorChoice g -> localInv g.
Proof. apply localReach_inv. Qed.

Lemma local_invariant_witness :
  localInv (App.handleDrop App.local App.red App.resetLocalGame 3).
Proof.
  apply (local_invariant App.local medium App.red).
  apply lreach_drop. apply lreach_reset.
Defined.

(** X10. When it is the computer's turn in a game that is not over, the
    computer's turn always makes a move, at every difficulty and whatever the
    difficulty of the moves before: one mark of the computer is added in the
    lowest empty cell of a column, the move is appended to the history and
    the turn passes to the human player.  The game is any one with the
    invariant of the local game, which every reachable game has. *)
Theorem computerTurn_moves draw difficulty colorChoice g :
  localInv g ->
  App.g_winner g = None -> App.isDraw g = false ->
  App.currentPlayer g = App.computerPlayer colorChoice ->
  let g' := App.computerTurn draw App.computer difficulty colorChoice g in
  exists col row,
    lowestEmpty (App.g_board g) col row /\ 0 <= col < 7 /\
    App.g_board g' = setCell (App.g_board g) row col (App.computerPlayer colorChoice) /\
    App.history g' = App.history g ++ [App.mkMove (App.computerPlayer colorChoice) row col] /\
    App.currentPlayer g' = App.humanPlayer colorChoice /\
    marks (App.g_board g') = S (marks (App.g_board g)).
Proof.
  intros Hinv Hw Hd Hcur.
  destruct Hinv as (Hwf & Hg & _ & Hdraw & _).
  cbn zeta. unfold App.computerTurn.
  rewrite bool_decide_eq_true_2 by done. rewrite Hw, Hd, Hcur, Z.eqb_refl.
  cbn [negb App.truthy orb].
  rewrite Hw, Hd in Hdraw. cbn [App.truthy negb andb] in Hdraw.
  assert (Hvalid : Client.getValidColumns (App.g_board g) <> []).
  { intros Hnil. apply getValidColumns_nil_iff in Hnil; [|done]. congruence. }
  destruct (chooseComputerMove_valid draw (App.g_board g) difficulty
              (App.computerPlayer colorChoice)) as [Hnone Hsome].
  destruct (Client.chooseComputerMove _ _ _ _) as [move|] eqn:Hmove.
  2:{ by destruct Hvalid, (proj1 Hnone). }
  specialize (Hsome move eq_refl).
  apply getValidColumns_elem in Hsome as [Hcol Hempty]; [|done].
  destruct (getAvailableRow_lowest (App.g_board g) move Hwf) as [[_ Hno]|[Hr Hlow]];
    [done|].
  destruct (_ <? 0) eqn:E; [apply Z.ltb_lt in E; lia|].
  unfold Client.applyMove. rewrite E.
  exists move, (Client.getAvailableRow (App.g_board g) move). cbn.
  split; [done|]. split; [done|]. split; [done|]. split; [done|]. split; [done|].
  apply marks_setCell; [apply Hlow|by destruct colorChoice].
Qed.

Lemma computerTurn_moves_witness :
  exists col row,
    App.g_board (App.computerTurn 0 App.computer hard App.red easyOpening)
    = setCell (App.g_board easyOpening) row col 2.
Proof.
  destruct (computerTurn_moves 0 hard App.red easyOpening)
    as (col & row & _ & _ & Hb & _).
  - unfold easyOpening.
    apply localInv_handleDrop, localInv_computerTurn, localInv_handleDrop,
      localInv_reset.
  - reflexivity.
  - reflexivity.
  - reflexivity.
  - exists col, row. exact Hb.
Defined.

(** ** The server and the local game adjudicate alike *)

Lemma cellValue_playerIdToPlayer p : Server.cellValue p = App.playerIdToPlayer p.
Proof. by destruct p. Qed.

Lemma otherPlayer_toggle p :
  App.playerIdToPlayer (Server.otherPlayer p)
  = if App.playerIdToPlayer p =? 1 then 2 else 1.
Proof. by destruct p. Qed.

Lemma getAvailableRow_outside b col :
  wfBoard b -> ~ (0 <= col < 7) -> Client.getAvailableRow b col = -1.
Proof.
  intros Hwf Hcol.
  destruct (getAvailableRow_lowest b col Hwf) as [[Heq _]|[_ [Hc _]]]; [done|].
  apply (cell_Some_inb _ _ _ _ Hwf) in Hc. lia.
Qed.

Lemma setCell_changes b row col v :
  cell b row col = Some 0 -> v <> 0 -> setCell b row col v <> b.
Proof.
  intros Hc Hv Heq. pose proof (marks_setCell b row col v Hc Hv) as Hm.
  rewrite Heq in Hm. lia.
Qed.

(** After a mark placed on a board without a 4-in-a-row, the walk from the
    new cell and the scan of the whole board find the same. *)
Lemma checkWin_checkWinner b row col v :
  wfBoard b -> ~ fourInARow b -> cell b row col = Some 0 -> v <> 0 ->
  (Server.checkWin (setCell b row col v) row col = Some true
   <-> App.truthy (Client.checkWinner (setCell b row col v)) = true).
Proof.
  intros Hwf Hno Hc Hv.
  pose proof (wfBoard_setCell b row col v Hwf) as Hwf'.
  pose proof (cell_setCell_eq b row col 0 v Hc) as Hc'.
  rewrite (checkWin_fourThrough _ _ _ v Hwf' Hc').
  split.
  - intros H4. apply fourThrough_fourInARow in H4.
    destruct (checkWinner_four _ Hwf' H4) as [w ->]. done.
  - intros Ht. destruct (Client.checkWinner _) as [w|] eqn:Hw; [|done].
    destruct (checkWinner_Some_four _ _ Hwf' Hw) as (v' & _ & Hv' & r & c & d & Hd & Hline).
    destruct (new_line_through b row col 0 v v' r c d Hwf Hno Hc Hv' Hd Hline)
      as (-> & j & Hj & Hrow & Hcol).
    exists v, r, c, d, j. done.
Qed.

Lemma agrees_step colorChoice g st col :
  gameInv st -> agrees g st ->
  exists st' res,
    Server.applyMove st (nextTurn st) col = Some (st', res) /\
    agrees (App.handleDrop App.local colorChoice g col) st' /\
    ((exists e, res = Server.Error e)
     <-> App.handleDrop App.local colorChoice g col = g).
Proof.
  intros (Hwf & Hg & _ & _ & _ & _ & Hplay & _ & _) Hag.
  pose proof Hag as (Hb & Hcur & Hwon & Hdraw & Hnw).
  unfold App.handleDrop, Server.applyMove.
  rewrite (bool_decide_eq_false_2 (App.local = App.online)) by done.
  rewrite (bool_decide_eq_false_2 (App.local = App.computer)) by done.
  cbn [andb].
  destruct (decide (status st = playing)) as [Hst|Hst].
  2:{ rewrite (bool_decide_eq_false_2 _ Hst). cbn [negb].
      assert (App.truthy (App.g_winner g) || App.isDraw g = true) as ->.
      { destruct (status st) eqn:E; try done.
        - rewrite (proj2 Hwon eq_refl). done.
        - rewrite (proj2 Hdraw eq_refl). apply orb_true_r. }
      eexists _, _. split; [done|]. split; [done|]. split; [done|]. by eexists. }
  rewrite (bool_decide_eq_true_2 _ Hst), (bool_decide_eq_true_2 (nextTurn st = nextTurn st)) by done.
  cbn [negb].
  assert (App.truthy (App.g_winner g) = false) as Hw0.
  { destruct (App.truthy _); [|done]. rewrite (proj1 Hwon eq_refl) in Hst. done. }
  assert (App.isDraw g = false) as Hd0.
  { destruct (App.isDraw g); [|done]. rewrite (proj1 Hdraw eq_refl) in Hst. done. }
  rewrite Hw0, Hd0. cbn [orb].
  destruct (Hplay Hst) as [Hno _].
  destruct ((col <? 0) || (col >? 6)) eqn:Hrange.
  { rewrite (getAvailableRow_outside (App.g_board g) col); [|by rewrite Hb|].
    2:{ apply orb_true_iff in Hrange as [E|E]; [apply Z.ltb_lt in E|apply Z.gtb_lt in E]; lia. }
    cbn. eexists _, _. split; [done|]. split; [done|]. split; [done|]. by eexists. }
  apply orb_false_iff in Hrange as [E1 E2].
  apply Z.ltb_ge in E1. rewrite Z.gtb_ltb in E2. apply Z.ltb_ge in E2.
  rewrite Hb.
  destruct (getAvailableRow_lowest (board st) col Hwf) as [[Heq Hfull]|[Hr Hlow]].
  { rewrite Heq. cbn.
    rewrite dropLoop_full.
    - eexists _, _. split; [done|]. split; [done|]. split; [done|]. by eexists.
    - intros r _ Hc. apply Hfull. by exists r. }
  remember (Client.getAvailableRow (board st) col) as row eqn:Hrow.
  destruct (row <? 0) eqn:E; [apply Z.ltb_lt in E; lia|].
  pose proof Hlow as [Hc0 Hlow'].
  destruct (dropLoop_place st (nextTurn st) col (length (board st)))
    as (row' & Hr' & Hc' & Hlow'' & Hdrop).
  { exists row. split; [|done]. destruct Hwf as [Hlen _]. rewrite Hlen. lia. }
  assert (row' = row) as ->.
  { apply (lowestEmpty_unique (board st) col); [|done]. split; [done|].
    intros r Hlt Hc. destruct (cell_Some_inb _ _ _ _ Hwf Hc) as [Hrr _].
    apply (Hlow'' r); [|done]. destruct Hwf as [Hlen _]. rewrite Hlen. unfold ROWS in *. lia. }
  rewrite Hdrop.
  assert (Hv : Server.cellValue (nextTurn st) <> 0) by by destruct (nextTurn st).
  pose proof (checkWin_checkWinner (board st) row col _ Hwf Hno Hc0 Hv) as Hwin.
  pose proof (wfBoard_setCell (board st) row col (Server.cellValue (nextTurn st)) Hwf) as Hwf'.
  pose proof (gravity_setCell (board st) row col _ Hg Hlow Hv) as Hg'.
  pose proof (isBoardFull_topRowFull _ Hwf' Hg') as Hfull.
  rewrite <- checkDraw_topRowFull in Hfull.
  rewrite Hcur, <- cellValue_playerIdToPlayer.
  destruct (place_spec st (nextTurn st) col row)
    as (st' & Hplace & Hb' & _ & _ & _ & Hcases).
  rewrite <- Hb' in *.
  exists st', (Server.Row row). split; [done|].
  split.
  2:{ split; [intros [e He]; done|]. intros Heq.
      apply (f_equal App.g_board) in Heq. cbn in Heq. rewrite Hb, Hb' in Heq.
      by destruct (setCell_changes _ _ _ _ Hc0 Hv). }
  unfold agrees. cbn [App.g_board App.currentPlayer App.g_winner App.isDraw].
  split; [done|].
  destruct Hcases as [(Hcw & Hs & _ & Hn)|[(Hcw & Hcd & Hs & _ & Hn)|(Hcw & Hcd & Hs & _ & Hn)]].
  - pose proof (proj1 Hwin Hcw) as Ht. rewrite Ht, Hs, Hn. cbn.
    rewrite cellValue_playerIdToPlayer. done.
  - assert (Ht : App.truthy (Client.checkWinner (board st')) = false).
    { apply not_true_is_false. intros Et. rewrite (proj2 Hwin Et) in Hcw. done. }
    rewrite Ht, Hs, Hn, (proj2 Hfull Hcd). cbn.
    rewrite cellValue_playerIdToPlayer. done.
  - assert (Ht : App.truthy (Client.checkWinner (board st')) = false).
    { apply not_true_is_false. intros Et. rewrite (proj2 Hwin Et) in Hcw. done. }
    assert (Hf : Client.isBoardFull (board st') = false).
    { apply not_true_is_false. intros Et. rewrite (proj1 Hfull Et) in Hcd. done. }
    rewrite Ht, Hs, Hn, Hf, Hst. cbn.
    rewrite otherPlayer_toggle, cellValue_playerIdToPlayer. done.
Qed.

(** X11. The server's [applyMove] and the local game's [handleDrop]
    adjudicate alike.  If a local two-player game shows the position of a
    room's game (same board, same player to move, won and drawn alike), then
    after the same column is played by the player to move they still show
    the same position: the mark lands in the same cell, the whole-board scan
    of the client finds a winner exactly when the server's walk from the new
    cell does, and the client's "all cells taken" is the server's "top row
    full".  The server returns an error exactly when the local game ignores
    the click. *)
Theorem server_client_agree colorChoice g st col :
  gameReach st -> agrees g st ->
  exists st' res,
    Server.applyMove st (nextTurn st) col = Some (st', res) /\
    agrees (App.handleDrop App.local colorChoice g col) st' /\
    ((exists e, res = Server.Error e)
     <-> App.handleDrop App.local colorChoice g col = g).
Proof. intros Hreach. apply agrees_step. by apply gameReach_inv. Qed.

Lemma server_client_agree_witness :
  exists st' res,
    Server.applyMove startedGame (nextTurn startedGame) 3 = Some (st', res) /\
    agrees (App.handleDrop App.local App.red App.resetLocalGame 3) st'.
Proof.
  destruct (server_client_agree App.red App.resetLocalGame startedGame 3)
    as (st' & res & Hm & Hag & _).
  - apply greach_presence. apply (greach_new "ABCDEF" 1000).
  - unfold agrees. vm_compute. repeat split; intros; done.
  - exists st', res. split; [exact Hm|exact Hag].
Defined.

(** ** The registry of rooms *)

Lemma updatePresence_board cs room :
  board (Server.state (Server.updatePresence cs room)) = board (Server.state room).
Proof. unfold Server.updatePresence. cbn. by destruct (_ && _). Qed.

Lemma takenSeats_ext cs cs' room room' :
  Server.clients room' = Server.clients room ->
  (forall cid, cid ∈ Server.clients room -> cs' !! cid = cs !! cid) ->
  Server.takenSeats cs' room' = Server.takenSeats cs room.
Proof.
  unfold Server.takenSeats. intros -> H.
  apply list_omap_ext, Forall_Forall2_diag, Forall_forall.
  intros c Hc. unfold Server.clientOf. by rewrite H.
Qed.

Lemma setDelete_elem cid c l :
  c ∈ Session.setDelete cid l <-> c ∈ l /\ c <> cid.
Proof.
  unfold Session.setDelete. rewrite list_elem_of_In, filter_In, <- list_elem_of_In.
  rewrite negb_true_iff, bool_decide_eq_false. done.
Qed.

Lemma setDelete_sublist cid l : Session.setDelete cid l `sublist_of` l.
Proof. apply filter_sublist. Qed.

Lemma setDelete_NoDup cid l : NoDup l -> NoDup (Session.setDelete cid l).
Proof. intros H. eapply sublist_NoDup; [exact H|apply setDelete_sublist]. Qed.

Lemma omap_sublist {A B} (f : A -> option B) l1 l2 :
  l1 `sublist_of` l2 -> omap f l1 `sublist_of` omap f l2.
Proof.
  induction 1 as [|x l1 l2 _ IH|x l1 l2 _ IH]; cbn.
  - constructor.
  - destruct (f x); [by constructor|done].
  - destruct (f x); [by constructor|done].
Qed.

Lemma setAdd_notin cid l : cid ∉ l -> Server.setAdd cid l = l ++ [cid].
Proof. intros H. unfold Server.setAdd. by rewrite bool_decide_eq_false_2. Qed.

(** A listed connection points to the room that lists it. *)
Lemma regInv_pointer reg rc room cid :
  regInv reg -> Server.rooms reg !! rc = Some room -> cid ∈ Server.clients room ->
  Server.c_roomCode (Server.clientOf (Server.conns reg) cid) = Some rc.
Proof.
  intros Hinv Hroom Hin. destruct (Hinv rc room Hroom) as (_ & _ & Hptr & _).
  destruct (Hptr cid Hin) as [p Hp]. unfold Server.clientOf. by rewrite Hp.
Qed.

(** Replacing the room [rc] and the connection [cid]. *)
Lemma regInv_update reg rc room' cid cl :
  regInv reg ->
  Server.code room' = rc ->
  NoDup (Server.clients room') ->
  let cs' := <[cid := cl]> (Server.conns reg) in
  (forall c, c ∈ Server.clients room' ->
     exists p, cs' !! c = Some (Server.mkClient (Some rc) (Some p))) ->
  NoDup (Server.takenSeats cs' room') ->
  (forall k, Server.c_roomCode (Server.clientOf (Server.conns reg) cid) = Some k ->
     k = rc) ->
  regInv (Server.mkRegistry (<[rc := room']> (Server.rooms reg)) cs').
Proof.
  intros Hinv Hcode Hnd cs' Hptr Hseats Hown k room. cbn [Server.rooms Server.conns].
  destruct (decide (k = rc)) as [->|Hne].
  - rewrite lookup_insert_eq. intros [= <-]. done.
  - rewrite lookup_insert_ne by done. intros Hroom.
    destruct (Hinv k room Hroom) as (Hc & Hn & Hp & Hs).
    assert (Hother : forall c, c ∈ Server.clients room -> cs' !! c = Server.conns reg !! c).
    { intros c Hin. unfold cs'. apply lookup_insert_ne. intros <-.
      apply Hne, Hown. by eapply regInv_pointer. }
    split; [done|]. split; [done|]. split.
    + intros c Hin. rewrite Hother by done. by apply Hp.
    + by rewrite (takenSeats_ext (Server.conns reg) cs' room room).
Qed.

(** Replacing the room [rc] by one with the same code and clients. *)
Lemma regInv_same reg rc room room' :
  regInv reg -> Server.rooms reg !! rc = Some room ->
  Server.code room' = Server.code room ->
  Server.clients room' = Server.clients room ->
  regInv (Server.mkRegistry (<[rc := room']> (Server.rooms reg)) (Server.conns reg)).
Proof.
  intros Hinv Hroom Hcode Hcl k r. cbn [Server.rooms Server.conns].
  destruct (decide (k = rc)) as [->|Hne].
  - rewrite lookup_insert_eq. intros [= <-].
    destruct (Hinv rc room Hroom) as (Hc & Hn & Hp & Hs).
    rewrite Hcode, Hcl. split; [done|]. split; [done|]. split; [done|].
    by rewrite (takenSeats_ext (Server.conns reg) (Server.conns reg) room room').
  - rewrite lookup_insert_ne by done. apply Hinv.
Qed.

Lemma regInv_roomless reg cid k room :
  regInv reg ->
  Server.c_roomCode (Server.clientOf (Server.conns reg) cid) = None ->
  Server.rooms reg !! k = Some room -> cid ∉ Server.clients room.
Proof.
  intros Hinv Hnone Hroom Hin.
  rewrite (regInv_pointer reg k room cid Hinv Hroom Hin) in Hnone. done.
Qed.

Lemma takenSeats_snoc cs cid rc p room room' :
  cid ∉ Server.clients room ->
  Server.clients room' = Server.clients room ++ [cid] ->
  Server.takenSeats (<[cid := Server.mkClient rc (Some p)]> cs) room'
  = Server.takenSeats cs room ++ [p].
Proof.
  intros Hnin Hcl. unfold Server.takenSeats. rewrite Hcl, omap_app. f_equal.
  - apply list_omap_ext. apply Forall_Forall2_diag, Forall_forall.
    intros c Hc. unfold Server.clientOf. rewrite lookup_insert_ne; [done|].
    intros <-. done.
  - cbn. unfold Server.clientOf. by rewrite lookup_insert_eq.
Qed.

Lemma pickPlayerId_free cs room slot :
  Server.pickPlayerId cs room = Some slot -> slot ∉ Server.takenSeats cs room.
Proof.
  rewrite pickPlayerId_spec. cbn zeta.
  repeat case_bool_decide; intros [= <-]; done.
Qed.

Lemma regInv_attach reg cid rc room slot st now :
  regInv reg -> Server.rooms reg !! rc = Some room ->
  Server.c_roomCode (Server.clientOf (Server.conns reg) cid) = None ->
  slot ∉ Server.takenSeats (Server.conns reg) room ->
  let cs' := <[cid := Server.mkClient (Some rc) (Some slot)]> (Server.conns reg) in
  regInv (Server.mkRegistry
            (<[rc := Server.mkRoom (Server.code room)
                       (Server.setAdd cid (Server.clients room)) st
                       (Server.createdAt room) now]> (Server.rooms reg)) cs').
Proof.
  intros Hinv Hroom Hnone Hfree cs'.
  pose proof (regInv_roomless reg cid rc room Hinv Hnone Hroom) as Hnin.
  destruct (Hinv rc room Hroom) as (Hc & Hn & Hp & Hs).
  apply regInv_update; cbn [Server.code Server.clients]; try done.
  - rewrite setAdd_notin by done. apply NoDup_app. split; [done|]. split.
    + intros x Hx Hx'. apply list_elem_of_singleton in Hx'. by subst.
    + apply NoDup_singleton.
  - intros c. rewrite setAdd_notin by done. rewrite elem_of_app.
    intros [Hin|Hin%list_elem_of_singleton].
    + rewrite lookup_insert_ne by (intros <-; done). by apply Hp.
    + subst c. rewrite lookup_insert_eq. by eexists.
  - erewrite (takenSeats_snoc _ cid (Some rc) slot room); [|done|].
    2:{ cbn. by apply setAdd_notin. }
    apply NoDup_app. split; [done|]. split.
    + intros x Hx Hx'. apply list_elem_of_singleton in Hx'. by subst.
    + apply NoDup_singleton.
  - intros k Hk. rewrite Hnone in Hk. done.
Qed.

Lemma regInv_detach reg cid rc room st now :
  regInv reg -> Server.rooms reg !! rc = Some room ->
  Server.c_roomCode (Server.clientOf (Server.conns reg) cid) = Some rc ->
  regInv (Server.mkRegistry
            (<[rc := Server.mkRoom (Server.code room)
                       (Session.setDelete cid (Server.clients room)) st
                       (Server.createdAt room) now]> (Server.rooms reg))
            (<[cid := Server.mkClient None None]> (Server.conns reg))).
Proof.
  intros Hinv Hroom Hptr.
  destruct (Hinv rc room Hroom) as (Hc & Hn & Hp & Hs).
  apply regInv_update; cbn [Server.code Server.clients]; try done.
  - by apply setDelete_NoDup.
  - intros c [Hin Hne]%setDelete_elem. rewrite lookup_insert_ne by done. by apply Hp.
  - eapply sublist_NoDup; [exact Hs|].
    erewrite (takenSeats_ext (Server.conns reg) _
                (Server.mkRoom (Server.code room) (Session.setDelete cid (Server.clients room))
                   st (Server.createdAt room) now)); [| reflexivity |].
    + unfold Server.takenSeats. cbn [Server.clients].
      apply omap_sublist, setDelete_sublist.
    + cbn [Server.clients]. intros c [Hin Hne]%setDelete_elem.
      by rewrite lookup_insert_ne.
  - intros k Hk. rewrite Hptr in Hk. by injection Hk.
Qed.

Lemma regInv_post reg rc now :
  regInv reg ->
  regInv (Server.mkRegistry (Session.postRooms (Server.rooms reg) rc now)
            (Server.conns reg)).
Proof.
  intros Hinv k room. unfold Session.postRooms. cbn [Server.rooms Server.conns].
  destruct (decide (k = rc)) as [->|Hne].
  - rewrite lookup_insert_eq. intros [= <-]. cbn.
    split; [done|]. split; [apply NoDup_nil_2|]. split; [|apply NoDup_nil_2].
    intros c Hc. by apply elem_of_nil in Hc.
  - rewrite lookup_insert_ne by done. apply Hinv.
Qed.

Lemma regInv_createRoomMsg reg cid rc created now :
  regInv reg -> Server.rooms reg !! rc = None ->
  Server.c_roomCode (Server.clientOf (Server.conns reg) cid) = None ->
  regInv (Session.createRoomMsg reg cid rc created now).1.
Proof.
  intros Hinv Hnone Hfree. unfold Session.createRoomMsg, Session.ensureRoom.
  rewrite Hnone. cbn [fst].
  apply (regInv_attach
           (Server.mkRegistry (Session.postRooms (Server.rooms reg) rc created)
              (Server.conns reg))
           cid rc (Session.createRoom rc created) P1).
  - by apply regInv_post.
  - apply lookup_insert_eq.
  - done.
  - unfold Server.takenSeats. cbn. apply not_elem_of_nil.
Qed.

Lemma regInv_joinRoom reg cid rc now :
  regInv reg -> regInv (Server.joinRoom reg cid rc now).1.
Proof.
  intros Hinv. unfold Server.joinRoom.
  destruct (Server.rooms reg !! rc) as [room|] eqn:Hroom; [|done].
  case_bool_decide as Hin; [done|].
  destruct (Server.pickPlayerId _ _) as [slot|] eqn:Hpick; [|done].
  cbn [fst].
  apply (regInv_attach reg cid rc room slot); try done.
  - destruct (Server.c_roomCode _); [|done]. destruct Hin. by eexists.
  - by apply pickPlayerId_free.
Qed.

Lemma regInv_makeMoveMsg reg cid rc col now reg' out :
  regInv reg -> Session.makeMoveMsg reg cid rc col now = Some (reg', out) ->
  regInv reg'.
Proof.
  intros Hinv. unfold Session.makeMoveMsg.
  destruct (Server.rooms reg !! rc) as [room|] eqn:Hroom; [|by intros [= <- _]].
  destruct (Server.c_playerId _) as [p|]; [|by intros [= <- _]].
  destruct (negb _); [by intros [= <- _]|].
  destruct (Server.applyMove _ _ _) as [[st' res]|]; [|done].
  destruct res; intros [= <- _]; by apply (regInv_same reg rc room).
Qed.

Lemma regInv_leaveMsg reg cid rc :
  regInv reg -> regInv (Session.leaveMsg reg cid rc).1.
Proof.
  intros Hinv. unfold Session.leaveMsg.
  destruct (Server.rooms reg !! rc) as [room|] eqn:Hroom; [|done].
  case_bool_decide as Hptr; [|done]. cbn [fst].
  by apply (regInv_detach reg cid rc room).
Qed.

Lemma regInv_closeConn reg cid now :
  regInv reg -> regInv (Session.closeConn reg cid now).1.
Proof.
  intros Hinv. unfold Session.closeConn.
  destruct (Server.c_roomCode _) as [rc|] eqn:Hptr; [|done].
  destruct (Server.rooms reg !! rc) as [room|] eqn:Hroom; [|done]. cbn [fst].
  by apply (regInv_detach reg cid rc room).
Qed.

Lemma expired_spec now room :
  expired now room = true
  <-> Server.clients room = [] /\ now - Server.lastActiveAt room > Server.ROOM_TTL_MS.
Proof.
  unfold expired. rewrite andb_true_iff, negb_true_iff, Z.ltb_ge, Z.gtb_gt.
  destruct (Server.clients room) as [|c cs]; cbn [length].
  - split; (intros [_ ?]; split; [done|lia]).
  - split; intros [? _]; [lia|done].
Qed.

(** What a sweep leaves under a code. *)
Lemma sweep_lookup now (rs : gmap string Server.Room) k :
  Server.sweep now rs !! k
  = match rs !! k with
    | Some room => if expired now room then None else Some room
    | None => None
    end.
Proof.
  unfold Server.sweep. rewrite sweep_fold.
  destruct (existsb _ _) eqn:Ex.
  - apply existsb_exists in Ex as ([c room'] & Hin & Hc).
    apply andb_prop in Hc as [Hc He]. apply bool_decide_eq_true in Hc.
    cbn [fst snd] in Hc, He. subst c.
    apply list_elem_of_In, elem_of_map_to_list in Hin.
    by rewrite Hin, He.
  - destruct (rs !! k) as [room|] eqn:E; [|done].
    destruct (expired now room) eqn:He; [|done].
    assert (Hex : existsb
      (fun e : string * Server.Room => bool_decide (e.1 = k) && expired now e.2)
      (map_to_list rs) = true); [|congruence].
    apply existsb_exists. exists (k, room). split.
    + by apply list_elem_of_In, elem_of_map_to_list.
    + cbn [fst snd]. by rewrite bool_decide_eq_true_2, He.
Qed.

Lemma sweep_lookup_Some now (rs : gmap string Server.Room) k room :
  Server.sweep now rs !! k = Some room -> rs !! k = Some room.
Proof.
  rewrite sweep_lookup. destruct (rs !! k) as [r|]; [|done].
  by destruct (expired now r).
Qed.

Lemma regInv_sweep reg now :
  regInv reg ->
  regInv (Server.mkRegistry (Server.sweep now (Server.rooms reg)) (Server.conns reg)).
Proof.
  intros Hinv k room Hk. cbn [Server.rooms Server.conns] in *.
  apply sweep_lookup_Some in Hk. by apply Hinv.
Qed.

(** The game of every room is one that [applyMove] and [updatePresence]
    reach from a new room. *)
Lemma gamesReach_insert (rs : gmap string Server.Room) rc room' :
  (forall k room, rs !! k = Some room -> gameReach (Server.state room)) ->
  gameReach (Server.state room') ->
  forall k room, <[rc := room']> rs !! k = Some room -> gameReach (Server.state room).
Proof.
  intros Hall Hnew k room. destruct (decide (k = rc)) as [->|Hne].
  - rewrite lookup_insert_eq. by intros [= <-].
  - rewrite lookup_insert_ne by done. apply Hall.
Qed.

Lemma regReach_inv reg :
  regReach reg ->
  regInv reg /\
  (forall k room, Server.rooms reg !! k = Some room -> gameReach (Server.state room)).
Proof.
  induction 1 as [|reg cid rc created now _ [IH1 IH2] Hnone Hfree
                  |reg cid rc now _ [IH1 IH2]
                  |reg cid rc col now reg' out _ [IH1 IH2] Hmove
                  |reg cid rc _ [IH1 IH2]
                  |reg cid now _ [IH1 IH2]
                  |reg now _ [IH1 IH2]
                  |reg rc now _ [IH1 IH2]].
  - split; intros k room Hk; cbn in Hk; by rewrite lookup_empty in Hk.
  - split; [by apply regInv_createRoomMsg|].
    unfold Session.createRoomMsg, Session.ensureRoom. rewrite Hnone. cbn [fst Server.rooms].
    apply gamesReach_insert.
    + apply gamesReach_insert; [done|apply greach_new].
    + apply greach_presence. apply greach_new.
  - split; [by apply regInv_joinRoom|].
    unfold Server.joinRoom.
    destruct (Server.rooms reg !! rc) as [room|] eqn:Hroom; [|done].
    case_bool_decide; [done|].
    destruct (Server.pickPlayerId _ _); [|done]. cbn [fst Server.rooms].
    apply gamesReach_insert; [done|]. apply greach_presence. cbn. by eapply IH2.
  - split; [by eapply regInv_makeMoveMsg|].
    revert Hmove. unfold Session.makeMoveMsg.
    destruct (Server.rooms reg !! rc) as [room|] eqn:Hroom; [|by intros [= <- _]].
    destruct (Server.c_playerId _) as [p|]; [|by intros [= <- _]].
    destruct (negb _); [by intros [= <- _]|].
    destruct (Server.applyMove _ _ _) as [[st' res]|] eqn:Happ; [|done].
    assert (Hst : gameReach st').
    { eapply greach_move; [|exact Happ]. apply greach_presence. by eapply IH2. }
    destruct res; intros [= <- _]; cbn [Server.rooms];
      by apply gamesReach_insert.
  - split; [by apply regInv_leaveMsg|].
    unfold Session.leaveMsg.
    destruct (Server.rooms reg !! rc) as [room|] eqn:Hroom; [|done].
    case_bool_decide; [|done]. cbn [fst Server.rooms].
    apply gamesReach_insert; [done|]. apply greach_presence. cbn. by eapply IH2.
  - split; [by apply regInv_closeConn|].
    unfold Session.closeConn.
    destruct (Server.c_roomCode _) as [rc|]; [|done].
    destruct (Server.rooms reg !! rc) as [room|] eqn:Hroom; [|done].
    cbn [fst Server.rooms].
    apply gamesReach_insert; [done|].
    apply (greach_presence (Server.conns reg)
             (Server.mkRoom (Server.code room) (Session.setDelete cid (Server.clients room))
                (Server.state room) (Server.createdAt room) (Server.lastActiveAt room))).
    cbn. by eapply IH2.
  - split; [by apply regInv_sweep|].
    intros k room Hk. cbn in Hk. apply sweep_lookup_Some in Hk. by eapply IH2.
  - split; [by apply regInv_post|].
    cbn [Server.rooms]. unfold Session.postRooms.
    apply gamesReach_insert; [done|apply greach_new].
Qed.

Lemma NoDup_seats (l : list PlayerId) : NoDup l -> (length l <= 2)%nat.
Proof.
  intros H. destruct l as [|a [|b [|c l]]]; cbn; try lia.
  apply NoDup_cons in H as [Ha H]. apply NoDup_cons in H as [Hb H].
  apply NoDup_cons in H as [Hc _].
  assert (a <> b) by (intros ->; apply Ha; left).
  assert (a <> c) by (intros ->; apply Ha; right; left).
  assert (b <> c) by (intros ->; apply Hb; left).
  destruct a, b, c; congruence.
Qed.

Lemma regInv_seated reg rc room :
  regInv reg -> Server.rooms reg !! rc = Some room ->
  length (Server.takenSeats (Server.conns reg) room) = length (Server.clients room).
Proof.
  intros Hinv Hroom. destruct (Hinv rc room Hroom) as (_ & _ & Hp & _).
  unfold Server.takenSeats.
  induction (Server.clients room) as [|c l IH]; [done|].
  cbn. destruct (Hp c) as [p Hc]; [by left|].
  unfold Server.clientOf at 1. rewrite Hc. cbn. f_equal. apply IH.
  intros c' Hin. apply Hp. by right.
Qed.

(** X12. In every registry that the handlers reach from the empty one -
    [create_room] with an unused code from a connection in no room,
    [join_room], [make_move], [leave], a closed socket, the sweep and
    [POST /api/rooms] - each room is filed under its own code, lists no
    connection twice, every listed connection points back to the room and
    holds a seat, no seat is held by two listed connections, so a room has at
    most two connections; and the game of every room satisfies the game
    invariant. *)
Theorem registry_invariant reg :
  regReach reg ->
  regInv reg /\
  (forall rc room, Server.rooms reg !! rc = Some room ->
     (length (Server.clients room) <= 2)%nat /\ gameInv (Server.state room)).
Proof.
  intros [Hinv Hgames]%regReach_inv. split; [done|].
  intros rc room Hroom. split.
  - rewrite <- (regInv_seated reg rc room Hinv Hroom). apply NoDup_seats.
    by destruct (Hinv rc room Hroom) as (_ & _ & _ & Hs).
  - apply gameReach_inv. by eapply Hgames.
Qed.

Lemma registry_invariant_witness :
  regInv (Server.joinRoom
            (Session.createRoomMsg (Server.mkRegistry ∅ ∅) "c1" "ABCDEF" 1000 1000).1
            "c2" "ABCDEF" 2000).1.
Proof.
  destruct (registry_invariant
              (Server.joinRoom
                 (Session.createRoomMsg (Server.mkRegistry ∅ ∅) "c1" "ABCDEF" 1000 1000).1
                 "c2" "ABCDEF" 2000).1) as [H _]; [|exact H].
  apply rreach_join. apply rreach_create; [apply rreach_empty|reflexivity|reflexivity].
Defined.

(** ** What the handlers do to the rooms *)

Lemma updatePresence_game cs room :
  let st := Server.state room in
  let st' := Server.state (Server.updatePresence cs room) in
  board st' = board st /\ winner st' = winner st /\ lastMove st' = lastMove st /\
  ((status st' = status st /\ nextTurn st' = nextTurn st) \/
   (status st = waiting /\ status st' = playing /\ nextTurn st' = P1)).
Proof.
  unfold Server.updatePresence. cbn.
  destruct (_ && _ && bool_decide _) eqn:E; cbn.
  - apply andb_prop in E as [_ E]. apply bool_decide_eq_true in E.
    split; [done|]. split; [done|]. split; [done|]. by right.
  - split; [done|]. split; [done|]. split; [done|]. by left.
Qed.

Lemma keepsGames_refl reg : keepsGames reg reg.
Proof.
  intros k room Hk. exists room. split; [done|]. split; [done|].
  split; [done|]. split; [done|]. by left.
Qed.

(** A room replaced by its own presence update keeps its game. *)
Lemma keepsGames_presence reg rc room cs cs' room0 room1 :
  Server.rooms reg !! rc = Some room ->
  Server.state room0 = Server.state room ->
  Server.state room1 = Server.state (Server.updatePresence cs room0) ->
  keepsGames reg (Server.mkRegistry (<[rc := room1]> (Server.rooms reg)) cs').
Proof.
  intros Hroom Hst0 Hst k r Hk. cbn [Server.rooms].
  destruct (decide (k = rc)) as [->|Hne].
  - rewrite lookup_insert_eq. exists room1. split; [done|].
    rewrite Hroom in Hk. injection Hk as <-. rewrite Hst, <- Hst0.
    apply updatePresence_game.
  - rewrite lookup_insert_ne by done. exists r. split; [done|].
    split; [done|]. split; [done|]. split; [done|]. by left.
Qed.

(** X13. Attaching and detaching never alters a game.  After [create_room]
    (whatever code is drawn, used or not), [join_room], [leave] and the close
    of a socket, every room of the registry is still there with the board,
    winner and last move it had; status and turn are as before, or a Waiting
    game has become Playing with P1 to move.  These handlers remove no room
    and a game that lost a player stays Playing. *)
Theorem attach_detach_keep_games reg cid rc created now :
  keepsGames reg (Session.createRoomMsg reg cid rc created now).1 /\
  keepsGames reg (Server.joinRoom reg cid rc now).1 /\
  keepsGames reg (Session.leaveMsg reg cid rc).1 /\
  keepsGames reg (Session.closeConn reg cid now).1.
Proof.
  split; [|split; [|split]].
  - unfold Session.createRoomMsg, Session.ensureRoom.
    destruct (Server.rooms reg !! rc) as [room|] eqn:Hroom; cbn [fst].
    + eapply keepsGames_presence; [done| |reflexivity]; done.
    + intros k r Hk. cbn [Server.rooms].
      assert (k <> rc) by (intros ->; congruence).
      rewrite !lookup_insert_ne by done. exists r. split; [done|].
      split; [done|]. split; [done|]. split; [done|]. by left.
  - unfold Server.joinRoom.
    destruct (Server.rooms reg !! rc) as [room|] eqn:Hroom; [|apply keepsGames_refl].
    case_bool_decide; [apply keepsGames_refl|].
    destruct (Server.pickPlayerId _ _); [|apply keepsGames_refl]. cbn [fst].
    eapply keepsGames_presence; [done| |reflexivity]; done.
  - unfold Session.leaveMsg.
    destruct (Server.rooms reg !! rc) as [room|] eqn:Hroom; [|apply keepsGames_refl].
    case_bool_decide; [|apply keepsGames_refl]. cbn [fst].
    eapply keepsGames_presence; [done| |reflexivity]; done.
  - unfold Session.closeConn.
    destruct (Server.c_roomCode _) as [rc'|]; [|apply keepsGames_refl].
    destruct (Server.rooms reg !! rc') as [room|] eqn:Hroom; [|apply keepsGames_refl].
    cbn [fst]. eapply keepsGames_presence; [done| |reflexivity]; done.
Qed.

(** X14. The [make_move] handler always answers, touches no room but the one
    named and no connection.  Either it rejects: one error goes to the sender
    alone, and the room (if any) keeps its board, winner and clients.  Or it
    accepts: the sender points to the room and holds a seat, the game (after
    the presence update) is Playing with that seat to move, the seat's mark
    lands in the lowest empty cell of the column, the room is stamped with
    the time of the move and the new state is sent to every client of the
    room. *)
Theorem make_move_outcomes reg cid rc col now :
  exists reg' out,
    Session.makeMoveMsg reg cid rc col now = Some (reg', out) /\
    Server.conns reg' = Server.conns reg /\
    (forall k, k <> rc -> Server.rooms reg' !! k = Server.rooms reg !! k) /\
    (((exists code text, out = [(cid, Server.error_msg (Some rc) code text)]) /\
      (Server.rooms reg !! rc = None -> Server.rooms reg' !! rc = None) /\
      (forall room, Server.rooms reg !! rc = Some room ->
         exists room', Server.rooms reg' !! rc = Some room' /\
           board (Server.state room') = board (Server.state room) /\
           winner (Server.state room') = winner (Server.state room) /\
           Server.clients room' = Server.clients room)) \/
     (exists room room' p row,
        Server.rooms reg !! rc = Some room /\
        Server.rooms reg' !! rc = Some room' /\
        Server.c_roomCode (Server.clientOf (Server.conns reg) cid) = Some rc /\
        Server.c_playerId (Server.clientOf (Server.conns reg) cid) = Some p /\
        status (Server.state (Server.updatePresence (Server.conns reg) room)) = playing /\
        nextTurn (Server.state (Server.updatePresence (Server.conns reg) room)) = p /\
        0 <= col < 7 /\
        lowestEmpty (board (Server.state room)) col row /\
        board (Server.state room')
        = setCell (board (Server.state room)) row col (Server.cellValue p) /\
        Server.clients room' = Server.clients room /\
        Server.lastActiveAt room' = now /\
        out = map (fun c => (c, Server.state_msg rc (Server.state room')))
                (Server.clients room))).
Proof.
  unfold Session.makeMoveMsg.
  destruct (Server.rooms reg !! rc) as [room|] eqn:Hroom.
  2:{ eexists _, _. split; [done|]. split; [done|]. split; [done|]. left.
      split; [by eexists _, _|]. split; [done|]. intros room Hr. done. }
  destruct (Server.c_playerId _) as [p|] eqn:Hp.
  2:{ eexists _, _. split; [done|]. split; [done|]. split; [done|]. left.
      split; [by eexists _, _|]. split; [done|].
      intros r [= <-]. by exists room. }
  case_bool_decide as Hptr; cbn [negb].
  2:{ eexists _, _. split; [done|]. split; [done|]. split; [done|]. left.
      split; [by eexists _, _|]. split; [done|].
      intros r [= <-]. by exists room. }
  destruct (applyMove_returns
              (Server.state (Server.updatePresence (Server.conns reg) room)) p col)
    as [[st' res] Happ].
  rewrite Happ.
  destruct res as [row|e].
  - eexists _, _. split; [done|]. split; [done|].
    split; [by intros k Hk; cbn; rewrite lookup_insert_ne|].
    right.
    destruct (server_applyMove_Row_guard _ _ _ _ _ Happ) as (Hst & Hturn & Hcol).
    destruct (server_applyMove_Row_inv _ _ _ _ _ Happ) as (Hlow & Hb).
    rewrite updatePresence_board in Hlow, Hb.
    eexists room, _, p, row. cbn [Server.rooms].
    split; [done|]. split; [apply lookup_insert_eq|].
    cbn [Server.state Server.clients Server.lastActiveAt].
    repeat (split; [done|]). done.
  - apply server_applyMove_Error_inv in Happ as Heq. subst st'.
    eexists _, _. split; [done|]. split; [done|].
    split; [by intros k Hk; cbn; rewrite lookup_insert_ne|].
    left. split; [by eexists _, _|]. cbn [Server.rooms].
    split; [done|].
    intros r [= <-].
    eexists. split; [apply lookup_insert_eq|].
    cbn [Server.state Server.clients].
    destruct (updatePresence_game (Server.conns reg) room) as (Hb & Hw & _).
    done.
Qed.

(** ** Closing, sweeping and coming back *)

Lemma setDelete_all cid l :
  (forall c, c ∈ l -> c = cid) -> Session.setDelete cid l = [].
Proof.
  induction l as [|c l IH]; intros H; [done|]. cbn.
  rewrite (H c) by left. rewrite bool_decide_eq_true_2 by done. cbn.
  apply IH. intros c' Hc'. apply H. by right.
Qed.

(** X15. When the last connection of a room closes at time [t], the
    connection loses its room and seat and the room stays in the registry,
    empty and stamped [t]; a sweep at time [now] then removes the room if
    more than the time to live has passed since [t], and otherwise keeps it
    with its board and status. *)
Theorem close_then_sweep reg cid rc room t now :
  Server.rooms reg !! rc = Some room ->
  Server.c_roomCode (Server.clientOf (Server.conns reg) cid) = Some rc ->
  (forall c, c ∈ Server.clients room -> c = cid) ->
  let reg1 := (Session.closeConn reg cid t).1 in
  Server.clientOf (Server.conns reg1) cid = Server.mkClient None None /\
  (exists room1, Server.rooms reg1 !! rc = Some room1 /\
     Server.clients room1 = [] /\ Server.lastActiveAt room1 = t /\
     board (Server.state room1) = board (Server.state room) /\
     status (Server.state room1) = status (Server.state room) /\
     Server.sweep now (Server.rooms reg1) !! rc
     = if bool_decide (now - t > Server.ROOM_TTL_MS) then None else Some room1).
Proof.
  intros Hroom Hptr Hlast reg1. subst reg1. unfold Session.closeConn.
  rewrite Hptr, Hroom. cbn [fst Server.conns Server.rooms].
  split.
  { unfold Server.clientOf. by rewrite lookup_insert_eq. }
  eexists. split; [apply lookup_insert_eq|].
  cbn [Server.clients Server.lastActiveAt Server.state Server.updatePresence].
  rewrite (setDelete_all cid _ Hlast).
  split; [done|]. split; [done|].
  rewrite sweep_lookup, lookup_insert_eq.
  unfold Server.takenSeats. cbn [Server.clients omap list_omap].
  rewrite (bool_decide_eq_false_2 (P1 ∈ [])) by apply not_elem_of_nil.
  cbn [andb Server.state board status].
  split; [done|]. split; [done|].
  unfold expired. cbn [Server.clients Server.lastActiveAt length negb andb].
  destruct (now - t >? Server.ROOM_TTL_MS) eqn:E.
  - rewrite (bool_decide_eq_true_2 (now - t > Server.ROOM_TTL_MS)); [done|].
    by apply Z.gtb_gt.
  - rewrite (bool_decide_eq_false_2 (now - t > Server.ROOM_TTL_MS)); [done|].
    intros H%Z.gtb_gt. congruence.
Qed.

Lemma close_then_sweep_witness :
  Server.sweep 700000 (Server.rooms (Session.closeConn sampleRegistry "c1" 2000).1)
    !! "ABCDEF" = None.
Proof.
  destruct (close_then_sweep sampleRegistry "c1" "ABCDEF" sampleRoom 2000 700000)
    as (_ & room1 & _ & _ & _ & _ & _ & Hs).
  - reflexivity.
  - reflexivity.
  - intros c Hc. cbn in Hc. by apply list_elem_of_singleton in Hc.
  - rewrite Hs. reflexivity.
Defined.

Lemma omap_setDelete_notin {B} (f : string -> option B) cid p l :
  NoDup (omap f l) -> cid ∈ l -> f cid = Some p ->
  p ∉ omap f (Session.setDelete cid l).
Proof.
  induction l as [|c l IH]; intros Hnd Hin Hf; [apply not_elem_of_nil|].
  cbn [omap list_omap] in Hnd. cbn [Session.setDelete List.filter].
  case_bool_decide as E; cbn [negb].
  - subst c. rewrite Hf in Hnd. apply NoDup_cons in Hnd as [Hp _].
    intros Hin'. apply Hp.
    eapply elem_of_sublist; [exact Hin'|]. apply omap_sublist, setDelete_sublist.
  - apply elem_of_cons in Hin as [->|Hin]; [done|].
    cbn [omap list_omap]. destruct (f c) as [q|] eqn:Hq.
    + apply NoDup_cons in Hnd as [Hq' Hnd]. apply not_elem_of_cons. split.
      * intros ->. apply Hq'. apply list_elem_of_omap. by exists cid.
      * by apply IH.
    + by apply IH.
Qed.

Lemma omap_setDelete_in {B} (f : string -> option B) cid p q l :
  f cid = Some p -> q <> p -> q ∈ omap f l -> q ∈ omap f (Session.setDelete cid l).
Proof.
  intros Hf Hne (c & Hc & Hq)%list_elem_of_omap.
  apply list_elem_of_omap. exists c. split; [|done].
  apply setDelete_elem. split; [done|]. intros ->. congruence.
Qed.

(** The seats taken once [cid] is gone from the room, whatever becomes of
    the connection's own fields. *)
Lemma takenSeats_detached reg cid room room1 cl :
  Server.clients room1 = Session.setDelete cid (Server.clients room) ->
  Server.takenSeats (<[cid := cl]> (Server.conns reg)) room1
  = omap (fun c => Server.c_playerId (Server.clientOf (Server.conns reg) c))
      (Session.setDelete cid (Server.clients room)).
Proof.
  intros Hcl. unfold Server.takenSeats. rewrite Hcl.
  apply list_omap_ext, Forall_Forall2_diag, Forall_forall.
  intros c [_ Hne]%setDelete_elem. unfold Server.clientOf.
  by rewrite lookup_insert_ne.
Qed.

(** With the other seat still taken, the free seat is the one [cid] had. *)
Lemma pickPlayerId_vacated reg cid rc room room1 p cl :
  regInv reg -> Server.rooms reg !! rc = Some room ->
  cid ∈ Server.clients room ->
  Server.c_playerId (Server.clientOf (Server.conns reg) cid) = Some p ->
  Server.otherPlayer p ∈ Server.takenSeats (Server.conns reg) room ->
  Server.clients room1 = Session.setDelete cid (Server.clients room) ->
  Server.pickPlayerId (<[cid := cl]> (Server.conns reg)) room1 = Some p.
Proof.
  intros Hinv Hroom Hin Hp Hother Hcl.
  destruct (Hinv rc room Hroom) as (_ & _ & _ & Hs).
  rewrite pickPlayerId_spec. cbn zeta.
  rewrite (takenSeats_detached reg cid room room1 cl Hcl).
  pose proof (omap_setDelete_notin _ cid p _ Hs Hin Hp) as Hfree.
  assert (Htaken : Server.otherPlayer p
    ∈ omap (fun c => Server.c_playerId (Server.clientOf (Server.conns reg) c))
        (Session.setDelete cid (Server.clients room))).
  { apply (omap_setDelete_in _ cid p); [done|by destruct p|done]. }
  destruct p; cbn [Server.otherPlayer] in Htaken.
  - by rewrite (bool_decide_eq_false_2 _ Hfree).
  - by rewrite (bool_decide_eq_true_2 _ Htaken), (bool_decide_eq_false_2 _ Hfree).
Qed.

(** X16. A seat given up is the seat handed out next.  In a registry with
    the registry invariant, let the connection [cid] hold seat [p] of a room
    whose other seat is taken.  After [cid] leaves the room or its socket
    closes, a [join_room] of a connection [cid2] that is in no room succeeds
    and gives [cid2] the seat [p]: the newcomer takes over the side of the
    player who went away. *)
Theorem rejoin_takes_vacated_seat reg cid cid2 rc room p t now :
  regInv reg -> Server.rooms reg !! rc = Some room ->
  cid ∈ Server.clients room ->
  Server.c_playerId (Server.clientOf (Server.conns reg) cid) = Some p ->
  Server.otherPlayer p ∈ Server.takenSeats (Server.conns reg) room ->
  (cid2 <> cid ->
   Server.c_roomCode (Server.clientOf (Server.conns reg) cid2) = None) ->
  forall reg1,
    reg1 = (Session.leaveMsg reg cid rc).1 \/ reg1 = (Session.closeConn reg cid t).1 ->
    exists st,
      (Server.joinRoom reg1 cid2 rc now).2 !! 0%nat
      = Some (cid2, Server.room_joined rc p st) /\
      Server.conns (Server.joinRoom reg1 cid2 rc now).1 !! cid2
      = Some (Server.mkClient (Some rc) (Some p)) /\
      board st = board (Server.state room).
Proof.
  intros Hinv Hroom Hin Hp Hother Hfree reg1 Hreg1.
  pose proof (regInv_pointer reg rc room cid Hinv Hroom Hin) as Hptr.
  assert (exists room1,
    Server.rooms reg1 !! rc = Some room1 /\
    Server.conns reg1 = <[cid := Server.mkClient None None]> (Server.conns reg) /\
    Server.clients room1 = Session.setDelete cid (Server.clients room) /\
    board (Server.state room1) = board (Server.state room))
    as (room1 & Hroom1 & Hconns & Hcl & Hb).
  { destruct Hreg1 as [-> | ->].
    - unfold Session.leaveMsg. rewrite Hroom, Hptr.
      rewrite bool_decide_eq_true_2 by done. cbn [fst Server.rooms Server.conns].
      eexists. split; [apply lookup_insert_eq|]. split; [done|]. split; [done|].
      by rewrite updatePresence_board.
    - unfold Session.closeConn. rewrite Hptr, Hroom.
      cbn [fst Server.rooms Server.conns].
      eexists. split; [apply lookup_insert_eq|]. split; [done|]. split; [done|].
      cbn [Server.state]. by rewrite updatePresence_board. }
  unfold Server.joinRoom. rewrite Hroom1, Hconns.
  rewrite bool_decide_eq_false_2.
  2:{ intros [x Hx]. unfold Server.clientOf in Hx.
      destruct (decide (cid2 = cid)) as [->|Hne].
      - by rewrite lookup_insert_eq in Hx.
      - rewrite lookup_insert_ne in Hx by done.
        specialize (Hfree Hne). unfold Server.clientOf in Hfree. congruence. }
  rewrite (pickPlayerId_vacated reg cid rc room room1 p _ Hinv Hroom Hin Hp Hother Hcl).
  cbn [fst snd Server.conns]. eexists. split; [done|].
  split; [apply lookup_insert_eq|].
  by rewrite updatePresence_board.
Qed.

Lemma regReach_twoPlayerRegistry : regReach twoPlayerRegistry.
Proof.
  apply rreach_join. apply rreach_create; [apply rreach_empty|reflexivity|reflexivity].
Qed.

Lemma rejoin_takes_vacated_seat_witness :
  exists st,
    (Server.joinRoom (Session.closeConn twoPlayerRegistry "c1" 3000).1
       "c3" "ABCDEF" 4000).2 !! 0%nat
    = Some ("c3", Server.room_joined "ABCDEF" P1 st).
Proof.
  destruct (rejoin_takes_vacated_seat twoPlayerRegistry "c1" "c3" "ABCDEF"
              twoPlayerRoom P1 3000 4000) with
    (reg1 := (Session.closeConn twoPlayerRegistry "c1" 3000).1)
    as (st & Hst & _).
  - apply regReach_inv, regReach_twoPlayerRegistry.
  - reflexivity.
  - left.
  - reflexivity.
  - right; left.
  - intros _. reflexivity.
  - by right.
  - by exists st.
Defined.

(** ** From a new room to a full one *)

Lemma setAdd_nil cid : Server.setAdd cid [] = [cid].
Proof. apply setAdd_notin, not_elem_of_nil. Qed.

Lemma clientOf_insert_eq cs cid cl : Server.clientOf (<[cid := cl]> cs) cid = cl.
Proof. unfold Server.clientOf. by rewrite lookup_insert_eq. Qed.

Lemma clientOf_insert_ne cs cid c cl :
  cid <> c -> Server.clientOf (<[cid := cl]> cs) c = Server.clientOf cs c.
Proof. intros H. unfold Server.clientOf. by rewrite lookup_insert_ne. Qed.

(** X17. From a new room to a full one.  [create_room] under an unused code
    seats the sender as P1 in a Waiting game and answers [room_created] and
    the state; the [join_room] of a second connection that is in no room
    seats it as P2, starts the game (Playing, empty board, P1 to move, both
    players connected), answers [room_joined] to the joiner and sends the
    state to both, creator first; the [join_room] of a third connection is
    rejected with ROOM_FULL and changes nothing. *)
Theorem create_join_flow reg c1 c2 c3 rc created t1 t2 t3 :
  Server.rooms reg !! rc = None ->
  c2 <> c1 -> c3 <> c1 -> c3 <> c2 ->
  Server.c_roomCode (Server.clientOf (Server.conns reg) c2) = None ->
  Server.c_roomCode (Server.clientOf (Server.conns reg) c3) = None ->
  let waitingSt := mkGameState rc waiting emptyBoard P1 None None
                     (mkPlayers (Some (mkPresence true)) (Some (mkPresence false))) in
  let playingSt := mkGameState rc playing emptyBoard P1 None None
                     (mkPlayers (Some (mkPresence true)) (Some (mkPresence true))) in
  let r1 := Session.createRoomMsg reg c1 rc created t1 in
  let r2 := Server.joinRoom r1.1 c2 rc t2 in
  let r3 := Server.joinRoom r2.1 c3 rc t3 in
  r1.2 = [(c1, Server.room_created rc P1); (c1, Server.state_msg rc waitingSt)] /\
  Server.rooms r1.1 !! rc = Some (Server.mkRoom rc [c1] waitingSt created t1) /\
  r2.2 = [(c2, Server.room_joined rc P2 playingSt);
          (c1, Server.state_msg rc playingSt); (c2, Server.state_msg rc playingSt)] /\
  Server.rooms r2.1 !! rc = Some (Server.mkRoom rc [c1; c2] playingSt created t2) /\
  Server.clientOf (Server.conns r2.1) c1 = Server.mkClient (Some rc) (Some P1) /\
  Server.clientOf (Server.conns r2.1) c2 = Server.mkClient (Some rc) (Some P2) /\
  r3 = (r2.1, [(c3, Server.error_msg (Some rc) Server.ROOM_FULL "Room is full")]).
Proof.
  intros Hnone H21 H31 H32 Hc2 Hc3 waitingSt playingSt r1 r2 r3.
  assert (Hr1 : r1 = (Server.mkRegistry
                        (<[rc := Server.mkRoom rc [c1] waitingSt created t1]>
                           (Server.rooms reg))
                        (<[c1 := Server.mkClient (Some rc) (Some P1)]> (Server.conns reg)),
                      [(c1, Server.room_created rc P1);
                       (c1, Server.state_msg rc waitingSt)])).
  { unfold r1, Session.createRoomMsg, Session.ensureRoom. rewrite Hnone.
    cbn [Session.createRoom Server.code Server.clients Server.state
         Server.createdAt].
    rewrite setAdd_nil, insert_insert_eq.
    unfold Server.updatePresence, Server.takenSeats.
    cbn [Server.clients omap list_omap Server.state Server.code Server.createdAt
         Server.lastActiveAt status roomCode board nextTurn winner lastMove].
    rewrite clientOf_insert_eq. cbn [Server.c_playerId].
    done. }
  assert (Hr2 : r2 = (Server.mkRegistry
                        (<[rc := Server.mkRoom rc [c1; c2] playingSt created t2]>
                           (Server.rooms reg))
                        (<[c2 := Server.mkClient (Some rc) (Some P2)]>
                           (<[c1 := Server.mkClient (Some rc) (Some P1)]>
                              (Server.conns reg))),
                      [(c2, Server.room_joined rc P2 playingSt);
                       (c1, Server.state_msg rc playingSt);
                       (c2, Server.state_msg rc playingSt)])).
  { unfold r2. rewrite Hr1. unfold Server.joinRoom.
    cbn [fst Server.rooms Server.conns]. rewrite lookup_insert_eq.
    rewrite clientOf_insert_ne by done. rewrite Hc2.
    rewrite bool_decide_eq_false_2 by (by intros [? ?]).
    unfold Server.pickPlayerId, Server.takenSeats.
    cbn [Server.clients omap list_omap]. rewrite clientOf_insert_eq.
    cbn [Server.c_playerId].
    change (bool_decide (P1 ∈ [P1])) with true.
    change (bool_decide (P2 ∈ [P1])) with false. cbn [negb].
    rewrite insert_insert_eq.
    unfold Server.setAdd. rewrite bool_decide_eq_false_2.
    2:{ intros Hin%list_elem_of_singleton. done. }
    unfold Server.updatePresence, Server.takenSeats.
    cbn [Server.clients omap list_omap Server.state Server.code Server.createdAt
         Server.lastActiveAt status roomCode board nextTurn winner lastMove app].
    rewrite clientOf_insert_eq, clientOf_insert_ne, clientOf_insert_eq by done.
    cbn [Server.c_playerId].
    done. }
  rewrite Hr1 in *. cbn [fst snd Server.rooms Server.conns].
  split; [done|]. split; [apply lookup_insert_eq|].
  assert (Hr3 : r3 = (r2.1, [(c3, Server.error_msg (Some rc) Server.ROOM_FULL "Room is full")])).
  { unfold r3. rewrite Hr2. unfold Server.joinRoom.
    cbn [fst Server.rooms Server.conns]. rewrite lookup_insert_eq.
    rewrite !clientOf_insert_ne by done. rewrite Hc3.
    rewrite bool_decide_eq_false_2 by (by intros [? ?]).
    unfold Server.pickPlayerId, Server.takenSeats.
    cbn [Server.clients omap list_omap].
    rewrite clientOf_insert_eq, clientOf_insert_ne, clientOf_insert_eq by done.
    cbn [Server.c_playerId].
    done. }
  rewrite Hr3. rewrite Hr2. cbn [fst snd Server.rooms Server.conns].
  split; [done|]. split; [apply lookup_insert_eq|].
  rewrite clientOf_insert_eq, clientOf_insert_ne, clientOf_insert_eq by done.
  done.
Qed.

Lemma create_join_flow_witness :
  (Server.joinRoom twoPlayerRegistry "c3" "ABCDEF" 3000).2
  = [("c3", Server.error_msg (Some "ABCDEF") Server.ROOM_FULL "Room is full")].
Proof.
  destruct (create_join_flow (Server.mkRegistry ∅ ∅) "c1" "c2" "c3" "ABCDEF"
              1000 1000 2000 3000) as (_ & _ & _ & _ & _ & _ & H);
    [reflexivity|done|done|done|reflexivity|reflexivity|].
  exact (f_equal snd H).
Defined.

(** ** A connection that opens a second room *)

(** X18. [create_room] has no check that the sender is free.  If a
    connection listed in room A sends [create_room] and a code other than A's
    is drawn, it is moved to the new room but never taken off A's list: A
    keeps its entry with the connection still listed, also after the socket
    closes (the close detaches it from the new room only), and since A is
    never without clients no sweep removes A. *)
Theorem create_room_keeps_old_listing reg cid rcA roomA rcB created t1 t2 :
  Server.rooms reg !! rcA = Some roomA ->
  cid ∈ Server.clients roomA ->
  rcB <> rcA ->
  let reg1 := (Session.createRoomMsg reg cid rcB created t1).1 in
  let reg2 := (Session.closeConn reg1 cid t2).1 in
  Server.clientOf (Server.conns reg1) cid = Server.mkClient (Some rcB) (Some P1) /\
  Server.rooms reg1 !! rcA = Some roomA /\
  Server.clientOf (Server.conns reg2) cid = Server.mkClient None None /\
  Server.rooms reg2 !! rcA = Some roomA /\
  (forall now, Server.sweep now (Server.rooms reg2) !! rcA = Some roomA).
Proof.
  intros HA Hin Hne reg1 reg2.
  assert (H1 : exists rs roomB,
    reg1 = Server.mkRegistry (<[rcB := roomB]> rs)
             (<[cid := Server.mkClient (Some rcB) (Some P1)]> (Server.conns reg)) /\
    rs !! rcA = Some roomA) .
  { unfold reg1, Session.createRoomMsg, Session.ensureRoom.
    destruct (Server.rooms reg !! rcB) as [room|]; cbn [fst].
    - by eexists _, _.
    - eexists _, _. split; [done|]. by rewrite lookup_insert_ne. }
  destruct H1 as (rs & roomB & Hreg1 & Hrs).
  assert (H2 : exists roomB',
    reg2 = Server.mkRegistry (<[rcB := roomB']> (<[rcB := roomB]> rs))
             (<[cid := Server.mkClient None None]>
                (<[cid := Server.mkClient (Some rcB) (Some P1)]> (Server.conns reg)))).
  { unfold reg2, Session.closeConn. rewrite Hreg1. cbn [Server.conns Server.rooms].
    rewrite clientOf_insert_eq. cbn [Server.c_roomCode].
    rewrite lookup_insert_eq. cbn [fst]. by eexists. }
  destruct H2 as (roomB' & Hreg2).
  assert (HA2 : Server.rooms reg2 !! rcA = Some roomA).
  { rewrite Hreg2. cbn [Server.rooms]. by rewrite !lookup_insert_ne. }
  rewrite Hreg1 at 1 2. cbn [Server.conns Server.rooms].
  split; [apply clientOf_insert_eq|].
  split; [by rewrite lookup_insert_ne|].
  split; [rewrite Hreg2; apply clientOf_insert_eq|].
  split; [done|].
  intros now. rewrite sweep_lookup, HA2.
  unfold expired. destruct (Server.clients roomA) as [|c l]; [by apply elem_of_nil in Hin|].
  done.
Qed.

Lemma create_room_keeps_old_listing_witness :
  Server.sweep 86400000
    (Server.rooms
       (Session.closeConn
          (Session.createRoomMsg sampleRegistry "c1" "BBBBBB" 2000 2000).1
          "c1" 3000).1) !! "ABCDEF"
  = Some sampleRoom.
Proof.
  destruct (create_room_keeps_old_listing sampleRegistry "c1" "ABCDEF" sampleRoom
              "BBBBBB" 2000 2000 3000) as (_ & _ & _ & _ & H).
  - reflexivity.
  - left.
  - done.
  - exact (H 86400000).
Defined.

(** ** Room codes *)

Lemma pick_alphabet i : In (Session.pick i) Session.alphabet.
Proof.
  unfold Session.pick. apply nth_In. apply Nat.mod_upper_bound. done.
Qed.

Lemma alphabet_roomCodeChar c :
  In c Session.alphabet ->
  roomCodeChar c = true /\ ~ In c (String.list_ascii_of_string "0O1I").
Proof.
  intros Hc.
  assert (Hall : forallb
    (fun c => roomCodeChar c
              && negb (existsb (Ascii.eqb c) (String.list_ascii_of_string "0O1I")))
    Session.alphabet = true) by (by vm_compute).
  rewrite forallb_forall in Hall. apply Hall, andb_prop in Hc as [Hok Hno].
  split; [done|]. intros Hin. apply negb_true_iff in Hno.
  assert (existsb (Ascii.eqb c) (String.list_ascii_of_string "0O1I") = true);
    [|congruence].
  apply existsb_exists. exists c. split; [done|]. apply Ascii.eqb_refl.
Qed.

(** X19. Whatever the random source draws, [makeRoomCode] yields a code of
    six characters that [RoomCodeSchema] accepts - so a [join_room] with a
    code the server handed out always parses - and the code contains none of
    the characters 0, O, 1 and I. *)
Theorem makeRoomCode_valid i1 i2 i3 i4 i5 i6 :
  let code := Session.makeRoomCode i1 i2 i3 i4 i5 i6 in
  RoomCodeSchema code = true /\
  String.length code = 6%nat /\
  (forall c, In c (String.list_ascii_of_string code) ->
     ~ In c (String.list_ascii_of_string "0O1I")).
Proof.
  cbn zeta. unfold RoomCodeSchema, Session.makeRoomCode.
  rewrite String.list_ascii_of_string_of_list_ascii.
  assert (Hall : forall c,
    In c [Session.pick i1; Session.pick i2; Session.pick i3;
          Session.pick i4; Session.pick i5; Session.pick i6] ->
    roomCodeChar c = true /\ ~ In c (String.list_ascii_of_string "0O1I")).
  { intros c Hc. apply alphabet_roomCodeChar.
    cbn [In] in Hc.
    repeat (destruct Hc as [<-|Hc]; [apply pick_alphabet|]). done. }
  split; [|split].
  - apply andb_true_intro. split; [done|].
    apply forallb_forall. intros c Hc. by apply Hall.
  - done.
  - intros c Hc. by apply Hall.
Qed.

(** ** The leftmost winning column *)

Lemma firstSome_least (f : Z -> option Z) l y :
  StronglySorted Z.lt l -> firstSome f l = Some y ->
  exists x, x ∈ l /\ f x = Some y /\ forall x', x' ∈ l -> x' < x -> f x' = None.
Proof.
  induction l as [|a l IH]; intros Hs; cbn [firstSome]; [done|].
  apply StronglySorted_inv in Hs as [Hs Hall].
  destruct (f a) as [y'|] eqn:Ha.
  - intros [= ->]. exists a. split; [left|]. split; [done|].
    intros x' [->|Hin]%elem_of_cons Hlt; [lia|].
    rewrite List.Forall_forall in Hall. apply list_elem_of_In, Hall in Hin. lia.
  - intros H. destruct (IH Hs H) as (x & Hx & Hfx & Hleast).
    exists x. split; [by right|]. split; [done|].
    intros x' [->|Hin]%elem_of_cons Hlt; [done|]. by apply Hleast.
Qed.

Lemma StronglySorted_filter (P : Z -> bool) l :
  StronglySorted Z.lt l -> StronglySorted Z.lt (List.filter P l).
Proof.
  induction 1 as [|a l Hs IH Hall]; cbn [List.filter]; [constructor|].
  destruct (P a); [|done]. constructor; [done|].
  rewrite List.Forall_forall in *. intros x [Hx _]%filter_In. by apply Hall.
Qed.

Lemma getValidColumns_sorted b : StronglySorted Z.lt (Client.getValidColumns b).
Proof.
  unfold Client.getValidColumns. apply StronglySorted_filter.
  change (range COLS) with [0; 1; 2; 3; 4; 5; 6].
  repeat (constructor; try lia).
Qed.

Lemma client_applyMove_valid b col pl nb :
  wfBoard b -> Client.applyMove b col pl = Some nb ->
  col ∈ Client.getValidColumns b.
Proof.
  intros Hwf Hm. apply (client_applyMove_inv _ _ _ _ Hwf) in Hm as [[Hc _] _].
  apply getValidColumns_elem; [done|].
  destruct (cell_Some_inb _ _ _ _ Hwf Hc) as [_ Hcol]. split; [done|].
  by eexists.
Qed.

(** X20. On a 6x7 board without a 4-in-a-row, [findWinningMove] answers
    [null] exactly when no move of the player completes a 4-in-a-row of its
    mark; otherwise it answers the leftmost column whose move completes
    one. *)
Theorem findWinningMove_leftmost b pl :
  wfBoard b -> ~ fourInARow b -> pl <> 0 ->
  (Client.findWinningMove b pl = None <->
   forall col nb, Client.applyMove b col pl = Some nb -> ~ fourOf nb pl) /\
  (forall c, Client.findWinningMove b pl = Some c ->
     (exists nb, Client.applyMove b c pl = Some nb /\ fourOf nb pl) /\
     (forall c' nb', c' < c -> Client.applyMove b c' pl = Some nb' ->
        ~ fourOf nb' pl)).
Proof.
  intros Hwf Hno Hpl. split; [split|].
  - intros Hnone col nb Hm Hfour.
    destruct (findWinningMove_exists b pl col nb) as [c Hc]; [| | |congruence].
    + by eapply client_applyMove_valid.
    + done.
    + by apply (wonBy_after_move b col pl nb).
  - intros Hall. destruct (Client.findWinningMove b pl) as [c|] eqn:E; [|done].
    destruct (findWinningMove_Some b pl c E) as (_ & nb & Hm & Hw).
    destruct (Hall c nb Hm). by apply (wonBy_after_move b c pl nb).
  - intros c Hc. split.
    + destruct (findWinningMove_Some b pl c Hc) as (_ & nb & Hm & Hw).
      exists nb. split; [done|]. by apply (wonBy_after_move b c pl nb).
    + intros c' nb' Hlt Hm Hfour. unfold Client.findWinningMove in Hc.
      destruct (firstSome_least _ _ _ (getValidColumns_sorted b) Hc)
        as (x & Hx & Hfx & Hleast).
      assert (x = c) as ->.
      { destruct (Client.applyMove b x pl); [|done].
        destruct (Client.wonBy _ _); [|done]. by injection Hfx. }
      specialize (Hleast c' (client_applyMove_valid b c' pl nb' Hwf Hm) Hlt).
      cbn beta in Hleast. rewrite Hm in Hleast.
      rewrite (proj2 (wonBy_after_move b c' pl nb' Hwf Hno Hpl Hm) Hfour) in Hleast.
      done.
Qed.

Lemma findWinningMove_leftmost_witness :
  exists nb, Client.applyMove threeInRow 3 1 = Some nb /\ fourOf nb 1.
Proof.
  assert (Hno : ~ fourInARow threeInRow).
  { apply checkWinner_None_iff; [exact wfBoard_threeInRow|reflexivity]. }
  destruct (findWinningMove_leftmost threeInRow 1 wfBoard_threeInRow Hno) as [_ H];
    [lia|].
  destruct (H 3) as [Hnb _]; [reflexivity|exact Hnb].
Defined.

(** ** Left and right are alike *)

Lemma cell_mirror b r c : wfBoard b -> cell (mirror b) r c = cell b r (COLS - 1 - c).
Proof.
  intros [Hlen Hall]. unfold cell, mirror, COLS.
  destruct (r <? 0) eqn:Er; [done|]. cbn [orb].
  change (map (@rev Z) b) with (@rev Z <$> b). rewrite list_lookup_fmap.
  destruct (b !! Z.to_nat r) as [rw|] eqn:Hrw; cbn [fmap option_fmap option_map].
  2:{ by destruct (c <? 0), (7 - 1 - c <? 0). }
  assert (Hw : length rw = 7%nat).
  { rewrite Forall_forall in Hall. apply Hall. by eapply list_elem_of_lookup_2. }
  rewrite rev_alt. change (rev_append rw []) with (reverse rw).
  destruct (c <? 0) eqn:Ec.
  - apply Z.ltb_lt in Ec. destruct (7 - 1 - c <? 0) eqn:E; [done|].
    symmetry. apply lookup_ge_None. lia.
  - apply Z.ltb_ge in Ec. destruct (7 - 1 - c <? 0) eqn:E.
    + apply Z.ltb_lt in E. apply lookup_ge_None. rewrite length_reverse. lia.
    + apply Z.ltb_ge in E. rewrite reverse_lookup by lia.
      f_equal. lia.
Qed.

Lemma cellsOf_mirror b w :
  wfBoard b -> cellsOf (mirror b) w = cellsOf b (map mirrorCell w).
Proof.
  intros Hwf. unfold cellsOf. rewrite map_map. apply map_ext.
  intros [r c]. by apply cell_mirror.
Qed.

Lemma windowValue_leftFirst b pl opp w :
  windowValue pl opp (cellsOf b (leftFirst w)) = windowValue pl opp (cellsOf b w).
Proof.
  unfold leftFirst. destruct (rightToLeft w); [|done].
  unfold cellsOf. by rewrite map_rev, windowValue_rev.
Qed.

Lemma centerMarks_mirror b pl : wfBoard b -> centerMarks (mirror b) pl = centerMarks b pl.
Proof.
  intros Hwf. unfold centerMarks. do 2 f_equal. apply filter_ext.
  intros r. by rewrite cell_mirror.
Qed.

(** X21. The evaluation does not tell left from right: on a 6x7 board
    [scorePosition] gives the mirrored board (every row reversed) the score
    it gives the board. *)
Theorem scorePosition_mirror b pl :
  wfBoard b -> Client.scorePosition (mirror b) pl = Client.scorePosition b pl.
Proof.
  intros Hwf. rewrite !scorePosition_sum, centerMarks_mirror by done.
  apply (f_equal (Z.add _)).
  set (G := fun w => windowValue pl (Client.opponentOf pl) (cellsOf b w)).
  transitivity (sumZ (map G (map leftFirst (map (map mirrorCell) loopWindows)))).
  { apply (f_equal sumZ). rewrite !map_map. apply map_ext. intros w. unfold G.
    by rewrite windowValue_leftFirst, cellsOf_mirror. }
  transitivity (sumZ (map G (map leftFirst loopWindows))).
  - apply sumZ_perm, Permutation_map, samePieces_perm. vm_compute. reflexivity.
  - apply (f_equal sumZ). rewrite map_map. apply map_ext. intros w. unfold G.
    by rewrite windowValue_leftFirst.
Qed.

Lemma scorePosition_mirror_witness :
  Client.scorePosition (mirror threeInRow) 1 = Client.scorePosition threeInRow 1.
Proof. apply scorePosition_mirror. exact wfBoard_threeInRow. Defined.

Lemma wfBoard_mirror b : wfBoard b -> wfBoard (mirror b).
Proof.
  intros [Hlen Hall]. unfold mirror. split; [by rewrite length_map|].
  apply Forall_forall. intros rw Hin.
  apply list_elem_of_In, in_map_iff in Hin as (rw' & <- & Hin').
  rewrite length_rev. rewrite Forall_forall in Hall.
  by apply Hall, list_elem_of_In.
Qed.

Lemma mirror_mirror b : mirror (mirror b) = b.
Proof.
  unfold mirror. rewrite map_map. rewrite <- (map_id b) at 2.
  apply map_ext. intros rw. apply rev_involutive.
Qed.

Lemma fourOf_mirror_1 b v : wfBoard b -> fourOf (mirror b) v -> fourOf b v.
Proof.
  intros Hwf (r & c & d & Hd & Hline).
  assert (Hc : forall k, 0 <= k < 4 ->
            cell b (r + k * d.1) (COLS - 1 - (c + k * d.2)) = Some v).
  { intros k Hk. rewrite <- cell_mirror by done. by apply Hline. }
  unfold COLS in Hc. unfold directions in Hd.
  rewrite !elem_of_cons in Hd.
  destruct Hd as [->|[->|[->|[->|Hd]]]]; [| | | |by apply elem_of_nil in Hd];
    cbn [fst snd] in Hc.
  - exists r, (3 - c), (0, 1). split; [left|].
    intros k Hk. cbn [fst snd]. specialize (Hc (3 - k) ltac:(lia)).
    rewrite <- Hc. f_equal; lia.
  - exists r, (6 - c), (1, 0). split; [right; left|].
    intros k Hk. cbn [fst snd]. rewrite <- (Hc k Hk). f_equal; lia.
  - exists r, (6 - c), (1, -1). split; [do 3 right; left|].
    intros k Hk. cbn [fst snd]. rewrite <- (Hc k Hk). f_equal; lia.
  - exists r, (6 - c), (1, 1). split; [do 2 right; left|].
    intros k Hk. cbn [fst snd]. rewrite <- (Hc k Hk). f_equal; lia.
Qed.

Lemma fourInARow_mirror b : wfBoard b -> (fourInARow (mirror b) <-> fourInARow b).
Proof.
  intros Hwf. split; intros (v & Hv & H4); exists v; (split; [done|]).
  - by apply fourOf_mirror_1.
  - apply fourOf_mirror_1; [by apply wfBoard_mirror|]. by rewrite mirror_mirror.
Qed.

(** X22. Win detection does not tell left from right either: on a 6x7
    board [checkWinner] finds a winner on the mirrored board exactly when it
    finds one on the board, and [isBoardFull] and the valid columns mirror
    too: column [c] is valid on the mirrored board exactly when column
    [6 - c] is valid on the board. *)
Theorem checkWinner_mirror b :
  wfBoard b ->
  (is_Some (Client.checkWinner (mirror b)) <-> is_Some (Client.checkWinner b)) /\
  Client.isBoardFull (mirror b) = Client.isBoardFull b /\
  (forall c, c ∈ Client.getValidColumns (mirror b)
             <-> 6 - c ∈ Client.getValidColumns b).
Proof.
  intros Hwf. pose proof (wfBoard_mirror b Hwf) as Hwf'.
  split; [|split].
  - rewrite <- !not_eq_None_Some.
    rewrite (checkWinner_None_iff _ Hwf), (checkWinner_None_iff _ Hwf').
    by rewrite fourInARow_mirror.
  - apply Bool.eq_iff_eq_true. rewrite !isBoardFull_cells. split.
    + intros H r c Hc. apply (H r (6 - c)). rewrite cell_mirror by done.
      rewrite <- Hc. unfold COLS. f_equal; lia.
    + intros H r c Hc. apply (H r (COLS - 1 - c)). by rewrite <- cell_mirror.
  - intros c. rewrite !getValidColumns_elem by done.
    unfold hasEmpty. split; intros [Hc [r Hr]].
    + split; [lia|]. exists r. by rewrite cell_mirror in Hr.
    + split; [lia|]. exists r. rewrite cell_mirror by done.
      rewrite <- Hr. unfold COLS. f_equal; lia.
Qed.

Lemma checkWinner_mirror_witness :
  is_Some (Client.checkWinner (mirror finishedBoard)).
Proof.
  apply (checkWinner_mirror finishedBoard).
  - split; [reflexivity|]. repeat constructor.
  - by eexists.
Defined.

(** * The search agent, in the words of the specification *)

(** ** Players, lines and legal columns *)

Lemma opponent_opponentOf pl : pl = 1 \/ pl = 2 -> Client.opponentOf pl = opponent pl.
Proof. by intros [-> | ->]. Qed.

Lemma wfBoard_oneToWin : wfBoard oneToWin.
Proof. split; [reflexivity|]. repeat constructor. Qed.







(** The move into a column puts the mark into its lowest empty cell. *)
Lemma applyMove_lowest b col row pl :
  wfBoard b -> lowestEmpty b col row ->
  Client.applyMove b col pl = Some (setCell b row col pl).
Proof.
  intros Hwf Hlow.
  destruct (getAvailableRow_lowest b col Hwf) as [[_ Hno]|[Hr Hlow']].
  - destruct Hno. exists row. apply Hlow.
  - unfold Client.applyMove. destruct (_ <? 0) eqn:E; [apply Z.ltb_lt in E; lia|].
    by rewrite (lowestEmpty_unique b col _ _ Hlow Hlow').
Qed.

(** ** The scores and the scan of [minimax] *)



(** ** The immediate win *)

(** Where the app calls [chooseComputerMove] no winner is set, and then the
    board has no 4-in-a-row. *)
Lemma in_play_at_call_site g :
  localInv g -> App.g_winner g = None ->
  wfBoard (App.g_board g) /\ ~ fourInARow (App.g_board g).
Proof.
  intros (Hwf & _ & Hw & _) Hnone. split; [done|].
  apply checkWinner_None_iff; [done|]. by rewrite <- Hw.
Qed.

(** C7. On a 6x7 board without a 4-in-a-row - the only boards on which the
    app calls the function, see [in_play_at_call_site] - if some column 0..6
    is such that the computer's mark dropped into its lowest empty cell
    completes a 4-in-a-row of that mark, then [chooseComputerMove] at Medium
    and at Hard answers such a column. *)
Theorem chooseComputerMove_takes_win draw b difficulty pl :
  wfBoard b ->
  ~ fourInARow b ->
  pl <> 0 ->
  difficulty = medium \/ difficulty = hard ->
  (exists col row, 0 <= col < 7 /\ lowestEmpty b col row /\
                   fourOf (setCell b row col pl) pl) ->
  exists c row,
    Client.chooseComputerMove draw b difficulty pl = Some c /\
    0 <= c < 7 /\ lowestEmpty b c row /\
    fourOf (setCell b row c pl) pl.
Proof.
  intros Hwf Hno Hpl Hdiff (col & row & Hcol & Hlow & Hfour).
  destruct (chooseComputerMove_wins draw b difficulty pl Hwf Hno Hpl Hdiff)
    as (c & nb & Hc & Hcv & Hnb & Hf).
  { exists col, (setCell b row col pl). split; [|split; [|done]].
    - apply getValidColumns_elem; [done|]. split; [done|]. exists row. apply Hlow.
    - by apply applyMove_lowest. }
  apply (client_applyMove_inv _ _ _ _ Hwf) in Hnb as [Hlow' ->].
  exists c, (Client.getAvailableRow b c). split; [done|].
  split; [|done]. by apply (getValidColumns_elem b c Hwf).
Qed.

Lemma chooseComputerMove_takes_win_witness :
  exists c row,
    Client.chooseComputerMove 0 oneToWin hard 1 = Some c /\
    0 <= c < 7 /\ lowestEmpty oneToWin c row /\
    fourOf (setCell oneToWin row c 1) 1.
Proof.
  apply (chooseComputerMove_takes_win 0 oneToWin hard 1).
  - exact wfBoard_oneToWin.
  - apply checkWinner_None_iff; [exact wfBoard_oneToWin|reflexivity].
  - lia.
  - right. reflexivity.
  - exists 3, 5. split; [lia|]. split.
    + split; [reflexivity|]. intros r Hr Hc.
      apply (cell_Some_inb _ _ _ _ wfBoard_oneToWin) in Hc. lia.
    + apply fourOfb_spec; [apply wfBoard_setCell, wfBoard_oneToWin|reflexivity].
Defined.

(** ** The heuristic evaluation *)

(** C8. For a 6x7 board and an evaluating player (mark 1 or 2, the opponent
    being the other mark) the heuristic evaluation is the sum, over every
    window of 4 consecutive cells along the four axes, of +100 for four marks
    of the evaluating player, else +5 for three and one empty cell, else +2
    for two and two empty cells, and in addition -4 for three marks of the
    opponent and one empty cell; plus 3 for each mark of the evaluating
    player in the center column - and nothing else. *)
Theorem scorePosition_is_heuristic b pl :
  wfBoard b ->
  pl = 1 \/ pl = 2 ->
  Client.scorePosition b pl = heuristic b pl.
Proof.
  intros _ Hpl. rewrite scorePosition_windows. unfold heuristic.
  by rewrite (opponent_opponentOf pl Hpl).
Qed.

Lemma scorePosition_is_heuristic_witness :
  Client.scorePosition oneToWin 2 = heuristic oneToWin 2 /\
  heuristic oneToWin 2 = -2.
Proof.
  split.
  - apply (scorePosition_is_heuristic oneToWin 2); [exact wfBoard_oneToWin|by right].
  - reflexivity.
Defined.
